(** * go-command: the dispatch engine of [command.go]

    A shallow embedding of the command tree, of the part of Go's [flag]
    package the engine drives, and of [Execute], [SubCommand] and [usage],
    followed by the properties of dispatch, flag inheritance, middleware
    composition, exits and usage rendering. *)

From Stdlib Require Import ZArith Ascii String.
From stdpp Require Import base option list sorting strings gmap fin_maps.

Open Scope string_scope.
Open Scope list_scope.

(** ** Outcomes of Go code

    A computation over a state [S] returns normally, leaves the process
    through [os.Exit], panics, or does not come back ([Hang]: a loop that
    ran past its fuel). *)

Inductive outcome (S A : Type) : Type :=
| Done (a : A) (s : S)
| Exit (code : Z) (s : S)
| Panic (msg : string) (s : S)
| Hang.

Arguments Done {S A} a s.
Arguments Exit {S A} code s.
Arguments Panic {S A} msg s.
Arguments Hang {S A}.

Definition M (S A : Type) : Type := S → outcome S A.

Definition ret {S A} (a : A) : M S A := λ s, Done a s.

Definition bind {S A B} (m : M S A) (k : A → M S B) : M S B := λ s,
  match m s with
  | Done a s' => k a s'
  | Exit code s' => Exit code s'
  | Panic msg s' => Panic msg s'
  | Hang => Hang
  end.

Notation "x <- m ;; k" := (bind m (λ x, k))
  (at level 100, m at next level, right associativity).
Notation "m ;;; k" := (bind m (λ _, k))
  (at level 100, right associativity).

Definition os_Exit {S A} (code : Z) : M S A := λ s, Exit code s.
Definition panic {S A} (msg : string) : M S A := λ s, Panic msg s.
Definition get {S} : M S S := λ s, Done s s.
Definition modify {S} (f : S → S) : M S unit := λ s, Done tt (f s).

(** Dereferencing an address that is not allocated is Go's nil dereference. *)
Definition nil_deref : string :=
  "runtime error: invalid memory address or nil pointer dereference".

(** ** Strings *)

Definition HasPrefix_minus (s : string) : bool :=
  match s with
  | String c _ => Ascii.eqb c "-"
  | EmptyString => false
  end.

Fixpoint Contains_eq (s : string) : bool :=
  match s with
  | EmptyString => false
  | String c s' => Ascii.eqb c "=" || Contains_eq s'
  end.

(** The bytes of a line feed and of a tab. *)
Definition LF : string := String "010" EmptyString.
Definition TAB : string := String "009" EmptyString.

(** [strings.Join]. *)
Fixpoint Join (elems : list string) (sep : string) : string :=
  match elems with
  | [] => ""
  | [e] => e
  | e :: rest => e +:+ sep +:+ Join rest sep
  end.

(** ** The [flag] package (Go standard library, [flag/flag.go])

    A [flag.Value] is an object on the heap: flag sets hold its address,
    and two flag sets that hold the same address see the same value. *)

(** Addresses of objects on the heap. *)
Abbreviation addr := nat.

Inductive error :=
| ErrHelp
| errors_New (msg : string).

Definition Error (e : error) : string :=
  match e with
  | ErrHelp => "flag: help requested"
  | errors_New msg => msg
  end.

Record Value := mkValue {
  IsBoolFlag : bool;
  (* [Set]: from the current text and the argument, the new text and the
     text of the error, if any. *)
  Value_Set : string → string → string * option string;
  (* what [String()] returns *)
  Value_String : string;
}.

(** [*flag.Flag]; the name is the key under which a flag set holds it. *)
Record Flag := mkFlag {
  Usage : string;
  Value_of : addr;
  DefValue : string;
}.

Inductive ErrorHandling := ContinueOnError | ExitOnError | PanicOnError.

Inductive writer := os_Stderr | os_Stdout | strings_Builder.

Record FlagSet := mkFlagSet {
  (* the node whose [usage] method the [Usage] field holds; [None] is nil *)
  FlagSet_Usage : option addr;
  fs_name : string;
  parsed : bool;
  actual : gmap string Flag;
  formal : gmap string Flag;
  fs_args : list string;
  errorHandling : ErrorHandling;
  output : option writer;
  undef : gmap string string;
}.

(** The state handlers can reach: flag sets, flag values and what has been
    written, in order, to each stream. *)
Record hstate := mkHstate {
  fsets : gmap addr FlagSet;
  vals : gmap addr Value;
  written : list (writer * string);
}.

Definition NewFlagSet (name : string) (eh : ErrorHandling) : FlagSet :=
  {| FlagSet_Usage := None; fs_name := name; parsed := false; actual := ∅;
     formal := ∅; fs_args := []; errorHandling := eh; output := None;
     undef := ∅ |}.

Definition set_fsets (g : gmap addr FlagSet → gmap addr FlagSet) (h : hstate) : hstate :=
  {| fsets := g (fsets h); vals := vals h; written := written h |}.

Definition set_vals (g : gmap addr Value → gmap addr Value) (h : hstate) : hstate :=
  {| fsets := fsets h; vals := g (vals h); written := written h |}.

Definition Fprint (w : writer) (text : string) (h : hstate) : hstate :=
  {| fsets := fsets h; vals := vals h; written := written h ++ [(w, text)] |}.

Definition set_args (a : list string) (fs : FlagSet) : FlagSet :=
  {| FlagSet_Usage := FlagSet_Usage fs; fs_name := fs_name fs; parsed := parsed fs;
     actual := actual fs; formal := formal fs; fs_args := a;
     errorHandling := errorHandling fs; output := output fs; undef := undef fs |}.

Definition set_parsed (fs : FlagSet) : FlagSet :=
  {| FlagSet_Usage := FlagSet_Usage fs; fs_name := fs_name fs; parsed := true;
     actual := actual fs; formal := formal fs; fs_args := fs_args fs;
     errorHandling := errorHandling fs; output := output fs; undef := undef fs |}.

Definition set_actual (a : gmap string Flag) (fs : FlagSet) : FlagSet :=
  {| FlagSet_Usage := FlagSet_Usage fs; fs_name := fs_name fs; parsed := parsed fs;
     actual := a; formal := formal fs; fs_args := fs_args fs;
     errorHandling := errorHandling fs; output := output fs; undef := undef fs |}.

Definition set_formal (m : gmap string Flag) (fs : FlagSet) : FlagSet :=
  {| FlagSet_Usage := FlagSet_Usage fs; fs_name := fs_name fs; parsed := parsed fs;
     actual := actual fs; formal := m; fs_args := fs_args fs;
     errorHandling := errorHandling fs; output := output fs; undef := undef fs |}.

Definition set_output (w : option writer) (fs : FlagSet) : FlagSet :=
  {| FlagSet_Usage := FlagSet_Usage fs; fs_name := fs_name fs; parsed := parsed fs;
     actual := actual fs; formal := formal fs; fs_args := fs_args fs;
     errorHandling := errorHandling fs; output := w; undef := undef fs |}.

Definition set_undef (m : gmap string string) (fs : FlagSet) : FlagSet :=
  {| FlagSet_Usage := FlagSet_Usage fs; fs_name := fs_name fs; parsed := parsed fs;
     actual := actual fs; formal := formal fs; fs_args := fs_args fs;
     errorHandling := errorHandling fs; output := output fs; undef := m |}.

Definition set_Usage (u : option addr) (fs : FlagSet) : FlagSet :=
  {| FlagSet_Usage := u; fs_name := fs_name fs; parsed := parsed fs;
     actual := actual fs; formal := formal fs; fs_args := fs_args fs;
     errorHandling := errorHandling fs; output := output fs; undef := undef fs |}.

(** Reading and updating the flag set at an address. *)
Definition deref_fs (f : addr) : M hstate FlagSet := λ h,
  match fsets h !! f with
  | Some fs => Done fs h
  | None => Panic nil_deref h
  end.

Definition update_fs (f : addr) (g : FlagSet → FlagSet) : M hstate unit := λ h,
  match fsets h !! f with
  | Some fs => Done tt (set_fsets <[f := g fs]> h)
  | None => Panic nil_deref h
  end.

Definition deref_val (v : addr) : M hstate Value := λ h,
  match vals h !! v with
  | Some x => Done x h
  | None => Panic nil_deref h
  end.

(** [f.Output()]: standard error unless an output was set. *)
Definition Output (fs : FlagSet) : writer := default os_Stderr (output fs).

Definition SetOutput (f : addr) (w : writer) : M hstate unit :=
  update_fs f (set_output (Some w)).

(** [f.Args()]; a flag set that is not there reads as no arguments. *)
Definition Args (h : hstate) (f : addr) : list string :=
  match fsets h !! f with Some fs => fs_args fs | None => [] end.

(** [f.VisitAll]: the declared flags in lexicographical order of name. *)
Definition flag_le (x y : string * Flag) : Prop := String.leb x.1 y.1 = true.

Global Instance flag_le_dec : RelDecision flag_le.
Proof. intros x y. unfold flag_le. apply _. Defined.

Definition VisitAll (fs : FlagSet) : list (string * Flag) :=
  merge_sort flag_le (map_to_list (formal fs)).

(** What the embedding takes from the Go runtime as it is: the quoting of
    [%q], the text [PrintDefaults] renders for the flags in [VisitAll] order,
    and the order in which [range] walks a map, which Go leaves open. *)
Class GoRuntime := {
  strconv_Quote : string → string;
  PrintDefaults_text : list (string * Flag) → gmap addr Value → string;
  range_order : gmap string addr → list (string * addr);
  range_order_perm : ∀ m, range_order m ≡ₚ map_to_list m;
}.

Section flag_package.
Context `{GoRuntime}.

(** [f.sprintf]: formats, prints on the flag set's output, returns. *)
Definition FlagSet_sprintf (f : addr) (msg : string) : M hstate string :=
  fs <- deref_fs f ;;
  modify (Fprint (Output fs) (msg +:+ LF)) ;;;
  ret msg.

(** [f.Var(value, name, usage)]. *)
Definition Var (f : addr) (value : addr) (name usage : string) : M hstate unit :=
  fs <- deref_fs f ;;
  (if HasPrefix_minus name then
     msg <- FlagSet_sprintf f ("flag " +:+ strconv_Quote name +:+ " begins with -") ;;
     panic msg
   else if Contains_eq name then
     msg <- FlagSet_sprintf f ("flag " +:+ strconv_Quote name +:+ " contains =") ;;
     panic msg
   else ret tt) ;;;
  v <- deref_val value ;;
  let flag := {| Usage := usage; Value_of := value; DefValue := Value_String v |} in
  match formal fs !! name with
  | Some _ =>
      msg <- FlagSet_sprintf f
               (if String.eqb (fs_name fs) ""
                then "flag redefined: " +:+ name
                else fs_name fs +:+ " flag redefined: " +:+ name) ;;
      panic msg
  | None =>
      match undef fs !! name with
      | Some pos =>
          if negb (String.eqb pos "") then
            panic ("flag " +:+ name +:+ " set at " +:+ pos +:+ " before being defined")
          else update_fs f (set_formal (<[name := flag]> (formal fs)))
      | None => update_fs f (set_formal (<[name := flag]> (formal fs)))
      end
  end.

(** [f.PrintDefaults()] writes on the flag set's output. *)
Definition PrintDefaults (f : addr) : M hstate unit :=
  fs <- deref_fs f ;;
  h <- get ;;
  modify (Fprint (Output fs) (PrintDefaults_text (VisitAll fs) (vals h))).

Definition defaultUsage (f : addr) : M hstate unit :=
  fs <- deref_fs f ;;
  modify (Fprint (Output fs)
            (if String.eqb (fs_name fs) "" then "Usage:" +:+ LF
             else "Usage of " +:+ fs_name fs +:+ ":" +:+ LF)) ;;;
  PrintDefaults f.

(** [f.usage()]; [call c] runs the [usage] method of the node at [c]. *)
Definition FlagSet_usage (call : addr → M hstate unit) (f : addr) : M hstate unit :=
  fs <- deref_fs f ;;
  match FlagSet_Usage fs with
  | None => defaultUsage f
  | Some c => call c
  end.

Definition failf (call : addr → M hstate unit) (f : addr) (msg : string) : M hstate error :=
  msg <- FlagSet_sprintf f msg ;;
  FlagSet_usage call f ;;;
  ret (errors_New msg).

(** The first [=] of [s], as the loop from index 1 of [parseOne] finds it
    in the name without its first byte. *)
Fixpoint cut_eq (s : string) : option (string * string) :=
  match s with
  | EmptyString => None
  | String c s' =>
      if Ascii.eqb c "=" then Some (EmptyString, s')
      else match cut_eq s' with
           | Some (a, b) => Some (String c a, b)
           | None => None
           end
  end.

Definition apply_Set (value : addr) (arg : string) : M hstate (option string) :=
  v <- deref_val value ;;
  let '(new, err) := Value_Set v (Value_String v) arg in
  modify (set_vals <[value :=
     {| IsBoolFlag := IsBoolFlag v; Value_Set := Value_Set v; Value_String := new |}]>) ;;;
  ret err.

(** [f.Set(name, value)]; [pos] is the position of the caller, which the
    flag set remembers when it has no such flag. *)
Definition FlagSet_Set (pos : string) (f : addr) (name value : string)
    : M hstate (option error) :=
  fs <- deref_fs f ;;
  match formal fs !! name with
  | None =>
      update_fs f (set_undef (<[name := pos]> (undef fs))) ;;;
      ret (Some (errors_New ("no such flag -" +:+ name)))
  | Some flag =>
      err <- apply_Set (Value_of flag) value ;;
      match err with
      | Some err => ret (Some (errors_New err))
      | None =>
          fs' <- deref_fs f ;;
          update_fs f (set_actual (<[name := flag]> (actual fs'))) ;;;
          ret None
      end
  end.

(** [f.parseOne()]. *)
Definition parseOne (call : addr → M hstate unit) (f : addr) : M hstate (bool * option error) :=
  fs <- deref_fs f ;;
  match fs_args fs with
  | [] => ret (false, None)
  | s :: rest =>
    match s with
    | String c0 (String c1 s2) =>
      if negb (Ascii.eqb c0 "-") then ret (false, None)
      else if Ascii.eqb c1 "-" && String.eqb s2 "" then
        (* "--" terminates the flags *)
        update_fs f (set_args rest) ;;;
        ret (false, None)
      else
        let name := if Ascii.eqb c1 "-" then s2 else String c1 s2 in
        match name with
        | EmptyString =>
            e <- failf call f ("bad flag syntax: " +:+ s) ;; ret (false, Some e)
        | String n0 ntail =>
          if Ascii.eqb n0 "-" || Ascii.eqb n0 "=" then
            e <- failf call f ("bad flag syntax: " +:+ s) ;; ret (false, Some e)
          else
            (* it is a flag; does it have an argument? *)
            update_fs f (set_args rest) ;;;
            let '(name, hasValue, value) :=
              match cut_eq ntail with
              | Some (a, v) => (String n0 a, true, v)
              | None => (name, false, EmptyString)
              end in
            match formal fs !! name with
            | None =>
                if String.eqb name "help" || String.eqb name "h" then
                  FlagSet_usage call f ;;;
                  ret (false, Some ErrHelp)
                else
                  e <- failf call f ("flag provided but not defined: -" +:+ name) ;;
                  ret (false, Some e)
            | Some flag =>
                v <- deref_val (Value_of flag) ;;
                r <- (if IsBoolFlag v then
                        if hasValue then
                          err <- apply_Set (Value_of flag) value ;;
                          match err with
                          | Some err =>
                              e <- failf call f ("invalid boolean value " +:+ strconv_Quote value
                                                 +:+ " for -" +:+ name +:+ ": " +:+ err) ;;
                              ret (Some e)
                          | None => ret None
                          end
                        else
                          err <- apply_Set (Value_of flag) "true" ;;
                          match err with
                          | Some err =>
                              e <- failf call f ("invalid boolean flag " +:+ name
                                                 +:+ ": " +:+ err) ;;
                              ret (Some e)
                          | None => ret None
                          end
                      else
                        (* it must have a value, which might be the next argument *)
                        match hasValue, rest with
                        | false, [] =>
                            e <- failf call f ("flag needs an argument: -" +:+ name) ;;
                            ret (Some e)
                        | _, _ =>
                            value <- (if hasValue then ret value
                                      else match rest with
                                           | a :: rest' =>
                                               update_fs f (set_args rest') ;;; ret a
                                           | [] => ret value
                                           end) ;;
                            err <- apply_Set (Value_of flag) value ;;
                            match err with
                            | Some err =>
                                e <- failf call f ("invalid value " +:+ strconv_Quote value
                                                   +:+ " for flag -" +:+ name +:+ ": " +:+ err) ;;
                                ret (Some e)
                            | None => ret None
                            end
                        end) ;;
                match r with
                | Some e => ret (false, Some e)
                | None =>
                    fs' <- deref_fs f ;;
                    update_fs f (set_actual (<[name := flag]> (actual fs'))) ;;;
                    ret (true, None)
                end
            end
        end
    | _ => ret (false, None)
    end
  end.

(** The loop of [f.Parse]: every flag seen takes at least one argument. *)
Fixpoint Parse_loop (fuel : nat) (call : addr → M hstate unit) (f : addr)
    : M hstate (option error) :=
  match fuel with
  | O => λ _, Hang
  | S fuel =>
      r <- parseOne call f ;;
      match r with
      | (true, _) => Parse_loop fuel call f
      | (false, None) => ret None
      | (false, Some err) =>
          fs <- deref_fs f ;;
          match errorHandling fs with
          | ContinueOnError => ret (Some err)
          | ExitOnError =>
              match err with
              | ErrHelp => os_Exit 0
              | _ => os_Exit 2
              end
          | PanicOnError => panic (Error err)
          end
      end
  end.

(** [f.Parse(arguments)]. *)
Definition Parse (call : addr → M hstate unit) (f : addr) (arguments : list string)
    : M hstate (option error) :=
  update_fs f (λ fs, set_args arguments (set_parsed fs)) ;;;
  Parse_loop (S (length arguments)) call f.

End flag_package.

(** ** [command.go] *)

(** [context.Context]: the values it carries; the engine only passes it on. *)
Definition Context := list (string * string).
Definition context_Background : Context := [].

Definition Handler := Context → addr → list string → M hstate (option error).

(** A middleware wraps a handler; wrapping itself does nothing else. *)
Abbreviation Middleware := (Handler → Handler).

Record command := mkCommand {
  name : string;
  help : string;
  middlewares : list Middleware;
  handler : option Handler;
  subCommands : gmap string addr;
  flagSet : addr;
  parent : option addr;
}.

(** What the builder works on: the nodes, and the state under them. *)
Record bstate := mkBstate {
  cmds : gmap addr command;
  heap : hstate;
}.

(** [flag.CommandLine] lives at a fixed address. *)
Definition flag_CommandLine : addr := 0.

(** The state a process starts in: [flag.CommandLine] is
    [NewFlagSet(os.Args[0], ExitOnError)], nothing else is allocated. *)
Definition init_state (os_Args : list string) : bstate :=
  {| cmds := ∅;
     heap := {| fsets := {[ flag_CommandLine := NewFlagSet (default "" (head os_Args)) ExitOnError ]};
                vals := ∅; written := [] |} |}.

Definition lift {A} (m : M hstate A) : M bstate A := λ s,
  match m (heap s) with
  | Done a h => Done a {| cmds := cmds s; heap := h |}
  | Exit code h => Exit code {| cmds := cmds s; heap := h |}
  | Panic msg h => Panic msg {| cmds := cmds s; heap := h |}
  | Hang => Hang
  end.

Definition deref_cmd {S} (cs : gmap addr command) (c : addr) : M S command := λ s,
  match cs !! c with
  | Some cmd => Done cmd s
  | None => Panic nil_deref s
  end.

Definition update_cmd (c : addr) (g : command → command) : M bstate unit := λ s,
  match cmds s !! c with
  | Some cmd => Done tt {| cmds := <[c := g cmd]> (cmds s); heap := heap s |}
  | None => Panic nil_deref s
  end.

Definition set_help (t : string) (c : command) : command :=
  {| name := name c; help := t; middlewares := middlewares c; handler := handler c;
     subCommands := subCommands c; flagSet := flagSet c; parent := parent c |}.

Definition set_middlewares (m : list Middleware) (c : command) : command :=
  {| name := name c; help := help c; middlewares := m; handler := handler c;
     subCommands := subCommands c; flagSet := flagSet c; parent := parent c |}.

Definition set_handler (hd : option Handler) (c : command) : command :=
  {| name := name c; help := help c; middlewares := middlewares c; handler := hd;
     subCommands := subCommands c; flagSet := flagSet c; parent := parent c |}.

Definition set_subCommands (m : gmap string addr) (c : command) : command :=
  {| name := name c; help := help c; middlewares := middlewares c; handler := handler c;
     subCommands := m; flagSet := flagSet c; parent := parent c |}.

(** [Root()] *)
Definition Root (os_Args : list string) : M bstate addr := λ s,
  match os_Args with
  | [] => Panic "runtime error: index out of range [0] with length 0" s
  | arg0 :: _ =>
      let c := fresh (dom (cmds s)) in
      let command := {| name := arg0; help := ""; middlewares := []; handler := None;
                        subCommands := ∅; flagSet := flag_CommandLine; parent := None |} in
      (lift (update_fs flag_CommandLine (set_Usage (Some c))) ;;;
       ret c) {| cmds := <[c := command]> (cmds s); heap := heap s |}
  end.

(** [c.SubCommand(name)] *)
Definition SubCommand (c : addr) (name : string) : M bstate addr := λ s,
  match cmds s !! c with
  | None => Panic nil_deref s
  | Some parent_cmd =>
      let a := fresh (dom (cmds s)) in
      let f := fresh (dom (fsets (heap s))) in
      let child := {| name := name; help := ""; middlewares := []; handler := None;
                      subCommands := ∅; flagSet := f; parent := Some c |} in
      Done a
        {| cmds := <[a := child]>
                     (<[c := set_subCommands (<[name := a]> (subCommands parent_cmd)) parent_cmd]>
                        (cmds s));
           heap := set_fsets <[f := set_Usage (Some a) (NewFlagSet name ExitOnError)]> (heap s) |}
  end.

(** [c.Middlewares(middlewares...)] *)
Definition Middlewares (c : addr) (mws : list Middleware) : M bstate addr :=
  update_cmd c (λ cmd, set_middlewares (middlewares cmd ++ mws) cmd) ;;;
  ret c.

(** [c.Action(handler)] *)
Definition Action (c : addr) (hd : option Handler) : M bstate addr :=
  update_cmd c (set_handler hd) ;;;
  ret c.

(** [c.Help(help)] *)
Definition Help (c : addr) (text : string) : M bstate addr :=
  update_cmd c (set_help text) ;;;
  ret c.

(** [c.Flags(flags)] *)
Definition Flags (c : addr) (flags : addr → M hstate unit) : M bstate addr :=
  s <- get ;;
  cmd <- deref_cmd (cmds s) c ;;
  lift (flags (flagSet cmd)) ;;;
  ret c.

Section command_go.
Context `{GoRuntime}.

(** The loop of [usage] that walks the parents, prepending their names. *)
Fixpoint fullCommand_loop (fuel : nat) (cs : gmap addr command)
    (command : option addr) (fullCommand : list string) : M hstate (list string) :=
  match command with
  | None => ret fullCommand
  | Some p =>
      match fuel with
      | O => λ _, Hang
      | S fuel =>
          pc <- deref_cmd cs p ;;
          fullCommand_loop fuel cs (parent pc) (name pc :: fullCommand)
      end
  end.

(** The loop of [usage] over the children. *)
Fixpoint subCommands_loop (cs : gmap addr command) (children : list (string * addr))
    (builder : string) : M hstate string :=
  match children with
  | [] => ret builder
  | (n, a) :: children =>
      subCommand <- deref_cmd cs a ;;
      let builder := builder +:+ LF +:+ "  " +:+ n in
      let builder :=
        if negb (String.eqb (help subCommand) "")
        then builder +:+ LF +:+ TAB +:+ help subCommand
        else builder in
      subCommands_loop cs children builder
  end.

(** [c.usage()] *)
Definition usage (cs : gmap addr command) (c : addr) : M hstate unit :=
  cmd <- deref_cmd cs c ;;
  fs <- deref_fs (flagSet cmd) ;;
  let output := Output fs in
  SetOutput (flagSet cmd) strings_Builder ;;;
  fullCommand <- fullCommand_loop (size cs) cs (parent cmd) [name cmd] ;;
  let nbFlags := length (VisitAll fs) in
  let optionsHint := if (0 <? nbFlags)%nat then " [OPTIONS]" else "" in
  let subCommandHint :=
    if (0 <? size (subCommands cmd))%nat then
      match handler cmd with
      | None => " COMMAND"
      | Some _ => " [COMMAND]"
      end
    else "" in
  let builder := "Usage: " +:+ Join fullCommand " " +:+ optionsHint
                 +:+ subCommandHint +:+ LF in
  let builder :=
    if negb (String.eqb (help cmd) "")
    then builder +:+ LF +:+ help cmd +:+ LF
    else builder in
  h <- get ;;
  let builder :=
    if (0 <? nbFlags)%nat
    then builder +:+ LF +:+ "Options:" +:+ LF
                 +:+ PrintDefaults_text (VisitAll fs) (vals h)
    else builder in
  builder <- (if (0 <? size (subCommands cmd))%nat
              then subCommands_loop cs (range_order (subCommands cmd))
                     (builder +:+ LF +:+ "Subcommands:")
              else ret builder) ;;
  modify (Fprint output (builder +:+ LF)).

(** Line 128: the loop that wraps the handler, from the last middleware
    down to the first; [i] is one more than the index of the source. *)
Fixpoint wrap_loop (mws : list Middleware) (i : nat) (handler : Handler) : Handler :=
  match i with
  | O => handler
  | S i =>
      match mws !! i with
      | Some m => wrap_loop mws i (m handler)
      | None => λ _ _ _, panic "runtime error: index out of range"
      end
  end.

Definition VisitAll_Var (f : addr) : list (string * Flag) → M hstate unit :=
  fix go flags :=
    match flags with
    | [] => ret tt
    | (n, fl) :: flags => Var f (Value_of fl) n (Usage fl) ;;; go flags
    end.

(** The loop of [Execute], lines 90 to 113; each descent drops a token.
    [mws] is the local [middlewares]. *)
Fixpoint Execute_loop (fuel : nat) (cs : gmap addr command) (command : addr)
    (args : list string) (mws : list Middleware)
    : M hstate (addr * list string * list Middleware) :=
  match fuel with
  | O => λ _, Hang
  | S fuel =>
      cmd <- deref_cmd cs command ;;
      err <- Parse (usage cs) (flagSet cmd) args ;;
      match err with
      | Some _ => os_Exit 2
      | None =>
          fs <- deref_fs (flagSet cmd) ;;
          let args := fs_args fs in
          match args with
          | [] => ret (command, args, mws)
          | arg0 :: rest =>
              match subCommands cmd !! arg0 with
              | None => ret (command, args, mws)
              | Some subCommand =>
                  sub <- deref_cmd cs subCommand ;;
                  VisitAll_Var (flagSet sub) (VisitAll fs) ;;;
                  Execute_loop fuel cs subCommand rest (mws ++ middlewares sub)
              end
          end
      end
  end.

(** [c.Execute(ctx)], with [os.Args] as an argument. *)
Definition Execute (cs : gmap addr command) (c : addr) (ctx : Context)
    (os_Args : list string) : M hstate (option error) :=
  match os_Args with
  | [] => panic "runtime error: slice bounds out of range [1:0]"
  | _ :: args =>
      root <- deref_cmd cs c ;;
      r <- Execute_loop (S (length args)) cs c args (middlewares root) ;;
      let '(command, args, mws) := r in
      cmd <- deref_cmd cs command ;;
      match handler cmd with
      | None =>
          match args with
          | arg0 :: _ =>
              SetOutput (flagSet cmd) os_Stderr ;;;
              fs <- deref_fs (flagSet cmd) ;;
              modify (Fprint (Output fs)
                        ("command provided but not defined: " +:+ arg0 +:+ LF)) ;;;
              usage cs command ;;;
              os_Exit 2
          | [] =>
              usage cs command ;;;
              os_Exit 0
          end
      | Some handler =>
          wrap_loop mws (length mws) handler ctx (flagSet cmd) args
      end
  end.

End command_go.

(** ** Flag values of the [flag] package and what programs declare with them *)

(** [f.Lookup(name).Value.String()]: the current text of a flag as seen
    through the flag set at [f]. *)
Definition Lookup_String (h : hstate) (f : addr) (n : string) : option string :=
  fs ← fsets h !! f;
  fl ← formal fs !! n;
  v ← vals h !! Value_of fl;
  Some (Value_String v).

Definition FormatBool (b : bool) : string := if b then "true" else "false".

(** [strconv.ParseBool] *)
Definition ParseBool (s : string) : option bool :=
  if bool_decide (s ∈ ["1"; "t"; "T"; "TRUE"; "true"; "True"]) then Some true
  else if bool_decide (s ∈ ["0"; "f"; "F"; "FALSE"; "false"; "False"]) then Some false
  else None.

(** [boolValue]: [Set] stores what [ParseBool] gives, false on an error. *)
Definition boolValue (b : bool) : Value :=
  {| IsBoolFlag := true;
     Value_Set := λ _ s, match ParseBool s with
                         | Some v => (FormatBool v, None)
                         | None => (FormatBool false, Some "parse error")
                         end;
     Value_String := FormatBool b |}.

Definition stringValue (s : string) : Value :=
  {| IsBoolFlag := false; Value_Set := λ _ s, (s, None); Value_String := s |}.

Definition new_Value (v : Value) : M hstate addr := λ h,
  let p := fresh (dom (vals h)) in
  Done p (set_vals <[p := v]> h).

Section declarations.
Context `{GoRuntime}.

(** [f.Bool(name, value, usage)] *)
Definition FlagSet_Bool (n : string) (value : bool) (usage : string) (f : addr)
    : M hstate unit :=
  p <- new_Value (boolValue value) ;;
  Var f p n usage.

(** [f.String(name, value, usage)] *)
Definition FlagSet_String (n : string) (value : string) (usage : string) (f : addr)
    : M hstate unit :=
  p <- new_Value (stringValue value) ;;
  Var f p n usage.
End declarations.

(** ** The traversal of [Execute] as a relation *)

(** The flag a flag set declares under a name, if any. *)
Definition flag_at (h : hstate) (f : addr) (n : string) : option Flag :=
  fs ← fsets h !! f; formal fs !! n.

(** A name the parser can read back from a token: not empty, no leading
    minus, no equals sign. *)
Definition valid_name (n : string) : bool :=
  negb (String.eqb n "") && negb (HasPrefix_minus n) && negb (Contains_eq n).

(** Where the loop of [Execute] stands at the top of an iteration. *)
Record config := Config {
  at_node : addr;
  rest : list string;
  acc : list Middleware;
  st : hstate;
}.

Section traversal.
Context `{GoRuntime}.

(** One descent: the flags parse, the first positional token names a
    child, and every flag of the node registers in the child. *)
Inductive descend (cs : gmap addr command) : config → config → Prop :=
| descend_child command cmd args mws h h1 fs arg0 args' subCommand sub h2 :
    cs !! command = Some cmd →
    Parse (usage cs) (flagSet cmd) args h = Done None h1 →
    fsets h1 !! flagSet cmd = Some fs →
    fs_args fs = arg0 :: args' →
    subCommands cmd !! arg0 = Some subCommand →
    cs !! subCommand = Some sub →
    VisitAll_Var (flagSet sub) (VisitAll fs) h1 = Done tt h2 →
    descend cs (Config command args mws h)
               (Config subCommand args' (mws ++ middlewares sub) h2).

(** The nodes visited from one configuration to a later one. *)
Inductive walk (cs : gmap addr command) : list addr → config → config → Prop :=
| walk_here x : walk cs [at_node x] x x
| walk_down x y z p : descend cs x y → walk cs p y z → walk cs (at_node x :: p) x z.

(** The traversal stops: the flags parse and no positional token is left,
    or the first one names no child. *)
Inductive stops (cs : gmap addr command) : config → list string → hstate → Prop :=
| stops_at command cmd args mws h h1 fs :
    cs !! command = Some cmd →
    Parse (usage cs) (flagSet cmd) args h = Done None h1 →
    fsets h1 !! flagSet cmd = Some fs →
    match fs_args fs with
    | [] => True
    | arg0 :: _ => subCommands cmd !! arg0 = None
    end →
    stops cs (Config command args mws h) (fs_args fs) h1.

(** The flags [Parse] has read, one [parseOne] after the other, from one
    state of its loop to a later one. *)
Inductive flags_parsed (call : addr → M hstate unit) (f : addr) : hstate → hstate → Prop :=
| flags_parsed_none h : flags_parsed call f h h
| flags_parsed_one h h1 h2 :
    parseOne call f h = Done (true, None) h1 →
    flags_parsed call f h1 h2 →
    flags_parsed call f h h2.

End traversal.

(** The flag sets of the nodes of a path. *)
Definition path_flagSets (cs : gmap addr command) (p : list addr) : list addr :=
  omap (λ a, flagSet <$> cs !! a) p.

(** The chain of parents of a node: the nodes from the root down to it, each
    with its name. *)
Inductive ancestry (cs : gmap addr command) : addr → list (addr * string) → Prop :=
| ancestry_root c cmd :
    cs !! c = Some cmd → parent cmd = None → ancestry cs c [(c, name cmd)]
| ancestry_child c cmd p l :
    cs !! c = Some cmd → parent cmd = Some p → ancestry cs p l →
    ancestry cs c (l ++ [(c, name cmd)]).

(** A middleware that runs [pre], the handler it wraps, and, when that one
    returns, [post]. *)
Definition bracket (pre post : M hstate unit) : Middleware := λ next ctx f args,
  pre ;;;
  r <- next ctx f args ;;
  post ;;;
  ret r.

(** ** What the properties are stated with *)

(** A token that reads as the flag [n]: one or two minus signs, the name,
    and possibly [=] and a value. *)
Definition flag_token (double : bool) (n : string) (value : option string) : string :=
  (if double then "--" else "-") +:+ n +:+
  match value with
  | Some v => "=" +:+ v
  | None => ""
  end.

(** The middlewares of the nodes of a path, in the order of the path. *)
Definition path_middlewares (cs : gmap addr command) (p : list addr) : list Middleware :=
  concat ((λ a, from_option middlewares [] (cs !! a)) <$> p).

(** The handler inside the brackets of a list of middlewares, first one
    outermost. *)
Fixpoint bracketed (pps : list (M hstate unit * M hstate unit))
    (body : M hstate (option error)) : M hstate (option error) :=
  match pps with
  | [] => body
  | (pre, post) :: pps =>
      pre ;;;
      r <- bracketed pps body ;;
      post ;;;
      ret r
  end.

(** The text of the panic of [Var] on a name the flag set already has. *)
Definition redefined (fs : FlagSet) (n : string) : string :=
  if String.eqb (fs_name fs) "" then "flag redefined: " +:+ n
  else fs_name fs +:+ " flag redefined: " +:+ n.

(** The entry of a child in the usage text. *)
Definition child_entry (cs : gmap addr command) (x : string * addr) : string :=
  LF +:+ "  " +:+ x.1 +:+
  match cs !! x.2 with
  | Some subCommand =>
      if String.eqb (help subCommand) "" then "" else LF +:+ TAB +:+ help subCommand
  | None => ""
  end.

(** The usage text as its description reads: the usage line with the path,
    the options marker when there are flags, the subcommand marker when
    there are children; then the help, the flags, the children. *)
Definition usage_text `{GoRuntime} (cs : gmap addr command) (names : list string)
    (cmd : command) (fs : FlagSet) (vs : gmap addr Value) : string :=
  "Usage: " +:+ Join names " "
  +:+ (if bool_decide (formal fs = ∅) then "" else " [OPTIONS]")
  +:+ (if bool_decide (subCommands cmd = ∅) then ""
       else match handler cmd with
            | None => " COMMAND"
            | Some _ => " [COMMAND]"
            end)
  +:+ LF
  +:+ (if String.eqb (help cmd) "" then "" else LF +:+ help cmd +:+ LF)
  +:+ (if bool_decide (formal fs = ∅) then ""
       else LF +:+ "Options:" +:+ LF +:+ PrintDefaults_text (VisitAll fs) vs)
  +:+ (if bool_decide (subCommands cmd = ∅) then ""
       else LF +:+ "Subcommands:"
            +:+ foldr (λ x text, child_entry cs x +:+ text) ""
                  (range_order (subCommands cmd))).

Section rendering.
Context `{GoRuntime}.

(** The state in which [usage] leaves the flag set of the node: its
    output is the builder of the call. *)
Definition usage_state (f : addr) (fs : FlagSet) (h : hstate) : hstate :=
  set_fsets <[f := set_output (Some strings_Builder) fs]> h.

(** What [Execute] does once the traversal has stopped. *)
Definition finish (cs : gmap addr command) (ctx : Context) (c : addr)
    (cmd : command) (mws : list Middleware) (args' : list string)
    : M hstate (option error) :=
  match handler cmd with
  | None =>
      match args' with
      | arg0 :: _ =>
          SetOutput (flagSet cmd) os_Stderr ;;;
          fs <- deref_fs (flagSet cmd) ;;
          modify (Fprint (Output fs)
                    ("command provided but not defined: " +:+ arg0 +:+ LF)) ;;;
          usage cs c ;;;
          os_Exit 2
      | [] =>
          usage cs c ;;;
          os_Exit 0
      end
  | Some handler =>
      foldr (λ m k, m k) handler mws ctx (flagSet cmd) args'
  end.

End rendering.

(** ** What the builder keeps true of the tree *)

(** Every node has a finite chain of parents, and every child a node names
    is allocated. *)
Definition tree_ok (cs : gmap addr command) : Prop :=
  (∀ a cmd, cs !! a = Some cmd → ∃ l, ancestry cs a l) ∧
  (∀ a cmd n b, cs !! a = Some cmd → subCommands cmd !! n = Some b → is_Some (cs !! b)).

(** [cs'] has the nodes of [cs], with their names and parents. *)
Definition extends (cs cs' : gmap addr command) : Prop :=
  ∀ a cmd, cs !! a = Some cmd →
    ∃ cmd', cs' !! a = Some cmd' ∧ name cmd' = name cmd ∧ parent cmd' = parent cmd.

(** The states the builder reaches from the start of the process; a
    callback given to [Flags] allocates or updates flag sets, it removes
    none. *)
Inductive assembled : bstate → Prop :=
| assembled_start os_Args : assembled (init_state os_Args)
| assembled_Root os_Args s c s' :
    assembled s → Root os_Args s = Done c s' → assembled s'
| assembled_SubCommand c n s a s' :
    assembled s → SubCommand c n s = Done a s' → assembled s'
| assembled_Middlewares c mws s a s' :
    assembled s → Middlewares c mws s = Done a s' → assembled s'
| assembled_Action c hd s a s' :
    assembled s → Action c hd s = Done a s' → assembled s'
| assembled_Help c text s a s' :
    assembled s → Help c text s = Done a s' → assembled s'
| assembled_Flags c flags s a s' :
    assembled s → Flags c flags s = Done a s' →
    dom (fsets (heap s)) ⊆ dom (fsets (heap s')) → assembled s'.

(** What holds of every such state: the tree is well formed; the flag set
    of every node is allocated; a node with a parent has a flag set of its
    own, which is not [flag.CommandLine]; and a child is filed under its
    name, with the node as its parent. *)
Record well_built (s : bstate) : Prop := {
  wb_tree : tree_ok (cmds s);
  wb_CommandLine : is_Some (fsets (heap s) !! flag_CommandLine);
  wb_allocated : ∀ a cmd, cmds s !! a = Some cmd → is_Some (fsets (heap s) !! flagSet cmd);
  wb_child_flagSet : ∀ a cmd,
    cmds s !! a = Some cmd → is_Some (parent cmd) → flagSet cmd ≠ flag_CommandLine;
  wb_own_flagSet : ∀ a b ca cb,
    cmds s !! a = Some ca → cmds s !! b = Some cb → flagSet ca = flagSet cb →
    a = b ∨ flagSet ca = flag_CommandLine;
  wb_children : ∀ a cmd n b,
    cmds s !! a = Some cmd → subCommands cmd !! n = Some b →
    ∃ sub, cmds s !! b = Some sub ∧ parent sub = Some a ∧ name sub = n;
}.

Definition same_shape (c c' : command) : Prop :=
  name c' = name c ∧ parent c' = parent c ∧ subCommands c' = subCommands c
  ∧ flagSet c' = flagSet c.

(** ** Programs to run the engine on *)

Module Examples.

(** A runtime to run programs with: [%q] puts double quotes around the
    text, [PrintDefaults] prints each flag's name and usage, and [range]
    walks a map in the order of its listing. *)
Definition quote (s : string) : string :=
  String "034" (s +:+ String "034" EmptyString).

Definition print_flag (x : string * Flag) : string :=
  "  -" +:+ x.1 +:+ LF +:+ "    " +:+ TAB +:+ Usage x.2 +:+ LF.

Definition plain_runtime : GoRuntime :=
  {| strconv_Quote := quote;
     PrintDefaults_text := λ flags _, foldr (λ x acc, print_flag x +:+ acc) "" flags;
     range_order := map_to_list;
     range_order_perm := λ m, reflexivity (map_to_list m) |}.

#[local] Existing Instance plain_runtime.

Definition Println (text : string) : M hstate unit :=
  modify (Fprint os_Stdout (text +:+ LF)).

(** A handler that prints its arguments, and one that fails. *)
Definition PrintHandler : Handler := λ _ _ args,
  Println (Join args " ") ;;; ret None.

Definition FailHandler : Handler := λ _ _ _,
  ret (Some (errors_New "missing required flag: user")).

(** A middleware with logic before and after the handler it wraps. *)
Definition Around (tag : string) : Middleware := λ next ctx f args,
  Println (tag +:+ " before") ;;;
  r <- next ctx f args ;;
  Println (tag +:+ " after") ;;;
  ret r.

(** [examples/echo/main.go], before [Execute]; the root carries a
    middleware and so does [echo]. *)
Definition echo_main (os_Args : list string) : M bstate addr :=
  root <- Root os_Args ;;
  Flags root (FlagSet_Bool "verbose" false "Enable verbose output") ;;;
  Help root "Example command" ;;;
  Middlewares root [Around "root"] ;;;
  echo <- SubCommand root "echo" ;;
  Action echo (Some PrintHandler) ;;;
  Flags echo (FlagSet_String "case" "" "Case to use (upper, lower)") ;;;
  Middlewares echo [Around "echo"] ;;;
  ret root.

(** [examples/github/main.go], before [Execute]. *)
Definition github_main (os_Args : list string) : M bstate addr :=
  root <- Root os_Args ;;
  Flags root (FlagSet_Bool "verbose" false "Enable verbose output") ;;;
  Help root "Example command" ;;;
  repos <- SubCommand root "repos" ;;
  Help repos "Manage GitHub repositories" ;;;
  list <- SubCommand repos "list" ;;
  Action list (Some FailHandler) ;;;
  Flags list (FlagSet_String "user" "" "GitHub user") ;;;
  Help list "List repositories of a GitHub user" ;;;
  ret root.

(** Build with [main], then [Execute] on the root. *)
Definition run (main : list string → M bstate addr) (os_Args : list string)
    : outcome hstate (option error) :=
  match main os_Args (init_state os_Args) with
  | Done root s => Execute (cmds s) root context_Background os_Args (heap s)
  | Exit code s => Exit code (heap s)
  | Panic msg s => Panic msg (heap s)
  | Hang => Hang
  end.

Definition result_of {A} (o : outcome hstate A) : option (A + Z + string) :=
  match o with
  | Done a _ => Some (inl (inl a))
  | Exit code _ => Some (inl (inr code))
  | Panic msg _ => Some (inr msg)
  | Hang => None
  end.

Definition written_of {A} (o : outcome hstate A) : list (writer * string) :=
  match o with
  | Done _ h | Exit _ h | Panic _ h => written h
  | Hang => []
  end.

Definition no_command : command := mkCommand "" "" [] None ∅ 0 None.

Definition node (cs : gmap addr command) (a : addr) : command :=
  default no_command (cs !! a).

Definition flags_of (h : hstate) (f : addr) : FlagSet :=
  default (NewFlagSet "" ExitOnError) (fsets h !! f).

Definition built (main : list string → M bstate addr) (os_Args : list string) : bstate :=
  match main os_Args (init_state os_Args) with
  | Done _ s | Exit _ s | Panic _ s => s
  | Hang => init_state os_Args
  end.

Definition after {A} (m : M hstate A) (h : hstate) : hstate :=
  match m h with
  | Done _ h' | Exit _ h' | Panic _ h' => h'
  | Hang => h
  end.

Definition echo_args : list string :=
  ["prog"; "-verbose"; "echo"; "--case=upper"; "hello"; "world"].

Definition echo_cs : gmap addr command := cmds (built echo_main echo_args).

Definition echo_h : hstate := heap (built echo_main echo_args).

Definition echo_x : config :=
  Config 0 (tail echo_args) (middlewares (node echo_cs 0)) echo_h.

Definition echo_h1 : hstate :=
  after (Parse (usage echo_cs) (flagSet (node echo_cs 0)) (tail echo_args)) echo_h.

Definition echo_h2 : hstate :=
  after (VisitAll_Var (flagSet (node echo_cs 1)) (VisitAll (flags_of echo_h1 0))) echo_h1.

Definition echo_z : config :=
  Config 1 ["--case=upper"; "hello"; "world"]
    (middlewares (node echo_cs 0) ++ middlewares (node echo_cs 1)) echo_h2.

Definition echo_h3 : hstate :=
  after (Parse (usage echo_cs) (flagSet (node echo_cs 1)) (rest echo_z)) echo_h2.

(** The second program; its tree does not depend on the arguments after
    the name of the program. *)
Definition github_cs : gmap addr command := cmds (built github_main ["prog"]).

Definition github_h : hstate := heap (built github_main ["prog"]).

(** The configuration after the descent from [x] into [sub]. *)
Definition parsed (cs : gmap addr command) (x : config) : hstate :=
  after (Parse (usage cs) (flagSet (node cs (at_node x))) (rest x)) (st x).

Definition down (cs : gmap addr command) (x : config) (sub : addr) : config :=
  let fs := flags_of (parsed cs x) (flagSet (node cs (at_node x))) in
  Config sub (tail (fs_args fs)) (acc x ++ middlewares (node cs sub))
    (after (VisitAll_Var (flagSet (node cs sub)) (VisitAll fs)) (parsed cs x)).

Definition github_x (args : list string) : config :=
  Config 0 args (middlewares (node github_cs 0)) github_h.

(** The run [prog repos bogus]. *)
Definition bogus_x : config := github_x ["repos"; "bogus"].

Definition bogus_z : config := down github_cs bogus_x 1.

(** The run [prog repos list]. *)
Definition list_x : config := github_x ["repos"; "list"].

Definition list_y : config := down github_cs list_x 1.

Definition list_z : config := down github_cs list_y 2.

(** A program whose subcommand declares the flag of the root again. *)
Definition clash_main (os_Args : list string) : M bstate addr :=
  root <- Root os_Args ;;
  Flags root (FlagSet_Bool "verbose" false "Enable verbose output") ;;;
  echo <- SubCommand root "echo" ;;
  Action echo (Some PrintHandler) ;;;
  Flags echo (FlagSet_Bool "verbose" false "Echo the flags too") ;;;
  ret root.

Definition clash_cs : gmap addr command := cmds (built clash_main ["prog"]).

Definition clash_h : hstate := heap (built clash_main ["prog"]).

Definition clash_x : config := Config 0 ["echo"] (middlewares (node clash_cs 0)) clash_h.

(** A middleware that refuses: it does not call the handler it wraps. *)
Definition Deny : Middleware := λ _ _ _ _, ret (Some (errors_New "denied")).

(** A program whose subcommand is guarded by it. *)
Definition guard_main (os_Args : list string) : M bstate addr :=
  root <- Root os_Args ;;
  Middlewares root [Around "root"] ;;;
  echo <- SubCommand root "echo" ;;
  Action echo (Some PrintHandler) ;;;
  Middlewares echo [Deny; Around "echo"] ;;;
  ret root.

Definition guard_cs : gmap addr command := cmds (built guard_main ["prog"]).

Definition guard_h : hstate := heap (built guard_main ["prog"]).

Definition guard_x : config := Config 0 ["echo"; "hi"] (middlewares (node guard_cs 0)) guard_h.

Definition guard_z : config := down guard_cs guard_x 1.

(** The state the first program is in when its run has returned. *)
Definition echo_done : hstate :=
  after (Execute echo_cs 0 context_Background echo_args) echo_h.

Definition echo_again : hstate :=
  after (Parse (usage echo_cs) (flagSet (node echo_cs 0)) ["echo"]) echo_done.

(** A runtime whose [range] walks a map the other way round. *)
Definition reversed_runtime : GoRuntime :=
  {| strconv_Quote := quote;
     PrintDefaults_text := λ flags _, foldr (λ x acc, print_flag x +:+ acc) "" flags;
     range_order := λ m, reverse (map_to_list m);
     range_order_perm := λ m, reverse_Permutation (map_to_list m) |}.

(** The run [prog -verbose -x] of the first program: where [Parse] starts
    at the root, and where it stands once it has read [-verbose]. *)
Definition flag_x : config :=
  Config 0 ["-verbose"; "-x"] (middlewares (node echo_cs 0)) echo_h.

Definition flag_x_0 : hstate :=
  set_fsets <[0 := set_args ["-verbose"; "-x"] (set_parsed (flags_of echo_h 0))]> echo_h.

Definition flag_x_1 : hstate := after (parseOne (usage echo_cs) 0) flag_x_0.

End Examples.

(** * Proofs *)

Section monad_facts.
Context `{GoRuntime}.

Lemma bind_Done {S A B} (m : M S A) (k : A → M S B) s b s' :
  bind m k s = Done b s' → ∃ a s1, m s = Done a s1 ∧ k a s1 = Done b s'.
Proof. unfold bind. destruct (m s); try discriminate. eauto. Qed.

Lemma deref_fs_Done f h fs h1 :
  deref_fs f h = Done fs h1 → fsets h !! f = Some fs ∧ h1 = h.
Proof. unfold deref_fs. destruct (fsets h !! f); [|discriminate]. by intros [= -> ->]. Qed.

Lemma deref_val_Done v h x h1 :
  deref_val v h = Done x h1 → vals h !! v = Some x ∧ h1 = h.
Proof. unfold deref_val. destruct (vals h !! v); [|discriminate]. by intros [= -> ->]. Qed.

Lemma update_fs_Done f g h u h1 :
  update_fs f g h = Done u h1 →
  ∃ fs, fsets h !! f = Some fs ∧ h1 = set_fsets <[f := g fs]> h.
Proof. unfold update_fs. destruct (fsets h !! f); [|discriminate]. intros [= _ <-]. eauto. Qed.

Lemma apply_Set_Done v arg h err h1 :
  apply_Set v arg h = Done err h1 →
  ∃ x, vals h !! v = Some x ∧
       h1 = set_vals <[v := mkValue (IsBoolFlag x) (Value_Set x)
                              (Value_Set x (Value_String x) arg).1]> h ∧
       err = (Value_Set x (Value_String x) arg).2.
Proof.
  unfold apply_Set. intros Hb. apply bind_Done in Hb as (x & h2 & Hd & Hb).
  apply deref_val_Done in Hd as [Hv ->].
  destruct (Value_Set x (Value_String x) arg) as [new e] eqn:HS.
  unfold bind, modify, ret in Hb. simpl in Hb. injection Hb as <- <-.
  exists x. by rewrite HS.
Qed.

Lemma flag_at_insert h f g fs fs' n :
  fsets h !! f = Some fs → formal fs' = formal fs →
  flag_at (set_fsets <[f := fs']> h) g n = flag_at h g n.
Proof.
  intros Hf Hfm. unfold flag_at, set_fsets; simpl.
  destruct (decide (f = g)) as [->|Hne].
  - rewrite lookup_insert_eq, Hf. simpl. by rewrite Hfm.
  - by rewrite lookup_insert_ne.
Qed.

Lemma Args_insert h f fs' :
  Args (set_fsets <[f := fs']> h) f = fs_args fs'.
Proof. unfold Args, set_fsets; simpl. by rewrite lookup_insert_eq. Qed.

Lemma flag_at_fsets h h' :
  fsets h' = fsets h → ∀ g n, flag_at h' g n = flag_at h g n.
Proof. unfold flag_at. by intros ->. Qed.

End monad_facts.

Ltac inv_M :=
  repeat (match goal with
  | Hp : bind _ _ _ = Done _ _ |- _ => apply bind_Done in Hp as (? & ? & ? & ?)
  | Hp : deref_fs _ _ = Done _ _ |- _ => apply deref_fs_Done in Hp as [? ?]; subst
  | Hp : deref_val _ _ = Done _ _ |- _ => apply deref_val_Done in Hp as [? ?]; subst
  | Hp : update_fs _ _ _ = Done _ _ |- _ => apply update_fs_Done in Hp as (? & ? & ?); subst
  | Hp : apply_Set _ _ _ = Done _ _ |- _ => apply apply_Set_Done in Hp as (? & ? & ? & ?); subst
  | Hp : ret _ _ = Done _ _ |- _ => unfold ret in Hp; simplify_eq
  | Hp : panic _ _ = Done _ _ |- _ => discriminate Hp
  | Hp : os_Exit _ _ = Done _ _ |- _ => discriminate Hp
  | Hp : (match ?x with _ => _ end) _ = Done _ _ |- _ => destruct x eqn:?
  | Hp : (let '(_, _) := ?x in _) _ = Done _ _ |- _ => destruct x eqn:?
  | Hp : (if ?b then _ else _) _ = Done _ _ |- _ => destruct b eqn:?
  end; try discriminate).

Ltac parse_close f :=
  split;
  [ intros g n; unfold flag_at; simpl in *;
    destruct (decide (f = g)) as [<-|];
    simplify_map_eq; done
  | unfold Args; simpl in *; simplify_map_eq; simpl;
    repeat match goal with Hl : fs_args _ = _ |- _ => rewrite Hl end; simpl; lia ].

Section parse_facts.
Context `{GoRuntime}.

Lemma parseOne_Done call f h seen err h' :
  parseOne call f h = Done (seen, err) h' →
  seen = true ∨ err = None →
  (∀ g n, flag_at h' g n = flag_at h g n) ∧
  (length (Args h' f) + (if seen then 1 else 0) ≤ length (Args h f))%nat.
Proof.
  unfold parseOne. intros Hp Hor.
  inv_M.
  all: try (destruct Hor; discriminate).
  all: parse_close f.
Qed.

Lemma Parse_loop_Done fuel call f h h' :
  Parse_loop fuel call f h = Done None h' →
  (∀ g n, flag_at h' g n = flag_at h g n) ∧
  (length (Args h' f) ≤ length (Args h f))%nat.
Proof.
  revert h. induction fuel as [|fuel IH]; intros h Hp; [discriminate|].
  simpl in Hp. apply bind_Done in Hp as ([seen err] & h1 & Hone & Hp).
  destruct seen.
  - apply parseOne_Done in Hone as [Hfl Hlen]; [|by left].
    apply IH in Hp as [Hfl' Hlen']. split.
    + intros g n. by rewrite Hfl', Hfl.
    + lia.
  - destruct err as [e|].
    + inv_M.
    + apply parseOne_Done in Hone as [Hfl Hlen]; [|by right].
      unfold ret in Hp. simplify_eq. split; [done|lia].
Qed.

Lemma Parse_Done call f arguments h h' :
  Parse call f arguments h = Done None h' →
  (∀ g n, flag_at h' g n = flag_at h g n) ∧
  (length (Args h' f) ≤ length arguments)%nat.
Proof.
  unfold Parse. intros Hp. apply bind_Done in Hp as (? & h1 & Hu & Hp).
  apply update_fs_Done in Hu as (fs & Hf & ->).
  apply Parse_loop_Done in Hp as [Hfl Hlen]. split.
  - intros g n. rewrite Hfl. by eapply flag_at_insert.
  - by rewrite Args_insert in Hlen.
Qed.

Lemma Var_Done f v n u h r h' :
  Var f v n u h = Done r h' →
  flag_at h f n = None ∧
  (∃ x, vals h !! v = Some x ∧
        flag_at h' f n = Some (mkFlag u v (Value_String x))) ∧
  (∀ g m, g ≠ f ∨ m ≠ n → flag_at h' g m = flag_at h g m) ∧
  vals h' = vals h.
Proof.
  unfold Var. intros Hp. inv_M.
  all: (split; [by unfold flag_at; simplify_option_eq|]);
       (split; [eexists; split; [done|]; unfold flag_at; simpl; by simplify_map_eq|]);
       (split; [|done]);
       intros g m Hgm; unfold flag_at; simpl;
       (destruct (decide (f = g)) as [<-|]; [|by simplify_map_eq]);
       destruct Hgm as [?|?]; [done|]; by simplify_map_eq.
Qed.

Lemma VisitAll_Var_Done f flags h r h' :
  VisitAll_Var f flags h = Done r h' →
  (∀ m, m ∈ flags.*1 → flag_at h f m = None) ∧
  (∀ n fl, (n, fl) ∈ flags →
     ∃ fl', flag_at h' f n = Some fl' ∧ Value_of fl' = Value_of fl ∧ Usage fl' = Usage fl) ∧
  (∀ g m, g ≠ f ∨ m ∉ flags.*1 → flag_at h' g m = flag_at h g m) ∧
  vals h' = vals h.
Proof.
  revert h. induction flags as [|[n0 fl0] flags IH]; intros h Hp; simpl in Hp.
  - unfold ret in Hp. simplify_eq. split; [|split; [|done]].
    + intros m Hm. by apply elem_of_nil in Hm.
    + intros n fl Hin. by apply elem_of_nil in Hin.
  - apply bind_Done in Hp as (u0 & h1 & HV & Hp).
    apply Var_Done in HV as (Hnone & (x & Hx & Hn0) & Hframe & Hvals).
    apply IH in Hp as (Hfree & Hin & Hframe' & Hvals').
    assert (n0 ∉ flags.*1) as Hfresh.
    { intros Hdup. apply Hfree in Hdup. congruence. }
    split; [|split; [|split]].
    + intros m [->|Hm]%elem_of_cons; [done|].
      rewrite <- Hframe; [by apply Hfree|]. right. by intros ->.
    + intros n fl [Heq|Hm]%elem_of_cons.
      * simplify_eq. rewrite Hframe' by (by right). rewrite Hn0. eauto.
      * by apply Hin.
    + intros g m Hgm. rewrite Hframe', Hframe; [done| |].
      * destruct Hgm as [?|Hm]; [by left|right]. intros ->. apply Hm. simpl. left.
      * destruct Hgm as [?|Hm]; [by left|right]. intros Hm'. apply Hm. simpl. by right.
    + congruence.
Qed.

Lemma elem_of_VisitAll fs n fl :
  (n, fl) ∈ VisitAll fs ↔ formal fs !! n = Some fl.
Proof.
  unfold VisitAll. rewrite merge_sort_Permutation. apply elem_of_map_to_list.
Qed.

Lemma elem_of_VisitAll_names fs n :
  n ∈ (VisitAll fs).*1 ↔ is_Some (formal fs !! n).
Proof.
  rewrite list_elem_of_fmap. split.
  - intros ([n' fl] & -> & Hin). apply elem_of_VisitAll in Hin. eauto.
  - intros [fl Hfl]. exists (n, fl). split; [done|]. by apply elem_of_VisitAll.
Qed.

(** ** One descent, flag by flag *)

Lemma descend_present cs x y cx cy n fl :
  descend cs x y →
  cs !! at_node x = Some cx → cs !! at_node y = Some cy →
  flag_at (st x) (flagSet cx) n = Some fl →
  ∃ fl', flag_at (st y) (flagSet cy) n = Some fl' ∧
         Value_of fl' = Value_of fl ∧ Usage fl' = Usage fl.
Proof.
  intros Hd Hcx Hcy Hfl. destruct Hd; simpl in *. simplify_eq.
  match goal with HP : Parse _ _ _ _ = Done None _ |- _ =>
    apply Parse_Done in HP as [Hkeep _] end.
  match goal with HV : VisitAll_Var _ _ _ = Done _ _ |- _ =>
    apply VisitAll_Var_Done in HV as (_ & Hin & _ & _) end.
  apply Hin. apply elem_of_VisitAll.
  rewrite <- Hkeep in Hfl. unfold flag_at in Hfl. by simplify_option_eq.
Qed.

Lemma descend_frame cs x y cy g n :
  descend cs x y → cs !! at_node y = Some cy →
  g ≠ flagSet cy →
  flag_at (st y) g n = flag_at (st x) g n.
Proof.
  intros Hd Hcy Hg. destruct Hd; simpl in *. simplify_eq.
  match goal with HP : Parse _ _ _ _ = Done None _ |- _ =>
    apply Parse_Done in HP as [Hkeep _] end.
  match goal with HV : VisitAll_Var _ _ _ = Done _ _ |- _ =>
    apply VisitAll_Var_Done in HV as (_ & _ & Hframe & _) end.
  rewrite Hframe by (by left). apply Hkeep.
Qed.

Lemma descend_absent cs x y cx g n :
  descend cs x y → cs !! at_node x = Some cx →
  flag_at (st x) (flagSet cx) n = None →
  flag_at (st y) g n = flag_at (st x) g n.
Proof.
  intros Hd Hcx Hnone. destruct Hd; simpl in *. simplify_eq.
  match goal with HP : Parse _ _ _ _ = Done None _ |- _ =>
    apply Parse_Done in HP as [Hkeep _] end.
  match goal with HV : VisitAll_Var _ _ _ = Done _ _ |- _ =>
    apply VisitAll_Var_Done in HV as (_ & _ & Hframe & _) end.
  rewrite Hframe; [apply Hkeep|]. right.
  rewrite elem_of_VisitAll_names. rewrite <- Hkeep in Hnone.
  unfold flag_at in Hnone. simplify_option_eq. rewrite Hnone. by intros [? ?].
Qed.

End parse_facts.

Section loop_facts.
Context `{GoRuntime}.

Lemma descend_length cs x y :
  descend cs x y → (length (rest y) < length (rest x))%nat.
Proof.
  intros Hd. destruct Hd; simpl.
  match goal with HP : Parse _ _ _ _ = Done None _ |- _ =>
    apply Parse_Done in HP as [_ Hlen] end.
  unfold Args in Hlen. simplify_map_eq.
  match goal with Ha : fs_args _ = _ |- _ => rewrite Ha in Hlen end.
  simpl in Hlen. lia.
Qed.

Lemma Execute_loop_descend cs x y fuel :
  descend cs x y →
  Execute_loop (S fuel) cs (at_node x) (rest x) (acc x) (st x)
  = Execute_loop fuel cs (at_node y) (rest y) (acc y) (st y).
Proof.
  intros Hd. destruct Hd as [command cmd args mws h h1 fs arg0 args' subCommand sub h2
                             Hc HP Hfs Hargs Hsub Hs HV]; simpl.
  unfold bind at 1. unfold deref_cmd at 1. rewrite Hc.
  unfold bind at 1. rewrite HP.
  unfold bind at 1. unfold deref_fs at 1. rewrite Hfs, Hargs, Hsub.
  unfold bind at 1. unfold deref_cmd at 1. rewrite Hs.
  unfold bind at 1. by rewrite HV.
Qed.

Lemma Execute_loop_stops cs z args' h1 fuel :
  stops cs z args' h1 →
  Execute_loop (S fuel) cs (at_node z) (rest z) (acc z) (st z)
  = Done (at_node z, args', acc z) h1.
Proof.
  intros Hs. destruct Hs as [command cmd args mws h h1 fs Hc HP Hfs Hstop]; simpl.
  unfold bind at 1. unfold deref_cmd at 1. rewrite Hc.
  unfold bind at 1. rewrite HP.
  unfold bind at 1. unfold deref_fs at 1. rewrite Hfs.
  destruct (fs_args fs) as [|arg0 more]; [done|]. by rewrite Hstop.
Qed.

Lemma Execute_loop_walk cs p x z :
  walk cs p x z →
  ∀ fuel, (length (rest x) < fuel)%nat →
  ∃ fuel', (length (rest z) < fuel')%nat ∧
    Execute_loop fuel cs (at_node x) (rest x) (acc x) (st x)
    = Execute_loop fuel' cs (at_node z) (rest z) (acc z) (st z).
Proof.
  induction 1 as [x|x y z p Hd Hw IH]; intros fuel Hfuel; [by eauto|].
  destruct fuel as [|fuel]; [lia|].
  pose proof (descend_length _ _ _ Hd) as Hlen.
  destruct (IH fuel) as (fuel' & Hfuel' & Heq); [lia|].
  exists fuel'. split; [done|]. rewrite <- Heq. by apply Execute_loop_descend.
Qed.

Lemma Execute_loop_resolved cs p x z args' h1 fuel :
  walk cs p x z → stops cs z args' h1 →
  (length (rest x) < fuel)%nat →
  Execute_loop fuel cs (at_node x) (rest x) (acc x) (st x)
  = Done (at_node z, args', acc z) h1.
Proof.
  intros Hw Hs Hfuel.
  destruct (Execute_loop_walk _ _ _ _ Hw fuel Hfuel) as (fuel' & Hfuel' & ->).
  destruct fuel' as [|fuel']; [lia|]. by apply Execute_loop_stops.
Qed.

Lemma wrap_loop_take mws i hd :
  (i ≤ length mws)%nat →
  wrap_loop mws i hd = foldr (λ m k, m k) hd (take i mws).
Proof.
  revert hd. induction i as [|i IH]; intros hd Hi; [done|]. cbn [wrap_loop].
  destruct (mws !! i) as [m|] eqn:Hm.
  - rewrite IH by lia. erewrite take_S_r by done. by rewrite foldr_app.
  - apply lookup_ge_None in Hm. lia.
Qed.

Lemma wrap_loop_foldr mws hd :
  wrap_loop mws (length mws) hd = foldr (λ m k, m k) hd mws.
Proof. rewrite wrap_loop_take by done. by rewrite firstn_all. Qed.

Lemma Execute_resolved cs c root ctx arg0 args h p z cmd args' h1 :
  cs !! c = Some root →
  walk cs p (Config c args (middlewares root) h) z →
  stops cs z args' h1 →
  cs !! at_node z = Some cmd →
  Execute cs c ctx (arg0 :: args) h = finish cs ctx (at_node z) cmd (acc z) args' h1.
Proof.
  intros Hc Hw Hs Hz. unfold Execute.
  unfold bind at 1. unfold deref_cmd at 1. rewrite Hc.
  unfold bind at 1.
  rewrite (Execute_loop_resolved cs p (Config c args (middlewares root) h) z args' h1)
    by (simpl; done || lia).
  unfold bind at 1. unfold deref_cmd at 1. rewrite Hz.
  unfold finish. destruct (handler cmd); [|done]. by rewrite wrap_loop_foldr.
Qed.
End loop_facts.

Section usage_facts.
Context `{GoRuntime}.

Lemma append_assoc (a b c : string) : (a +:+ b) +:+ c = a +:+ (b +:+ c).
Proof.
  induction a as [|x a IH]; [done|].
  change (String x ((a +:+ b) +:+ c) = String x (a +:+ (b +:+ c))). by f_equal.
Qed.

Lemma append_nil_r (a : string) : a +:+ "" = a.
Proof.
  induction a as [|x a IH]; [done|].
  change (String x (a +:+ "") = String x a). by f_equal.
Qed.

Lemma ancestry_det cs c l1 l2 :
  ancestry cs c l1 → ancestry cs c l2 → l1 = l2.
Proof.
  intros H1. revert l2. induction H1 as [c cmd Hc Hp|c cmd p l Hc Hp Hl IH];
    intros l2 H2; inversion H2; simplify_eq; [done|].
  f_equal. by apply IH.
Qed.

Lemma ancestry_prefix cs c l a :
  ancestry cs c l → a ∈ l.*1 → ∃ l1 l2, l = (l1 ++ l2)%list ∧ ancestry cs a l1.
Proof.
  induction 1 as [c cmd Hc Hp|c cmd p l Hc Hp Hl IH]; intros Ha.
  - apply list_elem_of_singleton in Ha as ->. exists [(c, name cmd)], [].
    split; [done|]. by constructor.
  - rewrite fmap_app in Ha. apply elem_of_app in Ha as [Ha|Ha].
    + destruct (IH Ha) as (l1 & l2 & -> & Hl1).
      exists l1, (l2 ++ [(c, name cmd)]). by rewrite app_assoc.
    + apply list_elem_of_singleton in Ha as ->.
      exists (l ++ [(c, name cmd)]), []. rewrite app_nil_r. split; [done|].
      by econstructor.
Qed.

Lemma ancestry_NoDup cs c l : ancestry cs c l → NoDup l.*1.
Proof.
  induction 1 as [c cmd Hc Hp|c cmd p l Hc Hp Hl IH].
  - apply NoDup_singleton.
  - rewrite fmap_app. apply NoDup_app. split; [done|]. split; [|apply NoDup_singleton].
    intros a Ha Hac. apply list_elem_of_singleton in Hac as ->.
    destruct (ancestry_prefix _ _ _ _ Hl Ha) as (l1 & l2 & -> & Hl1).
    assert (ancestry cs c ((l1 ++ l2) ++ [(c, name cmd)])) as Hfull by by econstructor.
    pose proof (ancestry_det _ _ _ _ Hl1 Hfull) as Heq.
    apply (f_equal length) in Heq. rewrite !length_app in Heq. simpl in Heq. lia.
Qed.

Lemma ancestry_dom cs c l a : ancestry cs c l → a ∈ l.*1 → a ∈ dom cs.
Proof.
  induction 1 as [c cmd Hc Hp|c cmd p l Hc Hp Hl IH]; intros Ha.
  - apply list_elem_of_singleton in Ha as ->. by apply elem_of_dom.
  - rewrite fmap_app in Ha. apply elem_of_app in Ha as [Ha|Ha]; [by apply IH|].
    apply list_elem_of_singleton in Ha as ->. by apply elem_of_dom.
Qed.

Lemma ancestry_length cs c l : ancestry cs c l → (length l ≤ size cs)%nat.
Proof.
  intros Ha. rewrite <- (length_fmap fst l), <- size_dom.
  unfold size, set_size. simpl.
  apply submseteq_length, NoDup_submseteq; [by eapply ancestry_NoDup|].
  intros a Hin. apply elem_of_elements. by eapply ancestry_dom.
Qed.

Lemma fullCommand_loop_ancestry cs c l :
  ancestry cs c l →
  ∀ fuel fullCommand h, (length l ≤ fuel)%nat →
    fullCommand_loop fuel cs (Some c) fullCommand h = Done (l.*2 ++ fullCommand)%list h.
Proof.
  induction 1 as [c cmd Hc Hp|c cmd p l Hc Hp Hl IH]; intros fuel full h Hfuel.
  - destruct fuel as [|fuel]; [simpl in Hfuel; lia|]. simpl.
    unfold bind, deref_cmd. rewrite Hc, Hp. by destruct fuel.
  - rewrite length_app in Hfuel. simpl in Hfuel.
    destruct fuel as [|fuel]; [lia|]. simpl.
    unfold bind, deref_cmd. rewrite Hc, Hp.
    rewrite IH by lia. by rewrite fmap_app, <- app_assoc.
Qed.

Lemma usage_fullCommand cs c cmd l h :
  cs !! c = Some cmd → ancestry cs c l →
  fullCommand_loop (size cs) cs (parent cmd) [name cmd] h = Done l.*2 h.
Proof.
  intros Hc Ha. pose proof (ancestry_length _ _ _ Ha) as Hlen.
  inversion Ha as [c' cmd' Hc' Hp|c' cmd' p l' Hc' Hp Hl]; simplify_eq.
  - rewrite Hp. by destruct (size cs).
  - rewrite Hp. rewrite length_app in Hlen. simpl in Hlen.
    rewrite (fullCommand_loop_ancestry _ _ _ Hl) by lia. by rewrite fmap_app.
Qed.

Lemma subCommands_loop_entries cs children builder h :
  (∀ n a, (n, a) ∈ children → is_Some (cs !! a)) →
  subCommands_loop cs children builder h
  = Done (builder +:+ foldr (λ x text, child_entry cs x +:+ text) "" children) h.
Proof.
  revert builder. induction children as [|[n a] children IH]; intros builder Hall; simpl.
  - by rewrite append_nil_r.
  - destruct (Hall n a) as [sc Hsc]; [by left|].
    unfold bind, deref_cmd. rewrite Hsc.
    rewrite IH by (intros ???; eapply Hall; by right).
    f_equal. unfold child_entry. simpl. rewrite Hsc.
    destruct (String.eqb (help sc) ""); simpl; by rewrite ?append_assoc, ?append_nil_r.
Qed.

Lemma VisitAll_length fs : length (VisitAll fs) = size (formal fs).
Proof. unfold VisitAll. by rewrite merge_sort_Permutation, length_map_to_list. Qed.

Lemma size_pos_empty {A} (m : gmap string A) :
  (0 <? size m)%nat = negb (bool_decide (m = ∅)).
Proof.
  case_bool_decide as Hm.
  - subst. by rewrite map_size_empty.
  - apply map_size_non_empty_iff in Hm. simpl. apply Nat.ltb_lt. lia.
Qed.

Lemma usage_Done cs c cmd fs l h :
  cs !! c = Some cmd →
  fsets h !! flagSet cmd = Some fs →
  ancestry cs c l →
  (∀ n a, subCommands cmd !! n = Some a → is_Some (cs !! a)) →
  usage cs c h
  = Done tt (Fprint (Output fs) (usage_text cs l.*2 cmd fs (vals h) +:+ LF)
               (usage_state (flagSet cmd) fs h)).
Proof.
  intros Hc Hf Ha Hch. unfold usage.
  unfold bind at 1. unfold deref_cmd at 1. rewrite Hc.
  unfold bind at 1. unfold deref_fs at 1. rewrite Hf.
  unfold bind at 1. unfold SetOutput, update_fs. rewrite Hf.
  unfold bind at 1. rewrite (usage_fullCommand cs c cmd l) by done.
  unfold bind at 1. unfold get at 1.
  rewrite VisitAll_length, !size_pos_empty.
  unfold bind at 1.
  assert (∀ n a, (n, a) ∈ range_order (subCommands cmd) → is_Some (cs !! a)) as Hall.
  { intros n a Hin. rewrite range_order_perm in Hin.
    apply elem_of_map_to_list in Hin. eauto. }
  unfold usage_text, usage_state, modify.
  destruct (decide (subCommands cmd = ∅)) as [Hs|Hs];
    destruct (decide (formal fs = ∅)) as [Hfm|Hfm];
    repeat first
      [ rewrite (bool_decide_eq_true_2 (subCommands cmd = ∅)) by done
      | rewrite (bool_decide_eq_false_2 (subCommands cmd = ∅)) by done
      | rewrite (bool_decide_eq_true_2 (formal fs = ∅)) by done
      | rewrite (bool_decide_eq_false_2 (formal fs = ∅)) by done ];
    simpl; rewrite ?subCommands_loop_entries by done; unfold ret;
    do 2 f_equal;
    destruct (String.eqb (help cmd) ""); simpl;
    by rewrite ?append_assoc, ?append_nil_r.
Qed.
End usage_facts.

Section token_facts.
Context `{GoRuntime}.

Lemma cut_eq_value nt v :
  Contains_eq nt = false → cut_eq (nt +:+ "=" +:+ v) = Some (nt, v).
Proof.
  induction nt as [|c nt IH]; intros Hc; [done|].
  simpl in Hc. apply orb_false_elim in Hc as [Hc1 Hc2].
  change (cut_eq (String c (nt +:+ "=" +:+ v)) = Some (String c nt, v)).
  cbn [cut_eq]. by rewrite Hc1, IH.
Qed.

Lemma cut_eq_none nt :
  Contains_eq nt = false → cut_eq (nt +:+ "") = None.
Proof.
  induction nt as [|c nt IH]; intros Hc; [done|].
  simpl in Hc. apply orb_false_elim in Hc as [Hc1 Hc2].
  change (cut_eq (String c (nt +:+ "")) = None).
  cbn [cut_eq]. by rewrite Hc1, IH.
Qed.

Lemma valid_name_inv n :
  valid_name n = true →
  ∃ n0 nt, n = String n0 nt ∧ Ascii.eqb n0 "-" = false ∧
           Ascii.eqb n0 "=" = false ∧ Contains_eq nt = false.
Proof.
  unfold valid_name. intros Hv.
  apply andb_prop in Hv as [Hv Hc]. apply andb_prop in Hv as [He Hm].
  destruct n as [|n0 nt]; [done|]. exists n0, nt. simpl in *.
  apply negb_true_iff in Hm, Hc. apply orb_false_elim in Hc as [? ?]. done.
Qed.

(** An undeclared flag: [help] and [h] print the usage and report
    [ErrHelp]; any other name is an error printed before the usage. *)
Lemma parseOne_undeclared call f h fs double n value more :
  fsets h !! f = Some fs →
  fs_args fs = flag_token double n value :: more →
  valid_name n = true →
  formal fs !! n = None →
  parseOne call f h
  = (if String.eqb n "help" || String.eqb n "h" then
       FlagSet_usage call f ;;; ret (false, Some ErrHelp)
     else
       e <- failf call f ("flag provided but not defined: -" +:+ n) ;;
       ret (false, Some e)) (set_fsets <[f := set_args more fs]> h).
Proof.
  intros Hf Hargs Hv Hnone.
  destruct (valid_name_inv _ Hv) as (n0 & nt & -> & Hm & He & Hc).
  unfold parseOne. unfold bind at 1. unfold deref_fs at 1. rewrite Hf, Hargs.
  assert (∃ sfx, flag_token double (String n0 nt) value
                 = (if double then "--" else "-") +:+ String n0 (nt +:+ sfx)
                 ∧ cut_eq (nt +:+ sfx)
                   = match value with Some v => Some (nt, v) | None => None end
                 ∧ (value = None → sfx = "")) as (sfx & -> & Hcut & Hsfx).
  { destruct value as [v|].
    - exists ("=" +:+ v). split; [done|]. split; [by apply cut_eq_value|done].
    - exists "". split; [done|]. split; [by apply cut_eq_none|done]. }
  destruct double.
  - change ("--" +:+ String n0 (nt +:+ sfx))
      with (String "-" (String "-" (String n0 (nt +:+ sfx)))).
    cbn beta iota zeta.
    change (Ascii.eqb "-" "-") with true. cbn [negb andb].
    change (String.eqb (String n0 (nt +:+ sfx)) "") with false.
    cbn beta iota zeta. rewrite Hm, He. cbn [orb].
    unfold bind at 1. unfold update_fs at 1. rewrite Hf. rewrite Hcut.
    destruct value as [v|]; [by rewrite Hnone|].
    rewrite (Hsfx eq_refl), append_nil_r. by rewrite Hnone.
  - change ("-" +:+ String n0 (nt +:+ sfx))
      with (String "-" (String n0 (nt +:+ sfx))).
    cbn beta iota zeta.
    change (Ascii.eqb "-" "-") with true. cbn [negb]. rewrite Hm. cbn [andb].
    cbn beta iota zeta. rewrite Hm, He. cbn [orb].
    unfold bind at 1. unfold update_fs at 1. rewrite Hf. rewrite Hcut.
    destruct value as [v|]; [by rewrite Hnone|].
    rewrite (Hsfx eq_refl), append_nil_r. by rewrite Hnone.
Qed.

Lemma bind_eq {S A B} (m : M S A) (k : A → M S B) s a s' :
  m s = Done a s' → bind m k s = k a s'.
Proof. unfold bind. by intros ->. Qed.

Lemma deref_fs_eq f h fs : fsets h !! f = Some fs → deref_fs f h = Done fs h.
Proof. unfold deref_fs. by intros ->. Qed.

Lemma deref_val_eq v h x : vals h !! v = Some x → deref_val v h = Done x h.
Proof. unfold deref_val. by intros ->. Qed.

Lemma update_fs_eq f g h fs :
  fsets h !! f = Some fs → update_fs f g h = Done tt (set_fsets <[f := g fs]> h).
Proof. unfold update_fs. by intros ->. Qed.

Lemma apply_Set_eq v arg h x new err :
  vals h !! v = Some x → Value_Set x (Value_String x) arg = (new, err) →
  apply_Set v arg h
  = Done err (set_vals <[v := mkValue (IsBoolFlag x) (Value_Set x) new]> h).
Proof.
  intros Hx Hs. unfold apply_Set. rewrite (bind_eq _ _ _ _ _ (deref_val_eq _ _ _ Hx)).
  by rewrite Hs.
Qed.

(** A declared flag given as [-name=value] or [--name=value]: [Parse]
    hands the value to [Set] and keeps it when [Set] reports no error. *)
Lemma parseOne_sets call f h fs double n v more fl x new :
  fsets h !! f = Some fs →
  fs_args fs = flag_token double n (Some v) :: more →
  formal fs !! n = Some fl →
  valid_name n = true →
  vals h !! Value_of fl = Some x →
  Value_Set x (Value_String x) v = (new, None) →
  parseOne call f h
  = Done (true, None)
      (set_fsets <[f := set_actual (<[n := fl]> (actual fs)) (set_args more fs)]>
         (set_vals <[Value_of fl := mkValue (IsBoolFlag x) (Value_Set x) new]> h)).
Proof.
  intros Hf Hargs Hfl Hv Hx Hset.
  destruct (valid_name_inv _ Hv) as (n0 & nt & -> & Hm & He & Hc).
  pose proof (cut_eq_value nt v Hc) as Hcut.
  unfold parseOne. rewrite (bind_eq _ _ _ _ _ (deref_fs_eq _ _ _ Hf)), Hargs.
  assert (flag_token double (String n0 nt) (Some v)
          = (if double then "--" else "-") +:+ String n0 (nt +:+ "=" +:+ v)) as -> by done.
  assert (∀ h1 : hstate,
    fsets h1 !! f = Some (set_args more fs) → vals h1 = vals h →
    ∀ k, k = set_fsets <[f := set_actual (<[String n0 nt := fl]> (actual fs))
                                 (set_args more fs)]>
               (set_vals <[Value_of fl := mkValue (IsBoolFlag x) (Value_Set x) new]> h1) →
    (v0 <- deref_val (Value_of fl) ;;
     r <- (if IsBoolFlag v0 then
             err <- apply_Set (Value_of fl) v ;;
             match err with
             | Some err =>
                 e <- failf call f ("invalid boolean value " +:+ strconv_Quote v
                                    +:+ " for -" +:+ String n0 nt +:+ ": " +:+ err) ;;
                 ret (Some e)
             | None => ret None
             end
           else
             value <- ret v ;;
             err <- apply_Set (Value_of fl) value ;;
             match err with
             | Some err =>
                 e <- failf call f ("invalid value " +:+ strconv_Quote value
                                    +:+ " for flag -" +:+ String n0 nt +:+ ": " +:+ err) ;;
                 ret (Some e)
             | None => ret None
             end) ;;
     match r with
     | Some e => ret (false, Some e)
     | None =>
         fs' <- deref_fs f ;;
         update_fs f (set_actual (<[String n0 nt := fl]> (actual fs'))) ;;;
         ret (true, None)
     end) h1 = Done (true, None) k) as Hfound.
  { intros h1 Hf1 Hv1 k ->. rewrite <- Hv1 in Hx.
    erewrite bind_eq by (by apply deref_val_eq).
    destruct (IsBoolFlag x) eqn:Hb.
    - erewrite bind_eq.
      2:{ erewrite bind_eq by (by eapply apply_Set_eq). reflexivity. }
      cbn beta iota.
      erewrite bind_eq by (apply deref_fs_eq; cbn; exact Hf1).
      erewrite bind_eq by (eapply update_fs_eq; cbn; exact Hf1).
      by rewrite Hb.
    - erewrite bind_eq.
      2:{ erewrite bind_eq by reflexivity.
          erewrite bind_eq by (by eapply apply_Set_eq). reflexivity. }
      cbn beta iota.
      erewrite bind_eq by (apply deref_fs_eq; cbn; exact Hf1).
      erewrite bind_eq by (eapply update_fs_eq; cbn; exact Hf1).
      by rewrite Hb. }
  assert (set_fsets <[f := set_actual (<[String n0 nt := fl]> (actual fs)) (set_args more fs)]>
            (set_vals <[Value_of fl := mkValue (IsBoolFlag x) (Value_Set x) new]>
               (set_fsets <[f := set_args more fs]> h))
          = set_fsets <[f := set_actual (<[String n0 nt := fl]> (actual fs)) (set_args more fs)]>
              (set_vals <[Value_of fl := mkValue (IsBoolFlag x) (Value_Set x) new]> h))
    as Hstate.
  { unfold set_fsets, set_vals; cbn. f_equal. by rewrite insert_insert_eq. }
  destruct double.
  - change ("--" +:+ String n0 (nt +:+ "=" +:+ v))
      with (String "-" (String "-" (String n0 (nt +:+ "=" +:+ v)))).
    cbn beta iota zeta.
    change (Ascii.eqb "-" "-") with true. cbn [negb andb].
    change (String.eqb (String n0 (nt +:+ "=" +:+ v)) "") with false.
    cbn beta iota zeta. rewrite Hm, He. cbn [orb].
    rewrite (bind_eq _ _ _ _ _ (update_fs_eq _ _ _ _ Hf)). rewrite Hcut, Hfl.
    apply Hfound; [cbn; by rewrite lookup_insert_eq|done|by rewrite Hstate].
  - change ("-" +:+ String n0 (nt +:+ "=" +:+ v))
      with (String "-" (String n0 (nt +:+ "=" +:+ v))).
    cbn beta iota zeta.
    change (Ascii.eqb "-" "-") with true. cbn [negb]. rewrite Hm. cbn [andb].
    cbn beta iota zeta. rewrite Hm, He. cbn [orb].
    rewrite (bind_eq _ _ _ _ _ (update_fs_eq _ _ _ _ Hf)). rewrite Hcut, Hfl.
    apply Hfound; [cbn; by rewrite lookup_insert_eq|done|by rewrite Hstate].
Qed.

Lemma Parse_sets call f h fs double n v fl x new :
  fsets h !! f = Some fs →
  formal fs !! n = Some fl →
  valid_name n = true →
  vals h !! Value_of fl = Some x →
  Value_Set x (Value_String x) v = (new, None) →
  ∃ h', Parse call f [flag_token double n (Some v)] h = Done None h' ∧
        vals h' = <[Value_of fl := mkValue (IsBoolFlag x) (Value_Set x) new]> (vals h) ∧
        (∀ g m, flag_at h' g m = flag_at h g m).
Proof.
  intros Hf Hfl Hv Hx Hset.
  eexists. split; [|split].
  - unfold Parse. rewrite (bind_eq _ _ _ _ _ (update_fs_eq _ _ _ _ Hf)).
    cbn [length Parse_loop].
    erewrite bind_eq.
    2:{ eapply (parseOne_sets call f _
                  (set_args [flag_token double n (Some v)] (set_parsed fs))
                  double n v [] fl x new);
          [cbn; by rewrite lookup_insert_eq|done..]. }
    cbn beta iota.
    erewrite bind_eq.
    2:{ unfold parseOne. erewrite bind_eq.
        2:{ apply deref_fs_eq. cbn. by rewrite lookup_insert_eq. }
        cbn. reflexivity. }
    reflexivity.
  - done.
  - intros g m. unfold flag_at. cbn.
    destruct (decide (f = g)) as [<-|]; by simplify_map_eq.
Qed.
(** [Set] on a declared flag, whatever its name. *)
Lemma FlagSet_Set_sets pos f h fs n v fl x new :
  fsets h !! f = Some fs →
  formal fs !! n = Some fl →
  vals h !! Value_of fl = Some x →
  Value_Set x (Value_String x) v = (new, None) →
  ∃ h', FlagSet_Set pos f n v h = Done None h' ∧
        vals h' = <[Value_of fl := mkValue (IsBoolFlag x) (Value_Set x) new]> (vals h) ∧
        (∀ g m, flag_at h' g m = flag_at h g m).
Proof.
  intros Hf Hfl Hx Hset. eexists. split; [|split].
  - unfold FlagSet_Set. rewrite (bind_eq _ _ _ _ _ (deref_fs_eq _ _ _ Hf)), Hfl.
    erewrite bind_eq by (by eapply apply_Set_eq).
    cbn beta iota.
    erewrite bind_eq by (apply deref_fs_eq; cbn; exact Hf).
    erewrite bind_eq by (eapply update_fs_eq; cbn; exact Hf).
    reflexivity.
  - done.
  - intros g m. unfold flag_at. cbn.
    destruct (decide (f = g)) as [<-|]; by simplify_map_eq.
Qed.
End token_facts.

Section walk_facts.
Context `{GoRuntime}.

Lemma descend_nodes cs x y :
  descend cs x y → is_Some (cs !! at_node x) ∧ is_Some (cs !! at_node y).
Proof. intros Hd. destruct Hd; simpl; eauto. Qed.

Lemma walk_acc cs p x z :
  walk cs p x z → acc z = acc x ++ path_middlewares cs (tail p).
Proof.
  induction 1 as [x|x y z p Hd Hw IH]; simpl.
  - by rewrite app_nil_r.
  - rewrite IH. destruct Hw as [y|y y' z p Hd' Hw]; simpl.
    + destruct Hd; simpl. unfold path_middlewares. simpl.
      match goal with Hs : cs !! _ = Some sub |- _ => rewrite Hs end.
      simpl. by rewrite !app_nil_r.
    + destruct Hd; simpl. unfold path_middlewares. simpl.
      match goal with Hs : cs !! _ = Some sub |- _ => rewrite Hs end.
      simpl. by rewrite app_assoc.
Qed.

Lemma Lookup_String_flag_at h f n fl :
  flag_at h f n = Some fl →
  Lookup_String h f n = Value_String <$> vals h !! Value_of fl.
Proof.
  unfold flag_at, Lookup_String. intros Hfl.
  destruct (fsets h !! f) as [fs|]; [|done]. simpl in *. rewrite Hfl. simpl.
  by destruct (vals h !! Value_of fl).
Qed.

Lemma walk_head cs p x z : walk cs p x z → head p = Some (at_node x).
Proof. by destruct 1. Qed.

Lemma walk_present cs p x z cx cz n fl :
  walk cs p x z →
  cs !! at_node x = Some cx → cs !! at_node z = Some cz →
  flag_at (st x) (flagSet cx) n = Some fl →
  ∃ fl', flag_at (st z) (flagSet cz) n = Some fl' ∧
         Value_of fl' = Value_of fl ∧ Usage fl' = Usage fl.
Proof.
  intros Hw. revert cx fl. induction Hw as [x|x y z p Hd Hw IH]; intros cx fl Hx Hz Hfl.
  - simplify_eq. eauto.
  - destruct (descend_nodes _ _ _ Hd) as [_ [cy Hy]].
    destruct (descend_present _ _ _ _ _ _ _ Hd Hx Hy Hfl) as (fl1 & Hfl1 & Hv1 & Hu1).
    destruct (IH _ _ Hy Hz Hfl1) as (fl2 & Hfl2 & Hv2 & Hu2).
    exists fl2. split; [done|]. split; congruence.
Qed.

Lemma walk_frame cs p x z g n :
  walk cs p x z →
  g ∉ path_flagSets cs (tail p) →
  flag_at (st z) g n = flag_at (st x) g n.
Proof.
  induction 1 as [x|x y z p Hd Hw IH]; intros Hg; [done|].
  destruct (descend_nodes _ _ _ Hd) as [_ [cy Hy]].
  pose proof (walk_head _ _ _ _ Hw) as Hhd.
  destruct p as [|a p]; [done|]. simpl in Hhd. simplify_eq.
  simpl in Hg. unfold path_flagSets in Hg. simpl in Hg. rewrite Hy in Hg. simpl in Hg.
  apply not_elem_of_cons in Hg as [Hne Hg].
  rewrite IH by done. by eapply descend_frame.
Qed.

Lemma walk_absent cs p x z n :
  walk cs p x z →
  (∀ a ca, a ∈ p → cs !! a = Some ca → flag_at (st x) (flagSet ca) n = None) →
  ∀ g, flag_at (st z) g n = flag_at (st x) g n.
Proof.
  induction 1 as [x|x y z p Hd Hw IH]; intros Hall g; [done|].
  destruct (descend_nodes _ _ _ Hd) as [[cx Hx] _].
  assert (∀ g, flag_at (st y) g n = flag_at (st x) g n) as Hstep.
  { intros g'. eapply descend_absent; [done..|]. eapply Hall; [by left|done]. }
  rewrite IH, Hstep; [done|].
  intros a ca Ha Hca. rewrite Hstep. eapply Hall; [by right|done].
Qed.
End walk_facts.

Section fuel.
Context `{GoRuntime}.

(** The fuel [Parse] gives its loop is enough: more changes nothing. *)
Lemma Parse_loop_enough_fuel call f fuel : ∀ h,
  (length (Args h f) < fuel)%nat →
  Parse_loop fuel call f h = Parse_loop (S (length (Args h f))) call f h.
Proof.
  induction fuel as [fuel IH] using lt_wf_ind. intros h Hfuel.
  destruct fuel as [|fuel]; [lia|]. cbn [Parse_loop].
  unfold bind.
  destruct (parseOne call f h) as [[seen err] h1| | |] eqn:Hone; try done.
  destruct seen; [|done].
  apply parseOne_Done in Hone as [_ Hlen]; [|by left].
  rewrite (IH fuel) by lia.
  by rewrite (IH (length (Args h f))) by lia.
Qed.

(** So is the fuel [Execute] gives its loop. *)
Lemma Execute_loop_enough_fuel cs fuel : ∀ command args mws h,
  (length args < fuel)%nat →
  Execute_loop fuel cs command args mws h
  = Execute_loop (S (length args)) cs command args mws h.
Proof.
  induction fuel as [fuel IH] using lt_wf_ind. intros command args mws h Hfuel.
  destruct fuel as [|fuel]; [lia|]. cbn [Execute_loop].
  unfold bind. destruct (deref_cmd cs command h) as [cmd h0| | |]; try done.
  destruct (Parse (usage cs) (flagSet cmd) args h0) as [[e|] h1| | |] eqn:HP; try done.
  apply Parse_Done in HP as [_ Hlen].
  unfold deref_fs. unfold Args in Hlen.
  destruct (fsets h1 !! flagSet cmd) as [fs|]; [|done].
  destruct (fs_args fs) as [|a0 more]; [done|].
  destruct (subCommands cmd !! a0) as [sub|]; [|done].
  destruct (deref_cmd cs sub h1) as [subcmd h2| | |]; try done.
  destruct (VisitAll_Var (flagSet subcmd) (VisitAll fs) h2) as [u h3| | |]; try done.
  simpl in Hlen.
  rewrite (IH fuel) by lia.
  by rewrite (IH (length args)) by lia.
Qed.

(** Whatever the loop of [Execute] resolves, it reached by descents and
    stopped there. *)
Lemma deref_cmd_Done {S} cs c cmd (s s' : S) :
  deref_cmd cs c s = Done cmd s' → cs !! c = Some cmd ∧ s' = s.
Proof. unfold deref_cmd. destruct (cs !! c); [|done]. by intros [= -> ->]. Qed.

Lemma Execute_loop_inv cs fuel : ∀ x command args' mws h',
  Execute_loop fuel cs (at_node x) (rest x) (acc x) (st x) = Done (command, args', mws) h' →
  ∃ p z, walk cs p x z ∧ stops cs z args' h' ∧ at_node z = command ∧ acc z = mws.
Proof.
  induction fuel as [|fuel IH]; intros [c args mws0 h] command args' mws h' HE; [done|].
  cbn [Execute_loop at_node rest acc st] in HE.
  apply bind_Done in HE as (cmd & h0 & Hd & HE).
  apply deref_cmd_Done in Hd as [Hc ->].
  apply bind_Done in HE as (err & h1 & HP & HE).
  destruct err as [e|]; [done|].
  apply bind_Done in HE as (fs & h2 & Hfs & HE).
  apply deref_fs_Done in Hfs as [Hfs ->].
  destruct (fs_args fs) as [|a0 more] eqn:Hargs.
  - unfold ret in HE. injection HE as <- <- <- <-.
    exists [c], (Config c args mws0 h). split; [apply (walk_here cs (Config c args mws0 h))|].
    split; [|done]. rewrite <- Hargs. econstructor; [done..|]. by rewrite Hargs.
  - destruct (subCommands cmd !! a0) as [sub|] eqn:Hsub.
    + apply bind_Done in HE as (subcmd & h2 & Hs & HE).
      apply deref_cmd_Done in Hs as [Hs ->].
      apply bind_Done in HE as ([] & h3 & HV & HE).
      destruct (IH (Config sub more (mws0 ++ middlewares subcmd) h3) _ _ _ _ HE)
        as (p & z & Hw & Hst & Hn & Ha).
      exists (c :: p), z. split; [|done].
      apply (walk_down cs (Config c args mws0 h)
               (Config sub more (mws0 ++ middlewares subcmd) h3) z p); [|done].
      by econstructor.
    + unfold ret in HE. injection HE as <- <- <- <-.
      exists [c], (Config c args mws0 h). split; [apply (walk_here cs (Config c args mws0 h))|].
      split; [|done]. rewrite <- Hargs. econstructor; [done..|]. by rewrite Hargs, Hsub.
Qed.
End fuel.

Section dispatch_properties.
Context `{GoRuntime}.

Lemma bracketed_foldr pps hd ctx f args h :
  foldr (λ m k, m k) hd ((λ pp, bracket pp.1 pp.2) <$> pps) ctx f args h
  = bracketed pps (hd ctx f args) h.
Proof.
  revert h. induction pps as [|[pre post] pps IH]; intros h; [done|].
  simpl. unfold bracket at 1. unfold bind at 1 4.
  destruct (pre h) as [[] h1| | |]; try done.
  unfold bind at 1 3. by rewrite IH.
Qed.

(** C1: [Execute] resolves the node the traversal reaches: when the
    traversal from the root reaches a node and stops there with the
    positional tokens [args'], and the node has a handler, [Execute] is the
    call of that handler, inside the accumulated middlewares, on the node's
    flag set and exactly [args'] (with no middleware on the way, the call
    of the handler itself); and whatever the loop of [Execute] resolves was
    reached by such a traversal. *)
Theorem Execute_dispatches cs c root ctx arg0 args h :
  cs !! c = Some root →
  (∀ p z cmd hd args' h1,
     walk cs p (Config c args (middlewares root) h) z →
     stops cs z args' h1 →
     cs !! at_node z = Some cmd →
     handler cmd = Some hd →
     Execute cs c ctx (arg0 :: args) h
     = foldr (λ m k, m k) hd (acc z) ctx (flagSet cmd) args' h1 ∧
     (acc z = [] → Execute cs c ctx (arg0 :: args) h = hd ctx (flagSet cmd) args' h1)) ∧
  (∀ command args' mws h1,
     Execute_loop (S (length args)) cs c args (middlewares root) h
     = Done (command, args', mws) h1 →
     ∃ p z, walk cs p (Config c args (middlewares root) h) z ∧
            stops cs z args' h1 ∧ at_node z = command ∧ acc z = mws).
Proof.
  intros Hc. split.
  - intros p z cmd hd args' h1 Hw Hs Hz Hhd.
    rewrite (Execute_resolved cs c root ctx arg0 args h p z cmd args' h1) by done.
    unfold finish. rewrite Hhd. split; [done|]. by intros ->.
  - intros command args' mws h1 HE.
    by apply (Execute_loop_inv cs (S (length args)) (Config c args (middlewares root) h)).
Qed.

(** C3: the accumulated middlewares are those of the nodes of the path,
    root first; the handler is wrapped by the last one first, so that the
    first one is outermost; for middlewares with logic before and after,
    the logic before runs from the root's to the node's, then the handler,
    then the logic after from the node's back to the root's. *)
Theorem middlewares_root_outermost cs c root ctx arg0 args h p z cmd hd args' h1 :
  cs !! c = Some root →
  walk cs p (Config c args (middlewares root) h) z →
  stops cs z args' h1 →
  cs !! at_node z = Some cmd →
  handler cmd = Some hd →
  acc z = path_middlewares cs p ∧
  wrap_loop (acc z) (length (acc z)) hd = foldr (λ m k, m k) hd (path_middlewares cs p) ∧
  Execute cs c ctx (arg0 :: args) h
  = foldr (λ m k, m k) hd (path_middlewares cs p) ctx (flagSet cmd) args' h1 ∧
  (∀ pps, path_middlewares cs p = (λ pp, bracket pp.1 pp.2) <$> pps →
     Execute cs c ctx (arg0 :: args) h
     = bracketed pps (hd ctx (flagSet cmd) args') h1).
Proof.
  intros Hc Hw Hs Hz Hhd.
  assert (acc z = path_middlewares cs p) as Hacc.
  { rewrite (walk_acc _ _ _ _ Hw). simpl.
    pose proof (walk_head _ _ _ _ Hw) as Hhead. simpl in Hhead.
    destruct p as [|a p]; [done|]. simpl in Hhead. simplify_eq.
    unfold path_middlewares. simpl. by rewrite Hc. }
  assert (Execute cs c ctx (arg0 :: args) h
          = foldr (λ m k, m k) hd (path_middlewares cs p) ctx (flagSet cmd) args' h1) as HE.
  { rewrite (Execute_resolved cs c root ctx arg0 args h p z cmd args' h1) by done.
    unfold finish. by rewrite Hhd, Hacc. }
  split; [done|]. split; [by rewrite wrap_loop_foldr, Hacc|]. split; [done|].
  intros pps Hpps. rewrite HE, Hpps. apply bracketed_foldr.
Qed.

Lemma usage_text_formal cs names cmd fs fs' vs :
  formal fs' = formal fs →
  usage_text cs names cmd fs' vs = usage_text cs names cmd fs vs.
Proof. intros Hfm. unfold usage_text, VisitAll. by rewrite Hfm. Qed.

(** C4: when the resolved node has no handler, [Execute] prints the usage
    on the flag set's output and exits with status 0 if no positional
    token is left; otherwise it prints, on standard error, that the
    command is not defined, then the usage, and exits with status 2. *)
Theorem router_exits cs c root ctx arg0 args h p z cmd args' h1 fs l :
  cs !! c = Some root →
  walk cs p (Config c args (middlewares root) h) z →
  stops cs z args' h1 →
  cs !! at_node z = Some cmd →
  handler cmd = None →
  fsets h1 !! flagSet cmd = Some fs →
  ancestry cs (at_node z) l →
  (∀ n a, subCommands cmd !! n = Some a → is_Some (cs !! a)) →
  ∃ hf,
    Execute cs c ctx (arg0 :: args) h
    = Exit (match args' with [] => 0 | _ :: _ => 2 end) hf ∧
    written hf
    = written h1 ++
      match args' with
      | [] => [(Output fs, usage_text cs l.*2 cmd fs (vals h1) +:+ LF)]
      | arg :: _ =>
          [(os_Stderr, "command provided but not defined: " +:+ arg +:+ LF);
           (os_Stderr, usage_text cs l.*2 cmd fs (vals h1) +:+ LF)]
      end.
Proof.
  intros Hc Hw Hs Hz Hhd Hfs Hanc Hch.
  rewrite (Execute_resolved cs c root ctx arg0 args h p z cmd args' h1) by done.
  unfold finish. rewrite Hhd. destruct args' as [|arg more].
  - erewrite bind_eq by (by eapply usage_Done). eexists. split; [done|]. done.
  - unfold SetOutput.
    erewrite bind_eq by (by eapply update_fs_eq).
    erewrite bind_eq by (apply deref_fs_eq; cbn; by rewrite lookup_insert_eq).
    erewrite bind_eq by done.
    erewrite bind_eq.
    2:{ eapply (usage_Done cs (at_node z) cmd (set_output (Some os_Stderr) fs) l);
          [done|cbn; by rewrite lookup_insert_eq|done..]. }
    eexists. split; [done|]. cbn.
    rewrite (usage_text_formal _ _ _ fs) by done. by rewrite <- app_assoc.
Qed.

(** C6: when the resolved node has a handler, an error the composed
    handler returns is what [Execute] returns, in the state the handler
    left: nothing is printed or changed after it. *)
Theorem handler_error_is_returned cs c root ctx arg0 args h p z cmd hd args' h1 e h2 :
  cs !! c = Some root →
  walk cs p (Config c args (middlewares root) h) z →
  stops cs z args' h1 →
  cs !! at_node z = Some cmd →
  handler cmd = Some hd →
  wrap_loop (acc z) (length (acc z)) hd ctx (flagSet cmd) args' h1 = Done (Some e) h2 →
  Execute cs c ctx (arg0 :: args) h = Done (Some e) h2.
Proof.
  intros Hc Hw Hs Hz Hhd Hrun.
  rewrite (Execute_resolved cs c root ctx arg0 args h p z cmd args' h1) by done.
  unfold finish. rewrite Hhd. by rewrite <- wrap_loop_foldr.
Qed.

(** C7: [usage] writes, on the output the flag set had, the usage line
    with the names from the root to the node joined by spaces, the
    options marker when the flag set is not empty and the subcommand
    marker when there are children, required without a handler and
    optional with one; then the help, the flags as [PrintDefaults] prints
    them, and each child with its help. *)
Theorem usage_renders cs c cmd fs l h :
  cs !! c = Some cmd →
  fsets h !! flagSet cmd = Some fs →
  ancestry cs c l →
  (∀ n a, subCommands cmd !! n = Some a → is_Some (cs !! a)) →
  ∃ h', usage cs c h = Done tt h' ∧
        written h' = written h ++ [(Output fs, usage_text cs l.*2 cmd fs (vals h) +:+ LF)] ∧
        vals h' = vals h ∧
        (∀ g n, flag_at h' g n = flag_at h g n).
Proof.
  intros Hc Hf Ha Hch. eexists. split; [by eapply usage_Done|].
  split; [done|]. split; [done|].
  intros g n. unfold flag_at, usage_state. cbn.
  destruct (decide (flagSet cmd = g)) as [<-|]; by simplify_map_eq.
Qed.
End dispatch_properties.

Section parse_errors.
Context `{GoRuntime}.

Lemma bind_Exit {S A B} (m : M S A) (k : A → M S B) s code s' :
  m s = Exit code s' → bind m k s = Exit code s'.
Proof. unfold bind. by intros ->. Qed.

Lemma bind_Panic {S A B} (m : M S A) (k : A → M S B) s msg s' :
  m s = Panic msg s' → bind m k s = Panic msg s'.
Proof. unfold bind. by intros ->. Qed.

Lemma deref_cmd_eq {S} cs c cmd (s : S) :
  cs !! c = Some cmd → deref_cmd cs c s = Done cmd s.
Proof. unfold deref_cmd. by intros ->. Qed.

(** When [Parse] does not come back without an error at a node the
    traversal reaches, [Execute] ends as [Parse] did, and exits with status
    2 on a returned error. *)
Lemma Execute_parse_failure cs c root ctx arg0 args h p z cmd o :
  cs !! c = Some root →
  walk cs p (Config c args (middlewares root) h) z →
  cs !! at_node z = Some cmd →
  Parse (usage cs) (flagSet cmd) (rest z) (st z) = o →
  (∀ h1, o ≠ Done None h1) →
  Execute cs c ctx (arg0 :: args) h
  = match o with
    | Done _ h1 => Exit 2 h1
    | Exit code h1 => Exit code h1
    | Panic msg h1 => Panic msg h1
    | Hang => Hang
    end.
Proof.
  intros Hc Hw Hz HP Ho.
  unfold Execute. rewrite (bind_eq _ _ _ _ _ (deref_cmd_eq cs c root h Hc)).
  destruct (Execute_loop_walk _ _ _ _ Hw (S (length args))) as (fuel & Hfuel & Heq);
    [simpl; lia|].
  cbn [at_node rest acc st] in Heq. unfold bind at 1. rewrite Heq.
  destruct fuel as [|fuel]; [lia|]. cbn [Execute_loop].
  rewrite (bind_eq _ _ _ _ _ (deref_cmd_eq cs _ cmd _ Hz)).
  unfold bind at 1. rewrite HP.
  destruct o as [[e|] h1| | |]; try done. by destruct (Ho h1).
Qed.

End parse_errors.

Section collisions.
Context `{GoRuntime}.

Lemma Var_redefined f v n u h fs x :
  fsets h !! f = Some fs →
  HasPrefix_minus n = false → Contains_eq n = false →
  vals h !! v = Some x →
  is_Some (formal fs !! n) →
  Var f v n u h = Panic (redefined fs n) (Fprint (Output fs) (redefined fs n +:+ LF) h).
Proof.
  intros Hf Hm He Hx [fl Hfl]. unfold Var.
  rewrite (bind_eq _ _ _ _ _ (deref_fs_eq _ _ _ Hf)). rewrite Hm, He.
  erewrite bind_eq by reflexivity.
  rewrite (bind_eq _ _ _ _ _ (deref_val_eq _ _ _ Hx)). rewrite Hfl.
  unfold FlagSet_sprintf.
  erewrite bind_eq.
  2:{ rewrite (bind_eq _ _ _ _ _ (deref_fs_eq _ _ _ Hf)).
      erewrite bind_eq by reflexivity. reflexivity. }
  done.
Qed.

Lemma Var_registers f v n u h fs x :
  fsets h !! f = Some fs →
  HasPrefix_minus n = false → Contains_eq n = false →
  vals h !! v = Some x →
  formal fs !! n = None →
  undef fs !! n = None →
  Var f v n u h
  = Done tt (set_fsets <[f := set_formal (<[n := mkFlag u v (Value_String x)]> (formal fs)) fs]> h).
Proof.
  intros Hf Hm He Hx Hfl Hu. unfold Var.
  rewrite (bind_eq _ _ _ _ _ (deref_fs_eq _ _ _ Hf)). rewrite Hm, He.
  erewrite bind_eq by reflexivity.
  rewrite (bind_eq _ _ _ _ _ (deref_val_eq _ _ _ Hx)). rewrite Hfl, Hu.
  by apply update_fs_eq.
Qed.

Lemma VisitAll_Var_redefined f flags : ∀ h fs,
  fsets h !! f = Some fs →
  undef fs = ∅ →
  NoDup flags.*1 →
  (∀ m fl, (m, fl) ∈ flags →
     HasPrefix_minus m = false ∧ Contains_eq m = false ∧ is_Some (vals h !! Value_of fl)) →
  (∃ m, m ∈ flags.*1 ∧ is_Some (formal fs !! m)) →
  ∃ m h', m ∈ flags.*1 ∧ is_Some (formal fs !! m) ∧
          VisitAll_Var f flags h = Panic (redefined fs m) h'.
Proof.
  induction flags as [|[n0 fl0] flags IH]; intros h fs Hf Hu Hnd Hok (m & Hm & Hcol).
  { by apply elem_of_nil in Hm. }
  destruct (Hok n0 fl0) as (Hmin & Heq & [x Hx]); [by left|].
  cbn [VisitAll_Var].
  destruct (formal fs !! n0) as [fl|] eqn:Hn0.
  - exists n0. eexists. split; [by left|]. split; [by rewrite Hn0|].
    apply bind_Panic. eapply Var_redefined; [done..|by rewrite Hn0].
  - rewrite fmap_cons in Hnd. apply NoDup_cons in Hnd as [Hfresh Hnd].
    assert (m ∈ flags.*1) as Hm'.
    { rewrite fmap_cons in Hm. apply elem_of_cons in Hm as [->|?]; [|done].
      simpl in Hcol. rewrite Hn0 in Hcol. by destruct Hcol. }
    erewrite bind_eq by (eapply Var_registers; by rewrite ?Hu).
    set (fs1 := set_formal (<[n0 := mkFlag (Usage fl0) (Value_of fl0) (Value_String x)]>
                              (formal fs)) fs).
    destruct (IH (set_fsets <[f := fs1]> h) fs1) as (m1 & h' & Hm1 & Hcol1 & Hp).
    + cbn. by rewrite lookup_insert_eq.
    + done.
    + done.
    + intros m2 fl2 Hin. cbn. apply Hok. by right.
    + exists m. split; [done|]. cbn. rewrite lookup_insert_ne; [done|].
      intros ->. by apply Hfresh.
    + exists m1, h'. split; [by right|]. split; [|done].
      cbn in Hcol1. rewrite lookup_insert_ne in Hcol1; [done|].
      intros ->. by apply Hfresh.
Qed.

Lemma VisitAll_NoDup fs : NoDup (VisitAll fs).*1.
Proof.
  unfold VisitAll. rewrite merge_sort_Permutation. apply NoDup_fst_map_to_list.
Qed.

(** C8: when the child named by the first positional token has, in its
    own flag set, a name the node's flag set also has, the registration
    of that name in the child panics, and so does [Execute]. *)
Theorem duplicate_flag_panics cs c root ctx arg0 args h p z cmd h1 fs tok more
    subCommand sub cfs n :
  cs !! c = Some root →
  walk cs p (Config c args (middlewares root) h) z →
  cs !! at_node z = Some cmd →
  Parse (usage cs) (flagSet cmd) (rest z) (st z) = Done None h1 →
  fsets h1 !! flagSet cmd = Some fs →
  fs_args fs = tok :: more →
  subCommands cmd !! tok = Some subCommand →
  cs !! subCommand = Some sub →
  fsets h1 !! flagSet sub = Some cfs →
  is_Some (formal fs !! n) →
  is_Some (formal cfs !! n) →
  (∀ m fl, formal fs !! m = Some fl →
     HasPrefix_minus m = false ∧ Contains_eq m = false ∧ is_Some (vals h1 !! Value_of fl)) →
  undef cfs = ∅ →
  ∃ m h',
    is_Some (formal fs !! m) ∧ is_Some (formal cfs !! m) ∧
    Execute cs c ctx (arg0 :: args) h = Panic (redefined cfs m) h'.
Proof.
  intros Hc Hw Hz HP Hfs Hargs Hsub Hs Hcfs Hn Hcn Hok Hu.
  destruct (VisitAll_Var_redefined (flagSet sub) (VisitAll fs) h1 cfs)
    as (m & h' & Hm & Hcm & Hpanic); [done|done|apply VisitAll_NoDup| |..].
  { intros m fl Hin. apply Hok. by apply elem_of_VisitAll. }
  { exists n. split; [by apply elem_of_VisitAll_names|done]. }
  exists m, h'. split; [by apply elem_of_VisitAll_names|]. split; [done|].
  unfold Execute. rewrite (bind_eq _ _ _ _ _ (deref_cmd_eq cs c root h Hc)).
  destruct (Execute_loop_walk _ _ _ _ Hw (S (length args))) as (fuel & Hfuel & Heq);
    [simpl; lia|].
  cbn [at_node rest acc st] in Heq. apply bind_Panic. rewrite Heq.
  destruct fuel as [|fuel]; [lia|]. cbn [Execute_loop].
  rewrite (bind_eq _ _ _ _ _ (deref_cmd_eq cs _ cmd _ Hz)).
  rewrite (bind_eq _ _ _ _ _ HP).
  rewrite (bind_eq _ _ _ _ _ (deref_fs_eq _ _ _ Hfs)).
  rewrite Hargs, Hsub.
  rewrite (bind_eq _ _ _ _ _ (deref_cmd_eq cs _ sub _ Hs)).
  by apply bind_Panic.
Qed.

Lemma walk_last cs p x z : walk cs p x z → last p = Some (at_node z).
Proof.
  induction 1 as [x|x y z p Hd Hw IH]; [done|].
  destruct p as [|b p]; [done|]. by rewrite last_cons_cons.
Qed.

End collisions.

(** C9: a second [SubCommand] with a name already in use returns the
    address of a new node, which takes the place of the earlier child under
    that name: no handler, no middlewares, no children, no help, and a new,
    empty flag set; the earlier child and what was configured on it stay
    where they were, out of reach from the parent. *)
Theorem SubCommand_replaces c n s cmd a1 :
cmds s !! c = Some cmd →
subCommands cmd !! n = Some a1 →
is_Some (cmds s !! a1) →
∃ a2 f2 s',
  SubCommand c n s = Done a2 s' ∧
  a2 ≠ a1 ∧ cmds s !! a2 = None ∧ fsets (heap s) !! f2 = None ∧
  (subCommands <$> cmds s' !! c) = Some (<[n := a2]> (subCommands cmd)) ∧
  cmds s' !! a2 = Some (mkCommand n "" [] None ∅ f2 (Some c)) ∧
  fsets (heap s') !! f2 = Some (set_Usage (Some a2) (NewFlagSet n ExitOnError)) ∧
  (a1 ≠ c → cmds s' !! a1 = cmds s !! a1).
Proof.
intros Hc Hn [c1 Ha1].
pose proof (is_fresh (dom (cmds s))) as Hfresh.
pose proof (is_fresh (dom (fsets (heap s)))) as Hffresh.
apply not_elem_of_dom in Hfresh. apply not_elem_of_dom in Hffresh.
assert (fresh (dom (cmds s)) ≠ a1) as Hne by congruence.
assert (fresh (dom (cmds s)) ≠ c) as Hnec by congruence.
eexists _, _, _. unfold SubCommand. rewrite Hc.
split; [reflexivity|]. split; [done|]. split; [done|]. split; [done|].
cbn. split; [|split; [|split]].
- rewrite lookup_insert_ne by done. by rewrite lookup_insert_eq.
- by rewrite lookup_insert_eq.
- by rewrite lookup_insert_eq.
- intros Hca. by rewrite !lookup_insert_ne.
Qed.


(** ** The builder keeps the tree well formed *)

Lemma ancestry_extends cs cs' a l :
  extends cs cs' → ancestry cs a l → ancestry cs' a l.
Proof.
  intros Hext. induction 1 as [c cmd Hc Hp|c cmd p l Hc Hp Hl IH].
  - destruct (Hext _ _ Hc) as (cmd' & Hc' & Hn & Hp'). rewrite <- Hn.
    apply ancestry_root; [done|by rewrite Hp'].
  - destruct (Hext _ _ Hc) as (cmd' & Hc' & Hn & Hp'). rewrite <- Hn.
    eapply ancestry_child; [done|by rewrite Hp'|done].
Qed.

Lemma tree_ok_empty : tree_ok ∅.
Proof. split; intros a cmd; by rewrite lookup_empty. Qed.

Lemma update_cmd_ok c g s u s' :
  (∀ cmd, name (g cmd) = name cmd ∧ parent (g cmd) = parent cmd
          ∧ subCommands (g cmd) = subCommands cmd) →
  tree_ok (cmds s) → update_cmd c g s = Done u s' → tree_ok (cmds s').
Proof.
  intros Hg [Hanc Hch]. unfold update_cmd.
  destruct (cmds s !! c) as [cmd|] eqn:Hc; [|done]. intros [= _ <-]. cbn.
  assert (extends (cmds s) (<[c := g cmd]> (cmds s))) as Hext.
  { intros a ca Ha. destruct (decide (c = a)) as [->|Hne].
    - rewrite lookup_insert_eq. rewrite Hc in Ha. injection Ha as <-.
      exists (g cmd). by destruct (Hg cmd) as (? & ? & ?).
    - rewrite lookup_insert_ne by done. eauto. }
  split.
  - intros a ca Ha.
    assert (∃ ca0, cmds s !! a = Some ca0) as [ca0 Ha0].
    { destruct (decide (c = a)) as [->|Hne]; [eauto|].
      rewrite lookup_insert_ne in Ha by done. eauto. }
    destruct (Hanc _ _ Ha0) as [l Hl]. exists l. by eapply ancestry_extends.
  - intros a ca n b Ha Hn.
    assert (is_Some (cmds s !! b)) as [cb Hb].
    { destruct (decide (c = a)) as [->|Hne].
      - rewrite lookup_insert_eq in Ha. injection Ha as <-.
        destruct (Hg cmd) as (_ & _ & Hsub). rewrite Hsub in Hn. by eapply Hch.
      - rewrite lookup_insert_ne in Ha by done. by eapply Hch. }
    destruct (Hext _ _ Hb) as (cb' & Hb' & _). eauto.
Qed.

Lemma Root_ok os_Args s c s' :
  tree_ok (cmds s) → Root os_Args s = Done c s' → tree_ok (cmds s').
Proof.
  intros [Hanc Hch]. unfold Root. destruct os_Args as [|arg0 more]; [done|].
  pose proof (is_fresh (dom (cmds s))) as Hfresh. apply not_elem_of_dom in Hfresh.
  set (c0 := fresh (dom (cmds s))) in *.
  unfold bind, lift, update_fs. cbn.
  destruct (fsets (heap s) !! flag_CommandLine); [|done]. intros [= <- <-]. cbn.
  assert (extends (cmds s) (<[c0 := mkCommand arg0 "" [] None ∅ flag_CommandLine None]> (cmds s)))
    as Hext.
  { intros a ca Ha. rewrite lookup_insert_ne by congruence. eauto. }
  split.
  - intros a ca Ha. destruct (decide (c0 = a)) as [<-|Hne].
    + rewrite lookup_insert_eq in Ha. simplify_eq. eexists.
      apply ancestry_root; [by rewrite lookup_insert_eq|done].
    + rewrite lookup_insert_ne in Ha by done.
      destruct (Hanc _ _ Ha) as [l Hl]. exists l. by eapply ancestry_extends.
  - intros a ca n b Ha Hn. destruct (decide (c0 = a)) as [<-|Hne].
    + rewrite lookup_insert_eq in Ha. by simplify_eq.
    + rewrite lookup_insert_ne in Ha by done.
      destruct (Hch _ _ _ _ Ha Hn) as [cb Hb].
      destruct (Hext _ _ Hb) as (cb' & Hb' & _). eauto.
Qed.

Lemma SubCommand_ok c n s a s' :
  tree_ok (cmds s) → SubCommand c n s = Done a s' → tree_ok (cmds s').
Proof.
  intros [Hanc Hch]. unfold SubCommand.
  destruct (cmds s !! c) as [pc|] eqn:Hc; [|done].
  pose proof (is_fresh (dom (cmds s))) as Hfresh. apply not_elem_of_dom in Hfresh.
  set (a0 := fresh (dom (cmds s))) in *.
  intros [= <- <-]. cbn.
  assert (a0 ≠ c) as Hac by congruence.
  set (cs' := <[a0 := _]> (<[c := _]> (cmds s))).
  assert (extends (cmds s) cs') as Hext.
  { intros b cb Hb. unfold cs'. rewrite lookup_insert_ne by congruence.
    destruct (decide (c = b)) as [->|Hne].
    - rewrite lookup_insert_eq. simplify_eq. eauto.
    - rewrite lookup_insert_ne by done. eauto. }
  split.
  - intros b cb Hb. destruct (decide (a0 = b)) as [<-|Hne].
    + unfold cs' in Hb. rewrite lookup_insert_eq in Hb. simplify_eq.
      destruct (Hanc _ _ Hc) as [l Hl]. eexists.
      eapply ancestry_child; [by unfold cs'; rewrite lookup_insert_eq|done|].
      by eapply ancestry_extends.
    + assert (∃ cb0, cmds s !! b = Some cb0) as [cb0 Hb0].
      { unfold cs' in Hb. rewrite lookup_insert_ne in Hb by done.
        destruct (decide (c = b)) as [->|Hne']; [eauto|].
        rewrite lookup_insert_ne in Hb by done. eauto. }
      destruct (Hanc _ _ Hb0) as [l Hl]. exists l. by eapply ancestry_extends.
  - intros b cb m d Hb Hm. unfold cs' in Hb.
    destruct (decide (a0 = b)) as [<-|Hne].
    + rewrite lookup_insert_eq in Hb. by simplify_eq.
    + rewrite lookup_insert_ne in Hb by done.
      destruct (decide (c = b)) as [<-|Hne'].
      * rewrite lookup_insert_eq in Hb. simplify_eq. cbn in Hm.
        destruct (decide (n = m)) as [<-|Hnm].
        -- rewrite lookup_insert_eq in Hm. simplify_eq. unfold cs'.
           rewrite lookup_insert_eq. eauto.
        -- rewrite lookup_insert_ne in Hm by done.
           destruct (Hch _ _ _ _ Hc Hm) as [cd Hd].
           destruct (Hext _ _ Hd) as (cd' & Hd' & _). eauto.
      * rewrite lookup_insert_ne in Hb by done.
        destruct (Hch _ _ _ _ Hb Hm) as [cd Hd].
        destruct (Hext _ _ Hd) as (cd' & Hd' & _). eauto.
Qed.

Lemma Middlewares_ok c mws s a s' :
  tree_ok (cmds s) → Middlewares c mws s = Done a s' → tree_ok (cmds s').
Proof.
  intros Hok. unfold Middlewares, bind.
  destruct (update_cmd c _ s) as [u s1| | |] eqn:Hu; try done. intros [= _ <-].
  eapply update_cmd_ok; [|done|exact Hu]. by intros cmd.
Qed.

Lemma Action_ok c hd s a s' :
  tree_ok (cmds s) → Action c hd s = Done a s' → tree_ok (cmds s').
Proof.
  intros Hok. unfold Action, bind.
  destruct (update_cmd c _ s) as [u s1| | |] eqn:Hu; try done. intros [= _ <-].
  eapply update_cmd_ok; [|done|exact Hu]. by intros cmd.
Qed.

Lemma Help_ok c text s a s' :
  tree_ok (cmds s) → Help c text s = Done a s' → tree_ok (cmds s').
Proof.
  intros Hok. unfold Help, bind.
  destruct (update_cmd c _ s) as [u s1| | |] eqn:Hu; try done. intros [= _ <-].
  eapply update_cmd_ok; [|done|exact Hu]. by intros cmd.
Qed.

Lemma Flags_ok c flags s a s' :
  tree_ok (cmds s) → Flags c flags s = Done a s' → tree_ok (cmds s').
Proof.
  intros Hok. unfold Flags, bind, get, deref_cmd, lift.
  destruct (cmds s !! c) as [cmd|]; [|done].
  destruct (flags (flagSet cmd) (heap s)); try done. by intros [= _ <-].
Qed.

(** ** How the calls of the builder compose *)

Section builder_algebra.

(** X1: two calls of [Middlewares] on a node are one call with the two
    lists appended, whether the node is there or not. *)
Theorem Middlewares_append c m1 m2 s :
  (Middlewares c m1 ;;; Middlewares c m2) s = Middlewares c (m1 ++ m2) s.
Proof.
  unfold Middlewares, bind, update_cmd, ret.
  destruct (cmds s !! c) as [cmd|] eqn:Hc; [|done]. cbn.
  rewrite lookup_insert_eq. cbn. rewrite insert_insert_eq.
  unfold set_middlewares; cbn. by rewrite app_assoc.
Qed.


(** X3: on one node, [Help], [Action] and [Middlewares] can be called in any
    order: each writes a field of its own. *)
Theorem configuration_order_is_free c t hd mws s :
  (Help c t ;;; Action c hd) s = (Action c hd ;;; Help c t) s ∧
  (Help c t ;;; Middlewares c mws) s = (Middlewares c mws ;;; Help c t) s ∧
  (Action c hd ;;; Middlewares c mws) s = (Middlewares c mws ;;; Action c hd) s.
Proof.
  unfold Action, Help, Middlewares, bind, update_cmd, ret.
  destruct (cmds s !! c) as [cmd|] eqn:Hc; [|done]. cbn.
  rewrite !lookup_insert_eq. cbn. by rewrite !insert_insert_eq.
Qed.

End builder_algebra.

(** ** What a traversal leaves untouched *)

Section quiet_facts.
Context `{GoRuntime}.

Lemma parseOne_quiet call f h seen err h' :
  parseOne call f h = Done (seen, err) h' →
  seen = true ∨ err = None →
  written h' = written h ∧ Args h' f `suffix_of` Args h f.
Proof.
  unfold parseOne. intros Hp Hor.
  inv_M.
  all: try (destruct Hor; discriminate).
  all: split; [done|].
  all: unfold Args; simpl in *; simplify_map_eq; simpl;
       repeat match goal with Hl : fs_args _ = _ |- _ => rewrite Hl end.
  all: try done.
  all: try (by apply suffix_cons_r).
  all: try (by do 2 apply suffix_cons_r).
Qed.

Lemma Parse_loop_quiet fuel call f h h' :
  Parse_loop fuel call f h = Done None h' →
  written h' = written h ∧ Args h' f `suffix_of` Args h f.
Proof.
  revert h. induction fuel as [|fuel IH]; intros h Hp; [discriminate|].
  simpl in Hp. apply bind_Done in Hp as ([seen err] & h1 & Hone & Hp).
  destruct seen.
  - apply parseOne_quiet in Hone as [Hw Hs]; [|by left].
    apply IH in Hp as [Hw' Hs']. split; [congruence|by etrans].
  - destruct err as [e|].
    + inv_M.
    + apply parseOne_quiet in Hone as [Hw Hs]; [|by right].
      unfold ret in Hp. by simplify_eq.
Qed.

Lemma Parse_quiet call f arguments h h' :
  Parse call f arguments h = Done None h' →
  written h' = written h ∧ Args h' f `suffix_of` arguments.
Proof.
  unfold Parse. intros Hp. apply bind_Done in Hp as (? & h1 & Hu & Hp).
  apply update_fs_Done in Hu as (fs & Hf & ->).
  apply Parse_loop_quiet in Hp as [Hw Hs]. split; [done|].
  by rewrite Args_insert in Hs.
Qed.

Lemma Var_quiet f v n u h r h' :
  Var f v n u h = Done r h' → written h' = written h.
Proof. unfold Var. intros Hp. by inv_M. Qed.

Lemma VisitAll_Var_quiet f flags h r h' :
  VisitAll_Var f flags h = Done r h' → written h' = written h.
Proof.
  revert h. induction flags as [|[n0 fl0] flags IH]; intros h Hp; simpl in Hp.
  - unfold ret in Hp. by simplify_eq.
  - apply bind_Done in Hp as (u0 & h1 & HV & Hp).
    apply Var_quiet in HV. apply IH in Hp. congruence.
Qed.

Lemma descend_quiet cs x y :
  descend cs x y →
  written (st y) = written (st x) ∧ ∃ tok, (tok :: rest y) `suffix_of` rest x.
Proof.
  intros Hd. destruct Hd as [command cmd args mws h h1 fs arg0 args' subCommand sub h2
                             Hc HP Hfs Hargs Hsub Hs HV]; simpl.
  apply Parse_quiet in HP as [Hw Hsuf]. apply VisitAll_Var_quiet in HV.
  split; [congruence|]. exists arg0.
  unfold Args in Hsuf. by rewrite Hfs, Hargs in Hsuf.
Qed.

Lemma stops_quiet cs z args' h1 :
  stops cs z args' h1 → written h1 = written (st z) ∧ args' `suffix_of` rest z.
Proof.
  intros Hs. destruct Hs as [command cmd args mws h h1 fs Hc HP Hfs Hstop]; simpl.
  apply Parse_quiet in HP as [Hw Hsuf]. split; [done|].
  unfold Args in Hsuf. by rewrite Hfs in Hsuf.
Qed.

Lemma walk_quiet cs p x z :
  walk cs p x z →
  written (st z) = written (st x) ∧ rest z `suffix_of` rest x ∧
  (length p + length (rest z) ≤ S (length (rest x)))%nat.
Proof.
  induction 1 as [x|x y z p Hd Hw (IHw & IHs & IHl)]; [simpl; split; [done|split; [done|lia]]|].
  destruct (descend_quiet _ _ _ Hd) as (Hwr & tok & Hsuf).
  split; [congruence|]. split.
  - etrans; [exact IHs|]. etrans; [|exact Hsuf]. by apply suffix_cons_r.
  - apply suffix_length in Hsuf. simpl in *. lia.
Qed.

End quiet_facts.

(** ** What holds of every tree the builder makes *)

Section builder_invariant.

Lemma well_built_start os_Args : well_built (init_state os_Args).
Proof.
  split; cbn.
  - apply tree_ok_empty.
  - by rewrite lookup_insert_eq.
  - intros a cmd. by rewrite lookup_empty.
  - intros a cmd. by rewrite lookup_empty.
  - intros a b ca cb. by rewrite lookup_empty.
  - intros a cmd n b. by rewrite lookup_empty.
Qed.

Lemma well_built_same_shape s s' :
  tree_ok (cmds s') →
  (∀ a ca', cmds s' !! a = Some ca' → ∃ ca, cmds s !! a = Some ca ∧ same_shape ca ca') →
  (∀ a ca, cmds s !! a = Some ca → ∃ ca', cmds s' !! a = Some ca' ∧ same_shape ca ca') →
  dom (fsets (heap s)) ⊆ dom (fsets (heap s')) →
  well_built s → well_built s'.
Proof.
  intros Htree Hback Hforth Hdom [_ HCL Hal Hcf Hown Hch].
  assert (∀ f, is_Some (fsets (heap s) !! f) → is_Some (fsets (heap s') !! f)) as Hmono.
  { intros f Hf. apply elem_of_dom. apply Hdom. by apply elem_of_dom. }
  split; [done|by apply Hmono|..].
  - intros a ca' Ha. destruct (Hback _ _ Ha) as (ca & Ha0 & _ & _ & _ & ->).
    apply Hmono. by eapply Hal.
  - intros a ca' Ha Hp. destruct (Hback _ _ Ha) as (ca & Ha0 & _ & Hpar & _ & ->).
    rewrite Hpar in Hp. by eapply Hcf.
  - intros a b ca' cb' Ha Hb Heq.
    destruct (Hback _ _ Ha) as (ca & Ha0 & _ & _ & _ & Hfa).
    destruct (Hback _ _ Hb) as (cb & Hb0 & _ & _ & _ & Hfb).
    rewrite Hfa. rewrite Hfa, Hfb in Heq. by eapply Hown.
  - intros a ca' n b Ha Hn.
    destruct (Hback _ _ Ha) as (ca & Ha0 & _ & _ & Hsub & _). rewrite Hsub in Hn.
    destruct (Hch _ _ _ _ Ha0 Hn) as (sub & Hb & Hp & Hname).
    destruct (Hforth _ _ Hb) as (sub' & Hb' & Hn' & Hp' & _).
    exists sub'. split; [done|]. split; congruence.
Qed.

Lemma update_cmd_well_built c g s u s' :
  (∀ cmd, same_shape cmd (g cmd)) →
  well_built s → update_cmd c g s = Done u s' → well_built s'.
Proof.
  intros Hg Hwb Hu.
  assert (tree_ok (cmds s')) as Htree.
  { eapply update_cmd_ok; [|apply Hwb|exact Hu].
    intros cmd. by destruct (Hg cmd) as (? & ? & ? & ?). }
  revert Hu. unfold update_cmd.
  destruct (cmds s !! c) as [cmd|] eqn:Hc; [|done]. intros [= _ <-].
  apply (well_built_same_shape s); [done| | |done|done]; cbn.
  - intros a ca' Ha. destruct (decide (c = a)) as [->|Hne].
    + rewrite lookup_insert_eq in Ha. simplify_eq. eauto.
    + rewrite lookup_insert_ne in Ha by done. exists ca'. by split.
  - intros a ca Ha. destruct (decide (c = a)) as [->|Hne].
    + rewrite lookup_insert_eq. simplify_eq. eauto.
    + rewrite lookup_insert_ne by done. exists ca. by split.
Qed.

Lemma Middlewares_well_built c mws s a s' :
  well_built s → Middlewares c mws s = Done a s' → well_built s'.
Proof.
  intros Hwb. unfold Middlewares, bind.
  destruct (update_cmd c _ s) as [u s1| | |] eqn:Hu; try done. intros [= _ <-].
  eapply update_cmd_well_built; [|done|exact Hu]. by intros cmd.
Qed.

Lemma Action_well_built c hd s a s' :
  well_built s → Action c hd s = Done a s' → well_built s'.
Proof.
  intros Hwb. unfold Action, bind.
  destruct (update_cmd c _ s) as [u s1| | |] eqn:Hu; try done. intros [= _ <-].
  eapply update_cmd_well_built; [|done|exact Hu]. by intros cmd.
Qed.

Lemma Help_well_built c text s a s' :
  well_built s → Help c text s = Done a s' → well_built s'.
Proof.
  intros Hwb. unfold Help, bind.
  destruct (update_cmd c _ s) as [u s1| | |] eqn:Hu; try done. intros [= _ <-].
  eapply update_cmd_well_built; [|done|exact Hu]. by intros cmd.
Qed.

Lemma Flags_well_built c flags s a s' :
  well_built s → Flags c flags s = Done a s' →
  dom (fsets (heap s)) ⊆ dom (fsets (heap s')) → well_built s'.
Proof.
  intros Hwb HF Hdom.
  assert (cmds s' = cmds s) as Hcs.
  { revert HF. unfold Flags, bind, get, deref_cmd, lift.
    destruct (cmds s !! c) as [cmd|]; [|done].
    destruct (flags (flagSet cmd) (heap s)); try done. by intros [= _ <-]. }
  apply (well_built_same_shape s); [|..|done|done].
  - rewrite Hcs. apply Hwb.
  - rewrite Hcs. intros a0 ca Ha. exists ca. by split.
  - rewrite Hcs. intros a0 ca Ha. exists ca. by split.
Qed.

Lemma Root_well_built os_Args s c s' :
  well_built s → Root os_Args s = Done c s' → well_built s'.
Proof.
  intros Hwb HR.
  assert (tree_ok (cmds s')) as Htree by (eapply Root_ok; [apply Hwb|exact HR]).
  destruct Hwb as [_ HCL Hal Hcf Hown Hch].
  revert HR. unfold Root. destruct os_Args as [|arg0 more]; [done|].
  pose proof (is_fresh (dom (cmds s))) as Hfresh. apply not_elem_of_dom in Hfresh.
  set (c0 := fresh (dom (cmds s))) in *.
  unfold bind, lift, update_fs. cbn.
  destruct (fsets (heap s) !! flag_CommandLine) as [cl|] eqn:Hcl; [|done].
  intros [= <- <-]. cbn in *.
  assert (∀ f, is_Some (fsets (heap s) !! f) →
               is_Some (<[flag_CommandLine := set_Usage (Some c0) cl]> (fsets (heap s)) !! f))
    as Hmono.
  { intros f Hf. destruct (decide (flag_CommandLine = f)) as [<-|Hne].
    - by rewrite lookup_insert_eq.
    - by rewrite lookup_insert_ne. }
  split; [done|..]; cbn.
  - by rewrite lookup_insert_eq.
  - intros a ca Ha. destruct (decide (c0 = a)) as [<-|Hne].
    + rewrite lookup_insert_eq in Ha. simplify_eq. cbn. by rewrite lookup_insert_eq.
    + rewrite lookup_insert_ne in Ha by done. apply Hmono. by eapply Hal.
  - intros a ca Ha Hp. destruct (decide (c0 = a)) as [<-|Hne].
    + rewrite lookup_insert_eq in Ha. simplify_eq. by destruct Hp.
    + rewrite lookup_insert_ne in Ha by done. by eapply Hcf.
  - intros a b ca cb Ha Hb Heq.
    destruct (decide (c0 = a)) as [<-|Hna].
    { rewrite lookup_insert_eq in Ha. simplify_eq. by right. }
    destruct (decide (c0 = b)) as [<-|Hnb].
    { rewrite lookup_insert_eq in Hb. simplify_eq. right. by rewrite Heq. }
    rewrite lookup_insert_ne in Ha, Hb by done. by eapply Hown.
  - intros a ca n b Ha Hn. destruct (decide (c0 = a)) as [<-|Hne].
    + rewrite lookup_insert_eq in Ha. by simplify_eq.
    + rewrite lookup_insert_ne in Ha by done.
      destruct (Hch _ _ _ _ Ha Hn) as (sub & Hb & Hp & Hname).
      exists sub. split; [|done]. rewrite lookup_insert_ne; [done|]. congruence.
Qed.

Lemma SubCommand_well_built c n s a s' :
  well_built s → SubCommand c n s = Done a s' → well_built s'.
Proof.
  intros Hwb HS.
  assert (tree_ok (cmds s')) as Htree by (eapply SubCommand_ok; [apply Hwb|exact HS]).
  destruct Hwb as [_ HCL Hal Hcf Hown Hch].
  revert HS. unfold SubCommand.
  destruct (cmds s !! c) as [pc|] eqn:Hc; [|done].
  pose proof (is_fresh (dom (cmds s))) as Hfresh. apply not_elem_of_dom in Hfresh.
  pose proof (is_fresh (dom (fsets (heap s)))) as Hffresh. apply not_elem_of_dom in Hffresh.
  set (a0 := fresh (dom (cmds s))) in *.
  set (f0 := fresh (dom (fsets (heap s)))) in *.
  intros [= <- <-]. cbn in *.
  assert (a0 ≠ c) as Hac by congruence.
  assert (∀ f, is_Some (fsets (heap s) !! f) → f ≠ f0) as Hold.
  { intros f [fs Hf] ->. congruence. }
  assert (∀ b cb', <[c := set_subCommands (<[n := a0]> (subCommands pc)) pc]> (cmds s) !! b
                   = Some cb' →
            ∃ cb, cmds s !! b = Some cb ∧ name cb' = name cb ∧ parent cb' = parent cb
                  ∧ flagSet cb' = flagSet cb
                  ∧ (subCommands cb' = subCommands cb
                     ∨ b = c ∧ subCommands cb' = <[n := a0]> (subCommands cb))) as Hback.
  { intros b cb' Hb. destruct (decide (c = b)) as [<-|Hne].
    - rewrite lookup_insert_eq in Hb. simplify_eq. exists pc. cbn. eauto 10.
    - rewrite lookup_insert_ne in Hb by done. exists cb'. eauto 10. }
  assert (∀ b cb, cmds s !! b = Some cb →
            ∃ cb', <[c := set_subCommands (<[n := a0]> (subCommands pc)) pc]> (cmds s) !! b
                   = Some cb' ∧ name cb' = name cb ∧ parent cb' = parent cb) as Hforth.
  { intros b cb Hb. destruct (decide (c = b)) as [<-|Hne].
    - rewrite lookup_insert_eq. simplify_eq. eauto.
    - rewrite lookup_insert_ne by done. eauto. }
  split; [done|..]; cbn.
  - rewrite lookup_insert_ne; [done|]. intros ->. by destruct (Hold _ HCL).
  - intros b cb Hb. destruct (decide (a0 = b)) as [<-|Hne].
    + rewrite lookup_insert_eq in Hb. simplify_eq. cbn. by rewrite lookup_insert_eq.
    + rewrite lookup_insert_ne in Hb by done.
      destruct (Hback _ _ Hb) as (cb0 & Hb0 & _ & _ & -> & _).
      rewrite lookup_insert_ne; [by eapply Hal|].
      intros Heq. eapply Hold; [by eapply Hal|done].
  - intros b cb Hb Hp. destruct (decide (a0 = b)) as [<-|Hne].
    + rewrite lookup_insert_eq in Hb. simplify_eq. cbn. intros Heq. by apply (Hold _ HCL).
    + rewrite lookup_insert_ne in Hb by done.
      destruct (Hback _ _ Hb) as (cb0 & Hb0 & _ & Hpar & -> & _).
      rewrite Hpar in Hp. by eapply Hcf.
  - intros b d cb cd Hb Hd Heq.
    destruct (decide (a0 = b)) as [<-|Hnb]; destruct (decide (a0 = d)) as [<-|Hnd];
      [by left|..].
    + rewrite lookup_insert_eq in Hb. rewrite lookup_insert_ne in Hd by done.
      simplify_eq. cbn in *.
      destruct (Hback _ _ Hd) as (cd0 & Hd0 & _ & _ & Hfd & _).
      exfalso. eapply Hold; [by eapply Hal|]. by rewrite <- Hfd.
    + rewrite lookup_insert_eq in Hd. rewrite lookup_insert_ne in Hb by done.
      simplify_eq. cbn in *.
      destruct (Hback _ _ Hb) as (cb0 & Hb0 & _ & _ & Hfb & _).
      exfalso. eapply Hold; [by eapply Hal|]. by rewrite <- Hfb.
    + rewrite lookup_insert_ne in Hb, Hd by done.
      destruct (Hback _ _ Hb) as (cb0 & Hb0 & _ & _ & Hfb & _).
      destruct (Hback _ _ Hd) as (cd0 & Hd0 & _ & _ & Hfd & _).
      rewrite Hfb. rewrite Hfb, Hfd in Heq. by eapply Hown.
  - intros b cb m d Hb Hm. destruct (decide (a0 = b)) as [<-|Hne].
    { rewrite lookup_insert_eq in Hb. by simplify_eq. }
    rewrite lookup_insert_ne in Hb by done.
    destruct (Hback _ _ Hb) as (cb0 & Hb0 & _ & _ & _ & [Hsub|[-> Hsub]]);
      rewrite Hsub in Hm.
    + destruct (Hch _ _ _ _ Hb0 Hm) as (sub & Hd & Hp & Hname).
      destruct (Hforth _ _ Hd) as (sub' & Hd' & Hn' & Hp').
      exists sub'. rewrite lookup_insert_ne by congruence. split; [done|]. split; congruence.
    + destruct (decide (n = m)) as [<-|Hnm].
      * rewrite lookup_insert_eq in Hm. simplify_eq. rewrite lookup_insert_eq. eauto.
      * rewrite lookup_insert_ne in Hm by done.
        destruct (Hch _ _ _ _ Hb0 Hm) as (sub & Hd & Hp & Hname).
        destruct (Hforth _ _ Hd) as (sub' & Hd' & Hn' & Hp').
        exists sub'. rewrite lookup_insert_ne by congruence. split; [done|]. split; congruence.
Qed.

Lemma assembled_well_built s : assembled s → well_built s.
Proof.
  induction 1.
  - apply well_built_start.
  - by eapply Root_well_built.
  - by eapply SubCommand_well_built.
  - by eapply Middlewares_well_built.
  - by eapply Action_well_built.
  - by eapply Help_well_built.
  - by eapply Flags_well_built.
Qed.

End builder_invariant.

Section built_trees.
Context `{GoRuntime}.

Lemma ancestry_last cs c l :
  ancestry cs c l → ∃ l0 cmd, cs !! c = Some cmd ∧ l = l0 ++ [(c, name cmd)].
Proof.
  destruct 1 as [c cmd Hc Hp|c cmd p l Hc Hp Hl].
  - by exists [], cmd.
  - by exists l, cmd.
Qed.

Lemma descend_child_of s x y sub :
  well_built s → descend (cmds s) x y →
  cmds s !! at_node y = Some sub →
  parent sub = Some (at_node x) ∧ (name sub :: rest y) `suffix_of` rest x.
Proof.
  intros Hwb Hd Hy.
  destruct Hd as [command cmd args mws h h1 fs arg0 args' subCommand sub' h2
                    Hc HP Hfs Hargs Hsub Hs HV]; simpl in *.
  destruct (wb_children s Hwb _ _ _ _ Hc Hsub) as (sub0 & Hs0 & Hp & Hn).
  simplify_eq. split; [done|].
  apply Parse_quiet in HP as [_ Hsuf].
  unfold Args in Hsuf. by rewrite Hfs, Hargs in Hsuf.
Qed.

Lemma walk_ancestry s p x z :
  well_built s → walk (cmds s) p x z →
  ∀ lx, ancestry (cmds s) (at_node x) lx →
  ∃ l', ancestry (cmds s) (at_node z) (lx ++ l') ∧ p = at_node x :: l'.*1 ∧
        Forall (λ a, ∃ cmd, cmds s !! a = Some cmd ∧ is_Some (parent cmd)) l'.*1.
Proof.
  intros Hwb. induction 1 as [x|x y z p Hd Hw IH]; intros lx Hlx.
  - exists []. rewrite app_nil_r. by split.
  - assert (∃ sub, cmds s !! at_node y = Some sub) as [sub Hy].
    { destruct Hd; simpl; eauto. }
    destruct (descend_child_of s x y sub Hwb Hd Hy) as [Hp _].
    destruct (IH (lx ++ [(at_node y, name sub)])) as (l' & Hanc & -> & Hall).
    { by eapply ancestry_child. }
    exists ((at_node y, name sub) :: l'). rewrite <- app_assoc in Hanc.
    split; [done|]. split; [done|]. simpl. apply Forall_cons. split; [|done].
    exists sub. by rewrite Hp.
Qed.

Lemma NoDup_omap {A B} (g : A → option B) (p : list A) :
  NoDup p →
  (∀ a b fa, a ∈ p → b ∈ p → g a = Some fa → g b = Some fa → a = b) →
  NoDup (omap g p).
Proof.
  induction 1 as [|a p Ha Hnd IH]; intros Hinj; [constructor|]. simpl.
  assert (NoDup (omap g p)) as Hrest.
  { apply IH. intros b c fb Hb Hc. apply Hinj; by right. }
  destruct (g a) as [fa|] eqn:Hga; [|done].
  constructor; [|done]. intros Hin. apply list_elem_of_omap in Hin as (b & Hb & Hgb).
  assert (a = b) as -> by (eapply Hinj; [by left|by right|done..]). done.
Qed.

(** X4: on every node of a tree the builder made, [usage] returns, having
    written the usage text of the node on the output of its flag set. *)
Theorem usage_returns_on_built_trees s c cmd :
  assembled s →
  cmds s !! c = Some cmd →
  ∃ fs l,
    fsets (heap s) !! flagSet cmd = Some fs ∧
    ancestry (cmds s) c l ∧
    usage (cmds s) c (heap s)
    = Done tt (Fprint (Output fs) (usage_text (cmds s) l.*2 cmd fs (vals (heap s)) +:+ LF)
                 (usage_state (flagSet cmd) fs (heap s))).
Proof.
  intros Hwb%assembled_well_built Hc.
  destruct (wb_allocated s Hwb _ _ Hc) as [fs Hfs].
  destruct (wb_tree s Hwb) as [Hanc Hch].
  destruct (Hanc _ _ Hc) as [l Hl].
  exists fs, l. split; [done|]. split; [done|].
  apply usage_Done; [done..|]. intros n a Hn. by eapply Hch.
Qed.

(** X5: in a tree the builder made, a descent goes to a node whose
    parent is the node it leaves, and the token it consumes is the name of
    that node. *)
Theorem descent_consumes_the_child_name s x y sub :
  assembled s →
  descend (cmds s) x y →
  cmds s !! at_node y = Some sub →
  parent sub = Some (at_node x) ∧ (name sub :: rest y) `suffix_of` rest x.
Proof. intros Hwb%assembled_well_built. by apply descend_child_of. Qed.

(** X6: in a tree the builder made, the chain of parents that [usage]
    prints for the node a traversal from a root reaches is the path of the
    traversal. *)
Theorem usage_names_the_path s p x z root :
  assembled s →
  cmds s !! at_node x = Some root →
  parent root = None →
  walk (cmds s) p x z →
  ∃ l, ancestry (cmds s) (at_node z) l ∧ l.*1 = p.
Proof.
  intros Hwb%assembled_well_built Hx Hroot Hw.
  destruct (walk_ancestry s p x z Hwb Hw [(at_node x, name root)])
    as (l' & Hanc & -> & _); [by apply ancestry_root|].
  by exists ([(at_node x, name root)] ++ l').
Qed.

Lemma walk_NoDup s p x z :
  well_built s → walk (cmds s) p x z →
  NoDup p ∧ NoDup (path_flagSets (cmds s) p).
Proof.
  intros Hwb Hw.
  destruct (cmds s !! at_node x) as [cx|] eqn:Hx.
  2:{ inversion Hw as [x'|x' y z' p' Hd Hw']; subst.
      - split; [apply NoDup_singleton|]. unfold path_flagSets. simpl. rewrite Hx. constructor.
      - destruct Hd; simpl in *. congruence. }
  destruct (wb_tree s Hwb) as [Hanc _].
  destruct (Hanc _ _ Hx) as [lx Hlx].
  destruct (walk_ancestry s p x z Hwb Hw lx Hlx) as (l' & Hz & -> & Hall).
  destruct (ancestry_last _ _ _ Hlx) as (l0 & cx' & Hx' & ->). simplify_eq.
  assert (NoDup (at_node x :: l'.*1)) as Hnd.
  { apply ancestry_NoDup in Hz. rewrite <- app_assoc, !fmap_app in Hz.
    by apply NoDup_app in Hz as (_ & _ & Hz). }
  split; [done|]. apply NoDup_omap; [done|].
  intros a b fa Ha Hb Hfa Hfb.
  destruct (cmds s !! a) as [ca|] eqn:Hca; [|done].
  destruct (cmds s !! b) as [cb|] eqn:Hcb; [|done].
  simpl in Hfa, Hfb. simplify_eq.
  destruct (wb_own_flagSet s Hwb a b ca cb Hca Hcb) as [?|HCL]; [done..|].
  rewrite Forall_forall in Hall.
  apply elem_of_cons in Ha as [->|Ha].
  - apply elem_of_cons in Hb as [->|Hb]; [done|].
    destruct (Hall _ Hb) as (cb' & Hcb' & Hp). simplify_eq.
    destruct (wb_child_flagSet s Hwb _ _ Hcb Hp). congruence.
  - destruct (Hall _ Ha) as (ca' & Hca' & Hp). simplify_eq.
    by destruct (wb_child_flagSet s Hwb _ _ Hca Hp).
Qed.

(** X7: in a tree the builder made, a traversal visits no node twice, and
    the nodes it visits have pairwise distinct flag sets. *)
Theorem path_flagSets_distinct s p x z :
  assembled s →
  walk (cmds s) p x z →
  NoDup p ∧ NoDup (path_flagSets (cmds s) p).
Proof. intros Hwb%assembled_well_built. by apply walk_NoDup. Qed.

End built_trees.

(** ** More on the dispatch and on the builder *)

Section more_dispatch.
Context `{GoRuntime}.

Lemma VisitAll_Var_DefValue f flags h r h' :
  VisitAll_Var f flags h = Done r h' →
  ∀ n fl, (n, fl) ∈ flags →
    ∃ x, vals h !! Value_of fl = Some x ∧
         flag_at h' f n = Some (mkFlag (Usage fl) (Value_of fl) (Value_String x)).
Proof.
  revert h. induction flags as [|[n0 fl0] flags IH]; intros h Hp n fl Hin; simpl in Hp.
  { by apply elem_of_nil in Hin. }
  apply bind_Done in Hp as (u0 & h1 & HV & Hp).
  apply Var_Done in HV as (Hnone & (x & Hx & Hn0) & Hframe & Hvals).
  apply elem_of_cons in Hin as [Heq|Hin].
  - simplify_eq. exists x. split; [done|].
    apply VisitAll_Var_Done in Hp as (Hfree & _ & Hframe' & _).
    rewrite Hframe'; [done|]. right. intros Hdup. apply Hfree in Hdup. congruence.
  - destruct (IH _ Hp _ _ Hin) as (x' & Hx' & Hfl). exists x'. split; [congruence|done].
Qed.

Lemma VisitAll_Var_keeps f flags h r h' g m fl :
  VisitAll_Var f flags h = Done r h' →
  flag_at h g m = Some fl → flag_at h' g m = Some fl.
Proof.
  intros (Hfree & _ & Hframe & _)%VisitAll_Var_Done Hfl.
  rewrite Hframe; [done|].
  destruct (decide (g = f)) as [->|Hne]; [|by left]. right.
  intros Hm. apply Hfree in Hm. congruence.
Qed.

Lemma descend_keeps cs x y g m fl :
  descend cs x y → flag_at (st x) g m = Some fl → flag_at (st y) g m = Some fl.
Proof.
  intros Hd Hfl. destruct Hd as [command cmd args mws h h1 fs arg0 args' subCommand sub h2
                                  Hc HP Hfs Hargs Hsub Hs HV]; simpl in *.
  apply Parse_Done in HP as [Hkeep _]. rewrite <- Hkeep in Hfl.
  by eapply VisitAll_Var_keeps.
Qed.

Lemma stops_keeps cs z args' h1 :
  stops cs z args' h1 → ∀ g m, flag_at h1 g m = flag_at (st z) g m.
Proof.
  intros Hs. destruct Hs as [command cmd args mws h h1 fs Hc HP Hfs Hstop]; simpl.
  by apply Parse_Done in HP as [Hkeep _].
Qed.

Lemma walk_keeps cs p x z g m fl :
  walk cs p x z → flag_at (st x) g m = Some fl → flag_at (st z) g m = Some fl.
Proof.
  induction 1 as [x|x y z p Hd Hw IH]; [done|].
  intros Hfl. apply IH. by eapply descend_keeps.
Qed.

(** X8: until it has resolved the command, [Execute] writes nothing: the
    state in which its loop ends has the output of the state in which it
    started. *)
Theorem traversal_is_silent cs fuel c args mws h command args' mws' h' :
  Execute_loop fuel cs c args mws h = Done (command, args', mws') h' →
  written h' = written h.
Proof.
  intros HE.
  destruct (Execute_loop_inv cs fuel (Config c args mws h) _ _ _ _ HE)
    as (p & z & Hw & Hs & _ & _).
  apply walk_quiet in Hw as (Hw & _). apply stops_quiet in Hs as [Hs _].
  simpl in *. congruence.
Qed.

(** X9: the arguments the loop of [Execute] leaves for the handler are a
    suffix of the arguments it was given, and the middlewares it has
    collected extend the ones it started with. *)
Theorem handler_args_are_a_suffix cs fuel c args mws h command args' mws' h' :
  Execute_loop fuel cs c args mws h = Done (command, args', mws') h' →
  args' `suffix_of` args ∧ mws `prefix_of` mws'.
Proof.
  intros HE.
  destruct (Execute_loop_inv cs fuel (Config c args mws h) _ _ _ _ HE)
    as (p & z & Hw & Hs & _ & Hacc).
  split.
  - apply walk_quiet in Hw as (_ & Hw & _). apply stops_quiet in Hs as [_ Hs].
    simpl in *. by etrans.
  - apply walk_acc in Hw. simpl in Hw. rewrite <- Hacc, Hw. by eexists.
Qed.

(** X10: when the loop of [Execute] goes down into a child, every flag of
    the node is, from then on and in the state in which the loop ends, in
    the flag set of the child with, as its default, the text the value has
    once the flags of the node are parsed, not the default the node
    declared it with. *)
Theorem inherited_default_is_current cs c cmd args mws h h1 fs arg0 args' subCommand sub
    fuel r hf :
  cs !! c = Some cmd →
  Parse (usage cs) (flagSet cmd) args h = Done None h1 →
  fsets h1 !! flagSet cmd = Some fs →
  fs_args fs = arg0 :: args' →
  subCommands cmd !! arg0 = Some subCommand →
  cs !! subCommand = Some sub →
  Execute_loop (S fuel) cs c args mws h = Done r hf →
  ∃ h2,
    Execute_loop fuel cs subCommand args' (mws ++ middlewares sub) h2 = Done r hf ∧
    ∀ n fl, formal fs !! n = Some fl →
      ∃ v, vals h1 !! Value_of fl = Some v ∧
           flag_at h2 (flagSet sub) n
           = Some (mkFlag (Usage fl) (Value_of fl) (Value_String v)) ∧
           flag_at hf (flagSet sub) n
           = Some (mkFlag (Usage fl) (Value_of fl) (Value_String v)).
Proof.
  intros Hc HP Hfs Hargs Hsub Hs HE. cbn [Execute_loop] in HE.
  rewrite (bind_eq _ _ _ _ _ (deref_cmd_eq cs c cmd h Hc)) in HE.
  rewrite (bind_eq _ _ _ _ _ HP) in HE.
  rewrite (bind_eq _ _ _ _ _ (deref_fs_eq _ _ _ Hfs)) in HE.
  rewrite Hargs, Hsub in HE.
  rewrite (bind_eq _ _ _ _ _ (deref_cmd_eq cs _ sub _ Hs)) in HE.
  apply bind_Done in HE as ([] & h2 & HV & HE).
  exists h2. split; [done|]. intros n fl Hfl.
  destruct (VisitAll_Var_DefValue _ _ _ _ _ HV n fl) as (v & Hv & Hn);
    [by apply elem_of_VisitAll|].
  exists v. split; [done|]. split; [done|].
  destruct r as [[command args2] mws2].
  destruct (Execute_loop_inv cs fuel (Config subCommand args' (mws ++ middlewares sub) h2)
              _ _ _ _ HE) as (p & z & Hw & Hst & _ & _).
  rewrite (stops_keeps _ _ _ _ Hst). by apply (walk_keeps _ _ _ _ _ _ _ Hw).
Qed.

(** X11: a traversal removes and replaces no flag of any flag set, and
    adds flags only to the flag sets of the nodes it descends into. *)
Theorem traversal_keeps_declarations cs p x z args' h1 :
  walk cs p x z → stops cs z args' h1 →
  (∀ g n fl, flag_at (st x) g n = Some fl → flag_at h1 g n = Some fl) ∧
  (∀ g n, g ∉ path_flagSets cs (tail p) → flag_at h1 g n = flag_at (st x) g n).
Proof.
  intros Hw Hs. split.
  - intros g n fl Hfl. rewrite (stops_keeps _ _ _ _ Hs).
    clear Hs. induction Hw as [x|x y z p Hd Hw IH]; [done|].
    apply IH. by eapply descend_keeps.
  - intros g n Hg. rewrite (stops_keeps _ _ _ _ Hs). by eapply walk_frame.
Qed.

(** X12: what a descent registers in the child stays there, so a second
    [Execute] on the same tree that descends into the same child, from a
    node that has a flag, panics on the redefinition. *)
Theorem second_Execute_panics cs c root ctx args h y sub n h' arg0 args2 h1 fs
    tok more cfs :
  cs !! c = Some root →
  descend cs (Config c args (middlewares root) h) y →
  cs !! at_node y = Some sub →
  is_Some (flag_at h (flagSet root) n) →
  (∀ g m, is_Some (flag_at (st y) g m) → is_Some (flag_at h' g m)) →
  Parse (usage cs) (flagSet root) args2 h' = Done None h1 →
  fsets h1 !! flagSet root = Some fs →
  fs_args fs = tok :: more →
  subCommands root !! tok = Some (at_node y) →
  fsets h1 !! flagSet sub = Some cfs →
  undef cfs = ∅ →
  (∀ m fl, formal fs !! m = Some fl →
     HasPrefix_minus m = false ∧ Contains_eq m = false ∧ is_Some (vals h1 !! Value_of fl)) →
  ∃ m hp, Execute cs c ctx (arg0 :: args2) h' = Panic (redefined cfs m) hp.
Proof.
  intros Hc Hd Hy [fl Hfl] Hgrow HP Hfs Hargs Hsub Hcfs Hu Hok.
  pose proof (Parse_Done _ _ _ _ _ HP) as [Hkeep _].
  assert (is_Some (formal fs !! n)) as Hn.
  { assert (is_Some (flag_at h1 (flagSet root) n)) as Hsome.
    { rewrite Hkeep. apply Hgrow. exists fl.
      by apply (descend_keeps _ _ _ _ _ _ Hd). }
    unfold flag_at in Hsome. by rewrite Hfs in Hsome. }
  assert (is_Some (formal cfs !! n)) as Hcn.
  { assert (is_Some (flag_at h1 (flagSet sub) n)) as Hsome.
    { rewrite Hkeep. apply Hgrow.
      destruct (descend_present _ _ _ _ _ _ _ Hd Hc Hy Hfl) as (fl' & Hfl' & _). eauto. }
    unfold flag_at in Hsome. by rewrite Hcfs in Hsome. }
  destruct (VisitAll_Var_redefined (flagSet sub) (VisitAll fs) h1 cfs)
    as (m & hp & Hm & Hcm & Hpanic); [done|done|apply VisitAll_NoDup| |..].
  { intros m fl0 Hin. apply Hok. by apply elem_of_VisitAll. }
  { exists n. split; [by apply elem_of_VisitAll_names|done]. }
  exists m, hp.
  unfold Execute. rewrite (bind_eq _ _ _ _ _ (deref_cmd_eq cs c root h' Hc)).
  apply bind_Panic. cbn [Execute_loop].
  rewrite (bind_eq _ _ _ _ _ (deref_cmd_eq cs _ root _ Hc)).
  rewrite (bind_eq _ _ _ _ _ HP).
  rewrite (bind_eq _ _ _ _ _ (deref_fs_eq _ _ _ Hfs)).
  rewrite Hargs, Hsub.
  rewrite (bind_eq _ _ _ _ _ (deref_cmd_eq cs _ sub _ Hy)).
  by apply bind_Panic.
Qed.

(** X13: a middleware that does not call the handler it is given cuts the
    chain: [Execute] runs the middlewares outside it and neither the ones
    inside it nor the handler of the command. *)
Theorem middleware_cuts_the_chain cs c root ctx arg0 args h p z cmd hd args' h1
    outer (m : Middleware) inner k :
  cs !! c = Some root →
  walk cs p (Config c args (middlewares root) h) z →
  stops cs z args' h1 →
  cs !! at_node z = Some cmd →
  handler cmd = Some hd →
  acc z = outer ++ m :: inner →
  (∀ next, m next = k) →
  Execute cs c ctx (arg0 :: args) h
  = foldr (λ m k, m k) k outer ctx (flagSet cmd) args' h1.
Proof.
  intros Hc Hw Hs Hz Hhd Hacc Hm.
  rewrite (Execute_resolved cs c root ctx arg0 args h p z cmd args' h1) by done.
  unfold finish. rewrite Hhd, Hacc, foldr_app. cbn [foldr]. by rewrite Hm.
Qed.

(** X14: [usage] leaves the flag set of the node writing to the builder of
    the call and does not set it back, so that a second [usage] on the
    node, whatever the order in which it ranges over the children, writes
    its text there and not on the output the first one wrote to. *)
Theorem usage_leaves_its_builder (R1 R2 : GoRuntime) cs c cmd fs l h :
  cs !! c = Some cmd →
  fsets h !! flagSet cmd = Some fs →
  ancestry cs c l →
  (∀ n a, subCommands cmd !! n = Some a → is_Some (cs !! a)) →
  ∃ h1 h2,
    @usage R1 cs c h = Done tt h1 ∧
    written h1 = written h ++ [(Output fs, @usage_text R1 cs l.*2 cmd fs (vals h) +:+ LF)] ∧
    (Output <$> fsets h1 !! flagSet cmd) = Some strings_Builder ∧
    @usage R2 cs c h1 = Done tt h2 ∧
    written h2
    = written h1 ++ [(strings_Builder, @usage_text R2 cs l.*2 cmd fs (vals h) +:+ LF)].
Proof.
  intros Hc Hfs Hl Hch.
  eexists _, _. split; [by apply (@usage_Done R1)|]. split; [done|].
  assert (fsets (Fprint (Output fs) (@usage_text R1 cs l.*2 cmd fs (vals h) +:+ LF)
                   (@usage_state (flagSet cmd) fs h)) !! flagSet cmd
          = Some (set_output (Some strings_Builder) fs)) as Hfs1.
  { cbn. by rewrite lookup_insert_eq. }
  split; [by rewrite Hfs1|]. split; [by eapply (@usage_Done R2)|].
  cbn.
  by rewrite (@usage_text_formal R2 cs _ cmd fs (set_output (Some strings_Builder) fs)).
Qed.

End more_dispatch.

Section more_builder.
Context `{GoRuntime}.

(** X15: every [Root] makes a node of its own on the one
    [flag.CommandLine], whose [Usage] becomes the [usage] of the latest
    root; the nodes there were are left as they are. *)
Theorem Root_takes_over_CommandLine arg0 more s :
  is_Some (fsets (heap s) !! flag_CommandLine) →
  ∃ c s',
    Root (arg0 :: more) s = Done c s' ∧
    cmds s !! c = None ∧
    cmds s' !! c = Some (mkCommand arg0 "" [] None ∅ flag_CommandLine None) ∧
    (FlagSet_Usage <$> fsets (heap s') !! flag_CommandLine) = Some (Some c) ∧
    (∀ a, a ≠ c → cmds s' !! a = cmds s !! a) ∧
    (∀ f, f ≠ flag_CommandLine → fsets (heap s') !! f = fsets (heap s) !! f).
Proof.
  intros [cl Hcl].
  pose proof (is_fresh (dom (cmds s))) as Hfresh. apply not_elem_of_dom in Hfresh.
  eexists _, _. unfold Root, bind, lift, update_fs. cbn. rewrite Hcl. cbn.
  split; [reflexivity|]. split; [done|]. cbn.
  split; [by rewrite lookup_insert_eq|]. split; [by rewrite lookup_insert_eq|].
  split.
  - intros a Ha. by rewrite lookup_insert_ne.
  - intros f Hf. by rewrite lookup_insert_ne.
Qed.

(** X16: [Flags] runs its callback when it is called, on the flag set of
    the node: a name declared a second time on a node panics while the
    tree is built, before any [Execute]. *)
Theorem Flags_twice_panics c n v1 u1 v2 u2 s cmd fs :
  cmds s !! c = Some cmd →
  fsets (heap s) !! flagSet cmd = Some fs →
  HasPrefix_minus n = false → Contains_eq n = false →
  formal fs !! n = None →
  undef fs !! n = None →
  ∃ s',
    (Flags c (FlagSet_String n v1 u1) ;;; Flags c (FlagSet_Bool n v2 u2)) s
    = Panic (redefined fs n) s'.
Proof.
  intros Hc Hfs Hm He Hn Hu.
  set (p := fresh (dom (vals (heap s)))).
  set (fs1 := set_formal (<[n := mkFlag u1 p v1]> (formal fs)) fs).
  set (h0 := set_vals <[p := stringValue v1]> (heap s)).
  set (h1 := set_fsets <[flagSet cmd := fs1]> h0).
  assert (Flags c (FlagSet_String n v1 u1) s = Done c (mkBstate (cmds s) h1)) as HF1.
  { unfold Flags, bind, get, deref_cmd, lift, ret. rewrite Hc.
    unfold FlagSet_String, bind, new_Value. fold p. fold h0.
    rewrite (Var_registers (flagSet cmd) p n u1 h0 fs (stringValue v1)); try done.
    unfold h0. cbn. by rewrite lookup_insert_eq. }
  set (q := fresh (dom (vals h1))).
  set (h2 := set_vals <[q := boolValue v2]> h1).
  exists (mkBstate (cmds s) (Fprint (Output fs1) (redefined fs1 n +:+ LF) h2)).
  rewrite (bind_eq _ _ _ _ _ HF1).
  unfold Flags, bind, get, deref_cmd, lift, ret. cbn. rewrite Hc.
  unfold FlagSet_Bool, bind, new_Value. fold q. fold h2.
  rewrite (Var_redefined (flagSet cmd) q n u2 h2 fs1 (boolValue v2)); try done.
  - unfold h2, h1. cbn. by rewrite lookup_insert_eq.
  - unfold h2. cbn. by rewrite lookup_insert_eq.
  - unfold fs1. cbn. by rewrite lookup_insert_eq.
Qed.

End more_builder.

(** ** The loops come to an end *)

Section termination.
Context `{GoRuntime}.

Lemma bind_returns {S A B} (m : M S A) (k : A → M S B) s :
  m s ≠ Hang → (∀ a s', m s = Done a s' → k a s' ≠ Hang) → bind m k s ≠ Hang.
Proof. unfold bind. intros Hm Hk. destruct (m s); try done. by apply Hk. Qed.

Lemma deref_fs_returns f h : deref_fs f h ≠ Hang.
Proof. unfold deref_fs. by destruct (fsets h !! f). Qed.

Lemma deref_val_returns v h : deref_val v h ≠ Hang.
Proof. unfold deref_val. by destruct (vals h !! v). Qed.

Lemma update_fs_returns f g h : update_fs f g h ≠ Hang.
Proof. unfold update_fs. by destruct (fsets h !! f). Qed.

Lemma deref_cmd_returns {S} cs c (s : S) : deref_cmd cs c s ≠ Hang.
Proof. unfold deref_cmd. by destruct (cs !! c). Qed.

Lemma apply_Set_returns v arg h : apply_Set v arg h ≠ Hang.
Proof.
  unfold apply_Set. apply bind_returns; [apply deref_val_returns|].
  intros x h' _. by destruct (Value_Set x (Value_String x) arg).
Qed.

Lemma FlagSet_sprintf_returns f msg h : FlagSet_sprintf f msg h ≠ Hang.
Proof.
  unfold FlagSet_sprintf. apply bind_returns; [apply deref_fs_returns|]. done.
Qed.

Lemma defaultUsage_returns f h : defaultUsage f h ≠ Hang.
Proof.
  unfold defaultUsage. apply bind_returns; [apply deref_fs_returns|].
  intros fs h' _. apply bind_returns; [done|]. intros [] h2 _.
  unfold PrintDefaults. apply bind_returns; [apply deref_fs_returns|]. done.
Qed.

Lemma usage_returns cs c h : tree_ok cs → usage cs c h ≠ Hang.
Proof.
  intros [Hanc Hch].
  destruct (cs !! c) as [cmd|] eqn:Hc.
  2:{ unfold usage, bind, deref_cmd. by rewrite Hc. }
  destruct (fsets h !! flagSet cmd) as [fs|] eqn:Hfs.
  2:{ unfold usage, bind, deref_cmd, deref_fs. by rewrite Hc, Hfs. }
  destruct (Hanc _ _ Hc) as [l Hl].
  rewrite (usage_Done cs c cmd fs l h); [done..|]. intros n a Hn. by eapply Hch.
Qed.

Section parse_returns.
Variable call : addr → M hstate unit.
Hypothesis call_returns : ∀ c h, call c h ≠ Hang.

Lemma FlagSet_usage_returns f h : FlagSet_usage call f h ≠ Hang.
Proof.
  unfold FlagSet_usage. apply bind_returns; [apply deref_fs_returns|].
  intros fs h' _. destruct (FlagSet_Usage fs); [apply call_returns|apply defaultUsage_returns].
Qed.

Lemma failf_returns f msg h : failf call f msg h ≠ Hang.
Proof.
  unfold failf. apply bind_returns; [apply FlagSet_sprintf_returns|].
  intros m h' _. apply bind_returns; [apply FlagSet_usage_returns|]. done.
Qed.

Ltac returns :=
  repeat first
    [ done
    | apply deref_fs_returns
    | apply deref_val_returns
    | apply update_fs_returns
    | apply apply_Set_returns
    | apply failf_returns
    | apply FlagSet_usage_returns
    | apply bind_returns; [|intros ? ? _]
    | match goal with
      | |- (match ?x with _ => _ end) _ ≠ Hang => destruct x
      | |- (let '(_, _) := ?x in _) _ ≠ Hang => destruct x
      | |- (if ?b then _ else _) _ ≠ Hang => destruct b
      end ].

Lemma parseOne_returns f h : parseOne call f h ≠ Hang.
Proof. unfold parseOne. returns. Qed.

Lemma Parse_loop_returns f fuel : ∀ h,
  (length (Args h f) < fuel)%nat → Parse_loop fuel call f h ≠ Hang.
Proof.
  induction fuel as [|fuel IH]; intros h Hfuel; [lia|]. cbn [Parse_loop].
  apply bind_returns; [apply parseOne_returns|].
  intros [seen err] h1 Hone. destruct seen.
  - apply parseOne_Done in Hone as [_ Hlen]; [|by left]. apply IH. lia.
  - destruct err as [e|]; [|done].
    apply bind_returns; [apply deref_fs_returns|]. intros fs h2 _.
    destruct (errorHandling fs); [done| |done]. by destruct e.
Qed.

Lemma Parse_returns f arguments h : Parse call f arguments h ≠ Hang.
Proof.
  unfold Parse. apply bind_returns; [apply update_fs_returns|].
  intros [] h1 (fs & Hf & ->)%update_fs_Done.
  apply Parse_loop_returns. rewrite Args_insert. simpl. lia.
Qed.

End parse_returns.

Lemma Var_returns f v n u h : Var f v n u h ≠ Hang.
Proof.
  unfold Var.
  repeat first
    [ done
    | apply deref_fs_returns
    | apply deref_val_returns
    | apply update_fs_returns
    | apply FlagSet_sprintf_returns
    | apply bind_returns; [|intros ? ? _]
    | match goal with
      | |- (match ?x with _ => _ end) _ ≠ Hang => destruct x
      | |- (if ?b then _ else _) _ ≠ Hang => destruct b
      end ].
Qed.

Lemma VisitAll_Var_returns f flags : ∀ h, VisitAll_Var f flags h ≠ Hang.
Proof.
  induction flags as [|[n fl] flags IH]; intros h; [done|]. cbn [VisitAll_Var].
  apply bind_returns; [apply Var_returns|]. intros [] h' _. apply IH.
Qed.

(** X17: on a tree whose chains of parents are finite, the loop of
    [Execute] comes to an end: within as many iterations as there are
    arguments, and one more, it has resolved the command, or the process
    has exited or panicked. *)
Theorem traversal_terminates cs fuel : ∀ c args mws h,
  tree_ok cs →
  (length args < fuel)%nat →
  Execute_loop fuel cs c args mws h ≠ Hang.
Proof.
  induction fuel as [|fuel IH]; intros c args mws h Hok Hfuel; [lia|].
  cbn [Execute_loop].
  apply bind_returns; [apply deref_cmd_returns|]. intros cmd h0 _.
  apply bind_returns.
  { apply Parse_returns. intros c' h'. by apply usage_returns. }
  intros [e|] h1 HP; [done|].
  apply Parse_Done in HP as [_ Hlen].
  apply bind_returns; [apply deref_fs_returns|].
  intros fs h2 [Hfs ->]%deref_fs_Done.
  unfold Args in Hlen. rewrite Hfs in Hlen.
  destruct (fs_args fs) as [|a0 more]; [done|].
  destruct (subCommands cmd !! a0) as [sub|]; [|done].
  apply bind_returns; [apply deref_cmd_returns|]. intros subcmd h3 _.
  apply bind_returns; [apply VisitAll_Var_returns|]. intros [] h4 _.
  apply IH; [done|]. simpl in Hlen. lia.
Qed.

End termination.

(** ** The terminator of the flags *)

Section terminator.
Context `{GoRuntime}.

Lemma Parse_terminator call f fs more h :
  fsets h !! f = Some fs →
  Parse call f ("--" :: more) h
  = Done None (set_fsets <[f := set_args more (set_parsed fs)]> h).
Proof.
  intros Hfs. unfold Parse.
  rewrite (bind_eq _ _ _ _ _ (update_fs_eq _ _ _ _ Hfs)).
  cbn [length Parse_loop]. unfold parseOne.
  erewrite bind_eq.
  2:{ erewrite bind_eq by (apply deref_fs_eq; cbn; by rewrite lookup_insert_eq).
      cbn. erewrite bind_eq by (apply update_fs_eq; cbn; by rewrite lookup_insert_eq).
      reflexivity. }
  cbn. unfold ret, set_fsets. cbn. by rewrite insert_insert_eq.
Qed.

(** X18: the terminator [--] ends the flags of one node only: the token
    after it is still looked up among the children of the node, and the
    traversal goes on in the child with the tokens that follow. *)
Theorem terminator_ends_one_level cs c cmd fs tok more subCommand sub fuel mws h :
  cs !! c = Some cmd →
  fsets h !! flagSet cmd = Some fs →
  subCommands cmd !! tok = Some subCommand →
  cs !! subCommand = Some sub →
  Execute_loop (S fuel) cs c ("--" :: tok :: more) mws h
  = (VisitAll_Var (flagSet sub) (VisitAll fs) ;;;
     Execute_loop fuel cs subCommand more (mws ++ middlewares sub))
      (set_fsets <[flagSet cmd := set_args (tok :: more) (set_parsed fs)]> h).
Proof.
  intros Hc Hfs Hsub Hs. cbn [Execute_loop].
  rewrite (bind_eq _ _ _ _ _ (deref_cmd_eq cs c cmd h Hc)).
  rewrite (bind_eq _ _ _ _ _ (Parse_terminator _ _ _ _ _ Hfs)).
  erewrite bind_eq by (apply deref_fs_eq; cbn; by rewrite lookup_insert_eq).
  cbn [fs_args set_args]. rewrite Hsub.
  by rewrite (bind_eq _ _ _ _ _ (deref_cmd_eq cs _ sub _ Hs)).
Qed.

End terminator.

(** ** The flags along the path of a run *)

Section inheritance.
Context `{GoRuntime}.

Lemma walk_present_all cs p x z :
  walk cs p x z →
  ∀ i j a b ca cb n fl,
    (i ≤ j)%nat → p !! i = Some a → p !! j = Some b →
    cs !! a = Some ca → cs !! b = Some cb →
    flag_at (st x) (flagSet ca) n = Some fl →
    ∃ fl', flag_at (st z) (flagSet cb) n = Some fl' ∧ Value_of fl' = Value_of fl.
Proof.
  induction 1 as [x|x y z p Hd Hw IH]; intros i j a b ca cb n fl Hij Hi Hj Ha Hb Hfl.
  - destruct j as [|j]; [|done]. destruct i as [|i]; [|lia]. simpl in *. simplify_eq. eauto.
  - destruct i as [|i]; simpl in Hi.
    + injection Hi as <-. destruct j as [|j]; simpl in Hj.
      * injection Hj as <-. simplify_eq. exists fl. split; [|done].
        eapply walk_keeps; [done|]. by eapply descend_keeps.
      * destruct (descend_nodes _ _ _ Hd) as [_ [cy Hy]].
        destruct (descend_present _ _ _ _ _ _ _ Hd Ha Hy Hfl) as (fl1 & Hfl1 & Hv1 & _).
        assert (p !! 0%nat = Some (at_node y)) as Hhd.
        { pose proof (walk_head _ _ _ _ Hw) as Hhd. by destruct p. }
        destruct (IH 0%nat j (at_node y) b cy cb n fl1) as (fl' & Hfl' & Hv');
          [lia|done..|].
        exists fl'. split; [done|congruence].
    + destruct j as [|j]; [lia|]. simpl in Hj.
      apply (IH i j a b ca cb n fl); [lia|done..|]. by eapply descend_keeps.
Qed.


Lemma walk_ends cs p x z :
  walk cs p x z →
  at_node x ∈ p ∧ at_node z ∈ p ∧
  p !! 0%nat = Some (at_node x) ∧ p !! pred (length p) = Some (at_node z).
Proof.
  intros Hw. pose proof (walk_head _ _ _ _ Hw) as Hhd.
  pose proof (walk_last _ _ _ _ Hw) as Hlst.
  assert (p !! 0%nat = Some (at_node x)) as H0 by (by destruct p).
  rewrite last_lookup in Hlst.
  split; [by eapply list_elem_of_lookup_2|]. split; [by eapply list_elem_of_lookup_2|]. done.
Qed.

Lemma walk_shares cs p x z :
  walk cs p x z →
  NoDup (path_flagSets cs p) →
  ∀ i j a b ca cb n f1 f2,
    (i ≤ j)%nat → p !! i = Some a → p !! j = Some b →
    cs !! a = Some ca → cs !! b = Some cb →
    flag_at (st z) (flagSet ca) n = Some f1 →
    flag_at (st z) (flagSet cb) n = Some f2 →
    Value_of f1 = Value_of f2.
Proof.
  induction 1 as [x|x y z p Hd Hw IH];
    intros Hnd i j a b ca cb n f1 f2 Hij Hi Hj Ha Hb Hf1 Hf2.
  - destruct j as [|j]; [|done]. destruct i as [|i]; [|lia]. simpl in *. by simplify_eq.
  - destruct (descend_nodes _ _ _ Hd) as [[cx Hx] [cy Hy]].
    unfold path_flagSets in Hnd. simpl in Hnd. rewrite Hx in Hnd. simpl in Hnd.
    apply NoDup_cons in Hnd as [Hfresh Hnd]. fold (path_flagSets cs p) in Hfresh, Hnd.
    destruct i as [|i]; simpl in Hi.
    + injection Hi as <-. destruct j as [|j]; simpl in Hj.
      * injection Hj as <-. by simplify_eq.
      * simplify_eq.
        assert (p !! 0%nat = Some (at_node y)) as Hhd.
        { pose proof (walk_head _ _ _ _ Hw) as Hhd. by destruct p. }
        assert (flagSet cy ∈ path_flagSets cs p) as Hyin.
        { unfold path_flagSets. apply list_elem_of_omap. exists (at_node y).
          split; [by eapply list_elem_of_lookup_2|]. by rewrite Hy. }
        assert (flag_at (st z) (flagSet ca) n = flag_at (st x) (flagSet ca) n) as Hback.
        { rewrite (walk_frame _ _ _ _ (flagSet ca) n Hw).
          - eapply descend_frame; [done..|]. intros Heq. apply Hfresh. by rewrite Heq.
          - intros Hin. apply Hfresh. unfold path_flagSets in *.
            apply list_elem_of_omap in Hin as (d & Hd' & Hfd).
            apply list_elem_of_omap. exists d. split; [|done].
            destruct p; [done|]. by right. }
        rewrite Hback in Hf1.
        destruct (descend_present _ _ _ _ _ _ _ Hd Ha Hy Hf1) as (fl1 & Hfl1 & Hv1 & _).
        rewrite <- Hv1.
        apply (IH Hnd 0%nat j (at_node y) b cy cb n fl1 f2); [lia|done..| |done].
        by eapply walk_keeps.
    + destruct j as [|j]; [lia|]. simpl in Hj.
      apply (IH Hnd i j a b ca cb n f1 f2); [lia|done..].
Qed.

Lemma flag_settable cs f h fz n fl val v new :
  fsets h !! f = Some fz →
  formal fz !! n = Some fl →
  vals h !! Value_of fl = Some val →
  Value_Set val (Value_String val) v = (new, None) →
  (∀ pos, ∃ h', FlagSet_Set pos f n v h = Done None h' ∧
                Lookup_String h' f n = Some new) ∧
  (valid_name n = true →
   ∀ double,
     ∃ h', Parse (usage cs) f [flag_token double n (Some v)] h = Done None h' ∧
           Lookup_String h' f n = Some new).
Proof.
  intros Hfz Hfl Hval Hset.
  assert (flag_at h f n = Some fl) as Hat by (unfold flag_at; by rewrite Hfz).
  assert (∀ h', vals h' = <[Value_of fl := mkValue (IsBoolFlag val) (Value_Set val) new]>
                            (vals h) →
                (∀ g m, flag_at h' g m = flag_at h g m) →
                Lookup_String h' f n = Some new) as Hread.
  { intros h' Hvals Hkeep.
    rewrite (Lookup_String_flag_at h' f n fl) by (by rewrite Hkeep).
    by rewrite Hvals, lookup_insert_eq. }
  split.
  - intros pos.
    destruct (FlagSet_Set_sets pos f h fz n v fl val new)
      as (h' & HS & Hvals & Hkeep); [done..|].
    exists h'. split; [done|]. by apply Hread.
  - intros Hvalid double.
    destruct (Parse_sets (usage cs) f h fz double n v fl val new)
      as (h' & HP & Hvals & Hkeep); [done..|].
    exists h'. split; [done|]. by apply Hread.
Qed.

(** C2: when the loop of [Execute] resolves a command, it has gone down a
    path on which every flag that the flag set of a node had is in the
    flag set of that node and of each node further down, with the same
    value object, and can be set there: by [Set], and by parsing
    [-name=value] when the name can be written as a token; and a name that
    no node of the path had is in the flag set of none of them. *)
Theorem flags_follow_the_path cs fuel c args mws h command args' mws' h' :
  Execute_loop fuel cs c args mws h = Done (command, args', mws') h' →
  ∃ p z,
    walk cs p (Config c args mws h) z ∧ stops cs z args' h' ∧ at_node z = command ∧
    (∀ i j a b ca cb n fl,
       (i ≤ j)%nat → p !! i = Some a → p !! j = Some b →
       cs !! a = Some ca → cs !! b = Some cb →
       flag_at h (flagSet ca) n = Some fl →
       ∃ fl', flag_at h' (flagSet cb) n = Some fl' ∧
              Value_of fl' = Value_of fl ∧
              ∀ v val new,
                vals h' !! Value_of fl = Some val →
                Value_Set val (Value_String val) v = (new, None) →
                (∀ pos, ∃ h2, FlagSet_Set pos (flagSet cb) n v h' = Done None h2 ∧
                              Lookup_String h2 (flagSet cb) n = Some new) ∧
                (valid_name n = true →
                 ∀ double,
                   ∃ h2, Parse (usage cs) (flagSet cb) [flag_token double n (Some v)] h'
                         = Done None h2 ∧
                         Lookup_String h2 (flagSet cb) n = Some new)) ∧
    (∀ n, (∀ a ca, a ∈ p → cs !! a = Some ca → flag_at h (flagSet ca) n = None) →
          ∀ b cb, b ∈ p → cs !! b = Some cb → flag_at h' (flagSet cb) n = None).
Proof.
  intros HE.
  destruct (Execute_loop_inv cs fuel (Config c args mws h) _ _ _ _ HE)
    as (p & z & Hw & Hs & Hz & _).
  exists p, z. split; [done|]. split; [done|]. split; [done|].
  pose proof (stops_keeps _ _ _ _ Hs) as Hlast. split.
  - intros i j a b ca cb n fl Hij Hi Hj Ha Hb Hfl.
    destruct (walk_present_all _ _ _ _ Hw i j a b ca cb n fl) as (fl' & Hfl' & Hv);
      [done..|].
    rewrite <- Hlast in Hfl'.
    exists fl'. split; [done|]. split; [done|].
    intros v val new Hval Hset. rewrite <- Hv in Hval.
    unfold flag_at in Hfl'.
    destruct (fsets h' !! flagSet cb) as [fz|] eqn:Hfz; [|done]. simpl in Hfl'.
    by apply (flag_settable cs (flagSet cb) h' fz n fl' val v new).
  - intros n Hall b cb Hin Hb. rewrite Hlast.
    rewrite (walk_absent _ _ _ _ n Hw Hall). simpl. by eapply Hall.
Qed.

End inheritance.

Section sharing.
Context `{GoRuntime}.

(** C10: the flag a descendant inherits holds the value object of the
    ancestor: when the loop of [Execute] resolves a command in a tree the
    builder made, any two nodes of the path it has gone down whose flag
    sets carry the same name hold the same value object under it, and the
    text read through either flag set is the same. *)
Theorem inherited_flag_shares_value s fuel c args mws h command args' mws' h' :
  assembled s →
  Execute_loop fuel (cmds s) c args mws h = Done (command, args', mws') h' →
  ∃ p z,
    walk (cmds s) p (Config c args mws h) z ∧ stops (cmds s) z args' h' ∧
    at_node z = command ∧
    ∀ a b ca cb n f1 f2,
      a ∈ p → b ∈ p →
      cmds s !! a = Some ca → cmds s !! b = Some cb →
      flag_at h' (flagSet ca) n = Some f1 →
      flag_at h' (flagSet cb) n = Some f2 →
      Value_of f1 = Value_of f2 ∧
      Lookup_String h' (flagSet ca) n = Lookup_String h' (flagSet cb) n.
Proof.
  intros Hwb%assembled_well_built HE.
  destruct (Execute_loop_inv (cmds s) fuel (Config c args mws h) _ _ _ _ HE)
    as (p & z & Hw & Hs & Hz & _).
  exists p, z. split; [done|]. split; [done|]. split; [done|].
  pose proof (stops_keeps _ _ _ _ Hs) as Hlast.
  destruct (walk_NoDup s p _ z Hwb Hw) as [_ Hnd].
  intros a b ca cb n f1 f2 Ha Hb Hca Hcb Hf1 Hf2.
  assert (Value_of f1 = Value_of f2) as Hv.
  { apply list_elem_of_lookup in Ha as [i Hi]. apply list_elem_of_lookup in Hb as [j Hj].
    rewrite Hlast in Hf1, Hf2.
    destruct (decide (i ≤ j)%nat) as [Hij|Hij].
    - by apply (walk_shares _ _ _ _ Hw Hnd i j a b ca cb n f1 f2).
    - symmetry. apply (walk_shares _ _ _ _ Hw Hnd j i b a cb ca n f2 f1); [lia|done..]. }
  split; [done|].
  rewrite (Lookup_String_flag_at h' (flagSet ca) n f1) by done.
  rewrite (Lookup_String_flag_at h' (flagSet cb) n f2) by done.
  by rewrite Hv.
Qed.

End sharing.

(** ** Flags no flag set has *)

Section unknown_flags.
Context `{GoRuntime}.

Lemma flags_parsed_Done call f h hk :
  flags_parsed call f h hk →
  written hk = written h ∧
  (length (Args hk f) ≤ length (Args h f))%nat ∧
  ∀ fuel, (length (Args h f) < fuel)%nat →
    ∃ fuel', (length (Args hk f) < fuel')%nat ∧
      Parse_loop fuel call f h = Parse_loop fuel' call f hk.
Proof.
  induction 1 as [h|h h1 h2 Hone Hrest (IHw & IHl & IHf)].
  - split; [done|]. split; [done|]. intros fuel Hfuel. by exists fuel.
  - pose proof (parseOne_Done _ _ _ _ _ _ Hone (or_introl eq_refl)) as [_ Hlen].
    pose proof (parseOne_quiet _ _ _ _ _ _ Hone (or_introl eq_refl)) as [Hw _].
    split; [congruence|]. split; [lia|].
    intros fuel Hfuel. destruct fuel as [|fuel]; [lia|].
    destruct (IHf fuel) as (fuel' & Hfuel' & Heq); [lia|].
    exists fuel'. split; [done|]. cbn [Parse_loop].
    by rewrite (bind_eq _ _ _ _ _ Hone).
Qed.

(** The loop of [Parse] at an undeclared flag, for a flag set that exits
    on errors and whose [Usage] is the [usage] of the node. *)
Lemma Parse_loop_undeclared cs c cmd f h fs double n value more l fuel :
  cs !! c = Some cmd →
  flagSet cmd = f →
  fsets h !! f = Some fs →
  fs_args fs = flag_token double n value :: more →
  valid_name n = true →
  formal fs !! n = None →
  errorHandling fs = ExitOnError →
  FlagSet_Usage fs = Some c →
  ancestry cs c l →
  (∀ m a, subCommands cmd !! m = Some a → is_Some (cs !! a)) →
  ∃ hf,
    Parse_loop (S fuel) (usage cs) f h
    = Exit (if String.eqb n "help" || String.eqb n "h" then 0 else 2) hf ∧
    written hf
    = written h ++
      (if String.eqb n "help" || String.eqb n "h" then []
       else [(Output fs, "flag provided but not defined: -" +:+ n +:+ LF)]) ++
      [(Output fs, usage_text cs l.*2 cmd fs (vals h) +:+ LF)].
Proof.
  intros Hc <- Hf Hargs Hv Hnone Heh HU Hanc Hch.
  cbn [Parse_loop].
  set (fs1 := set_args more fs).
  set (h1 := set_fsets <[flagSet cmd := fs1]> h).
  assert (fsets h1 !! flagSet cmd = Some fs1) as Hf1
    by (unfold h1; cbn; by rewrite lookup_insert_eq).
  assert (∀ k : bool * option error → M hstate (option error),
            bind (parseOne (usage cs) (flagSet cmd)) k h
            = bind (if String.eqb n "help" || String.eqb n "h" then
                      FlagSet_usage (usage cs) (flagSet cmd) ;;; ret (false, Some ErrHelp)
                    else
                      e <- failf (usage cs) (flagSet cmd)
                             ("flag provided but not defined: -" +:+ n) ;;
                      ret (false, Some e)) k h1) as ->.
  { intros k. unfold bind at 1 2.
    by rewrite (parseOne_undeclared (usage cs) (flagSet cmd) h fs double n value more). }
  destruct (String.eqb n "help" || String.eqb n "h").
  - unfold FlagSet_usage.
    erewrite bind_eq.
    2:{ erewrite bind_eq.
        2:{ erewrite bind_eq by (by apply deref_fs_eq). cbn [FlagSet_Usage fs1 set_args].
            rewrite HU. by eapply (usage_Done cs c cmd fs1 l). }
        reflexivity. }
    cbn beta iota.
    erewrite bind_eq by (apply deref_fs_eq; cbn; by rewrite lookup_insert_eq).
    cbn. rewrite Heh. eexists. split; [reflexivity|]. cbn.
    by rewrite (usage_text_formal _ _ _ fs).
  - unfold failf, FlagSet_sprintf, FlagSet_usage.
    erewrite bind_eq.
    2:{ erewrite bind_eq.
        2:{ erewrite bind_eq.
            2:{ erewrite bind_eq by (by apply deref_fs_eq).
                erewrite bind_eq by reflexivity. reflexivity. }
            erewrite bind_eq.
            2:{ erewrite bind_eq by (apply deref_fs_eq; cbn; exact Hf1).
                cbn [FlagSet_Usage fs1 set_args]. rewrite HU.
                eapply (usage_Done cs c cmd fs1 l); [done|cbn; exact Hf1|done..]. }
            reflexivity. }
        reflexivity. }
    cbn beta iota.
    erewrite bind_eq by (apply deref_fs_eq; cbn; by rewrite lookup_insert_eq).
    cbn. rewrite Heh. eexists. split; [reflexivity|]. cbn.
    rewrite (usage_text_formal _ _ _ fs) by done. by rewrite <- app_assoc.
Qed.

(** C5, as the code has it: at a node the traversal reaches, a flag token
    that [Parse] comes to, after the flags it has read there, and that
    names no flag of the node's flag set ends the process: with status 2
    after the error and the usage, and, when the name is [help] or [h],
    with status 0 after the usage alone; and an error [Parse] would return
    is never returned by [Execute], which exits with status 2 instead. *)
Theorem undeclared_flag_exits cs c root ctx arg0 args h p z cmd :
  cs !! c = Some root →
  walk cs p (Config c args (middlewares root) h) z →
  cs !! at_node z = Some cmd →
  (∀ fs0 hk fs double n value more l,
     fsets (st z) !! flagSet cmd = Some fs0 →
     flags_parsed (usage cs) (flagSet cmd)
       (set_fsets <[flagSet cmd := set_args (rest z) (set_parsed fs0)]> (st z)) hk →
     fsets hk !! flagSet cmd = Some fs →
     fs_args fs = flag_token double n value :: more →
     valid_name n = true →
     formal fs !! n = None →
     errorHandling fs = ExitOnError →
     FlagSet_Usage fs = Some (at_node z) →
     ancestry cs (at_node z) l →
     (∀ m a, subCommands cmd !! m = Some a → is_Some (cs !! a)) →
     ∃ hf,
       Execute cs c ctx (arg0 :: args) h
       = Exit (if String.eqb n "help" || String.eqb n "h" then 0 else 2) hf ∧
       written hf
       = written (st z) ++
         (if String.eqb n "help" || String.eqb n "h" then []
          else [(Output fs, "flag provided but not defined: -" +:+ n +:+ LF)]) ++
         [(Output fs, usage_text cs l.*2 cmd fs (vals hk) +:+ LF)]) ∧
  (∀ e h1,
     Parse (usage cs) (flagSet cmd) (rest z) (st z) = Done (Some e) h1 →
     Execute cs c ctx (arg0 :: args) h = Exit 2 h1).
Proof.
  intros Hc Hw Hz. split.
  - intros fs0 hk fs double n value more l Hfs0 Hread Hfs Hargs Hv Hnone Heh HU Hanc Hch.
    destruct (flags_parsed_Done _ _ _ _ Hread) as (Hwr & _ & Hfuel).
    destruct (Hfuel (S (length (rest z)))) as (fuel' & Hfuel' & Heq).
    { rewrite Args_insert. simpl. lia. }
    destruct fuel' as [|fuel']; [lia|].
    destruct (Parse_loop_undeclared cs (at_node z) cmd (flagSet cmd) hk fs double n value
                more l fuel') as (hf & HP & Hwf); [done..|].
    exists hf. split.
    + rewrite (Execute_parse_failure cs c root ctx arg0 args h p z cmd
                 (Exit (if String.eqb n "help" || String.eqb n "h" then 0 else 2) hf)
                 Hc Hw Hz); [done| |done].
      unfold Parse. rewrite (bind_eq _ _ _ _ _ (update_fs_eq _ _ _ _ Hfs0)).
      by rewrite Heq.
    + rewrite Hwf, Hwr. done.
  - intros e h1 HP.
    by rewrite (Execute_parse_failure cs c root ctx arg0 args h p z cmd _ Hc Hw Hz HP).
Qed.

End unknown_flags.

(** * The properties on runs of the example programs *)

Module Runs.
Import Examples.
#[local] Existing Instance plain_runtime.

(** The scenarios of the example programs. *)
Example repos_alone_exits_0 :
  result_of (run github_main ["prog"; "repos"]) = Some (inl (inr 0%Z)).
Proof. vm_compute. reflexivity. Qed.

Example repos_bogus_exits_2 :
  result_of (run github_main ["prog"; "repos"; "bogus"]) = Some (inl (inr 2%Z)).
Proof. vm_compute. reflexivity. Qed.

Example echo_prints_in_order :
  written_of (run echo_main echo_args)
  = [(os_Stdout, "root before" +:+ LF); (os_Stdout, "echo before" +:+ LF);
     (os_Stdout, "hello world" +:+ LF);
     (os_Stdout, "echo after" +:+ LF); (os_Stdout, "root after" +:+ LF)].
Proof. vm_compute. reflexivity. Qed.

Example bad_flag_syntax_exits_2 :
  result_of (run echo_main ["prog"; "---x"]) = Some (inl (inr 2%Z)).
Proof. vm_compute. reflexivity. Qed.

Example double_dash_ends_flags :
  written_of (run echo_main ["prog"; "echo"; "--"; "-verbose"])
  = [(os_Stdout, "root before" +:+ LF); (os_Stdout, "echo before" +:+ LF);
     (os_Stdout, "-verbose" +:+ LF);
     (os_Stdout, "echo after" +:+ LF); (os_Stdout, "root after" +:+ LF)].
Proof. vm_compute. reflexivity. Qed.

Lemma echo_walk : walk echo_cs [0; 1] echo_x echo_z.
Proof.
  apply (walk_down echo_cs echo_x echo_z echo_z [1]); [|apply (walk_here echo_cs echo_z)].
  apply (descend_child echo_cs 0 (node echo_cs 0) (tail echo_args)
           (middlewares (node echo_cs 0)) echo_h echo_h1 (flags_of echo_h1 0)
           "echo" ["--case=upper"; "hello"; "world"] 1 (node echo_cs 1) echo_h2);
    vm_compute; reflexivity.
Qed.

Lemma echo_stops : stops echo_cs echo_z ["hello"; "world"] echo_h3.
Proof.
  apply (stops_at echo_cs 1 (node echo_cs 1) ["--case=upper"; "hello"; "world"]
           (acc echo_z) echo_h2 echo_h3 (flags_of echo_h3 1)); vm_compute; reflexivity.
Qed.

(** C1 at the run [prog -verbose echo --case=upper hello world]. *)
Lemma Execute_dispatches_witness :
  walk echo_cs [0; 1] echo_x echo_z ∧
  stops echo_cs echo_z ["hello"; "world"] echo_h3 ∧
  Execute echo_cs 0 context_Background echo_args echo_h
  = foldr (λ m k, m k) PrintHandler (acc echo_z) context_Background 1
      ["hello"; "world"] echo_h3.
Proof.
  split; [exact echo_walk|]. split; [exact echo_stops|].
  destruct (Execute_dispatches echo_cs 0 (node echo_cs 0) context_Background "prog"
              (tail echo_args) echo_h eq_refl) as [Hrun _].
  apply (Hrun [0; 1] echo_z (node echo_cs 1) PrintHandler ["hello"; "world"] echo_h3
           echo_walk echo_stops eq_refl eq_refl).
Defined.

(** C3 at the same run: the root's middleware is outside the one of [echo]. *)
Lemma middlewares_root_outermost_witness :
  acc echo_z = [Around "root"; Around "echo"] ∧
  Execute echo_cs 0 context_Background echo_args echo_h
  = bracketed [(Println "root before", Println "root after");
               (Println "echo before", Println "echo after")]
      (PrintHandler context_Background 1 ["hello"; "world"]) echo_h3.
Proof.
  split; [reflexivity|].
  apply (middlewares_root_outermost echo_cs 0 (node echo_cs 0) context_Background "prog"
           (tail echo_args) echo_h [0; 1] echo_z (node echo_cs 1) PrintHandler
           ["hello"; "world"] echo_h3);
    [reflexivity|exact echo_walk|exact echo_stops|reflexivity|reflexivity|reflexivity].
Defined.

Ltac by_run := vm_compute; reflexivity.

Lemma bogus_walk : walk github_cs [0; 1] bogus_x bogus_z.
Proof.
  apply (walk_down github_cs bogus_x bogus_z bogus_z [1]);
    [|apply (walk_here github_cs bogus_z)].
  apply (descend_child github_cs 0 (node github_cs 0) ["repos"; "bogus"]
           (middlewares (node github_cs 0)) github_h (parsed github_cs bogus_x)
           (flags_of (parsed github_cs bogus_x) 0)
           "repos" ["bogus"] 1 (node github_cs 1)); by_run.
Qed.

Lemma bogus_stops : stops github_cs bogus_z ["bogus"] (parsed github_cs bogus_z).
Proof.
  apply (stops_at github_cs 1 (node github_cs 1) ["bogus"] (acc bogus_z) (st bogus_z)
           (parsed github_cs bogus_z) (flags_of (parsed github_cs bogus_z) 1)); by_run.
Qed.

Lemma repos_ancestry : ancestry github_cs 1 [(0, "prog"); (1, "repos")].
Proof.
  apply (ancestry_child github_cs 1 (node github_cs 1) 0 [(0, "prog")]);
    [reflexivity|reflexivity|].
  apply (ancestry_root github_cs 0 (node github_cs 0)); reflexivity.
Qed.

Lemma children_allocated (cs : gmap addr command) (cmd : command) :
  bool_decide (map_Forall (λ _ a, is_Some (cs !! a)) (subCommands cmd)) = true →
  ∀ (n : string) (a : addr), subCommands cmd !! n = Some a → is_Some (cs !! a).
Proof. intros Hb n a Hn. apply bool_decide_eq_true_1 in Hb. exact (Hb n a Hn). Qed.

(** C4 at the run [prog repos bogus]: [repos] has no handler and [bogus]
    names no child of it. *)
Lemma router_exits_witness :
  handler (node github_cs 1) = None ∧
  ∃ hf,
    Execute github_cs 0 context_Background ["prog"; "repos"; "bogus"] github_h = Exit 2 hf ∧
    written hf
    = [(os_Stderr, "command provided but not defined: bogus" +:+ LF);
       (os_Stderr,
        "Usage: prog repos [OPTIONS] COMMAND" +:+ LF +:+ LF
        +:+ "Manage GitHub repositories" +:+ LF +:+ LF
        +:+ "Options:" +:+ LF
        +:+ "  -verbose" +:+ LF +:+ "    " +:+ TAB +:+ "Enable verbose output" +:+ LF +:+ LF
        +:+ "Subcommands:" +:+ LF
        +:+ "  list" +:+ LF +:+ TAB +:+ "List repositories of a GitHub user" +:+ LF)].
Proof.
  split; [reflexivity|].
  destruct (router_exits github_cs 0 (node github_cs 0) context_Background "prog"
              ["repos"; "bogus"] github_h [0; 1] bogus_z (node github_cs 1) ["bogus"]
              (parsed github_cs bogus_z) (flags_of (parsed github_cs bogus_z) 1)
              [(0, "prog"); (1, "repos")]
              eq_refl bogus_walk bogus_stops eq_refl eq_refl eq_refl repos_ancestry
              (children_allocated github_cs (node github_cs 1) eq_refl))
    as (hf & HE & Hw).
  exists hf. split; [exact HE|]. rewrite Hw. vm_compute. reflexivity.
Defined.

Lemma list_walk : walk github_cs [0; 1; 2] list_x list_z.
Proof.
  apply (walk_down github_cs list_x list_y list_z [1; 2]).
  { apply (descend_child github_cs 0 (node github_cs 0) ["repos"; "list"]
             (middlewares (node github_cs 0)) github_h (parsed github_cs list_x)
             (flags_of (parsed github_cs list_x) 0)
             "repos" ["list"] 1 (node github_cs 1)); by_run. }
  apply (walk_down github_cs list_y list_z list_z [2]);
    [|apply (walk_here github_cs list_z)].
  apply (descend_child github_cs 1 (node github_cs 1) ["list"]
           (acc list_y) (st list_y) (parsed github_cs list_y)
           (flags_of (parsed github_cs list_y) 1)
           "list" [] 2 (node github_cs 2)); by_run.
Qed.

Lemma list_stops : stops github_cs list_z [] (parsed github_cs list_z).
Proof.
  apply (stops_at github_cs 2 (node github_cs 2) [] (acc list_z) (st list_z)
           (parsed github_cs list_z) (flags_of (parsed github_cs list_z) 2)); by_run.
Qed.

(** C6 at the run [prog repos list]: the handler of [list] fails and its
    error is what [Execute] returns, with nothing written. *)
Lemma handler_error_is_returned_witness :
  Execute github_cs 0 context_Background ["prog"; "repos"; "list"] github_h
  = Done (Some (errors_New "missing required flag: user")) (parsed github_cs list_z) ∧
  written (parsed github_cs list_z) = [].
Proof.
  split; [|reflexivity].
  apply (handler_error_is_returned github_cs 0 (node github_cs 0) context_Background
           "prog" ["repos"; "list"] github_h [0; 1; 2] list_z (node github_cs 2)
           FailHandler [] (parsed github_cs list_z)
           (errors_New "missing required flag: user") (parsed github_cs list_z));
    [reflexivity|exact list_walk|exact list_stops|reflexivity|reflexivity|reflexivity].
Defined.

(** C7 on the node [repos] as built. *)
Lemma usage_renders_witness :
  ∃ h', usage github_cs 1 github_h = Done tt h' ∧
        written h'
        = [(os_Stderr,
            "Usage: prog repos COMMAND" +:+ LF +:+ LF
            +:+ "Manage GitHub repositories" +:+ LF +:+ LF
            +:+ "Subcommands:" +:+ LF
            +:+ "  list" +:+ LF +:+ TAB +:+ "List repositories of a GitHub user" +:+ LF)].
Proof.
  destruct (usage_renders github_cs 1 (node github_cs 1) (flags_of github_h 1)
              [(0, "prog"); (1, "repos")] github_h
              eq_refl eq_refl repos_ancestry
              (children_allocated github_cs (node github_cs 1) eq_refl))
    as (h' & Hu & Hw & _).
  exists h'. split; [exact Hu|]. rewrite Hw. vm_compute. reflexivity.
Defined.

(** C5 with status 2 for every undeclared flag fails on [prog -h]: [h] is
    not declared, and the process exits with status 0. *)
Lemma undeclared_help_exits_zero :
  flag_at echo_h 0 "h" = None ∧
  result_of (run echo_main ["prog"; "-h"]) = Some (inl (inr 0%Z)) ∧
  result_of (run echo_main ["prog"; "-h"]) ≠ Some (inl (inr 2%Z)).
Proof. split; [reflexivity|]. split; [by_run|]. vm_compute. discriminate. Qed.

Lemma flags_well_formed (fs : FlagSet) (h : hstate) :
  bool_decide (map_Forall (λ m fl, HasPrefix_minus m = false ∧ Contains_eq m = false
                                   ∧ is_Some (vals h !! Value_of fl)) (formal fs)) = true →
  ∀ m fl, formal fs !! m = Some fl →
    HasPrefix_minus m = false ∧ Contains_eq m = false ∧ is_Some (vals h !! Value_of fl).
Proof. intros Hb m fl Hm. apply bool_decide_eq_true_1 in Hb. exact (Hb m fl Hm). Qed.

(** C8 at the run [prog echo] of that program. *)
Lemma duplicate_flag_panics_witness :
  is_Some (flag_at clash_h 0 "verbose") ∧ is_Some (flag_at clash_h 1 "verbose") ∧
  ∃ m h', Execute clash_cs 0 context_Background ["prog"; "echo"] clash_h
          = Panic ("echo flag redefined: " +:+ m) h'.
Proof.
  split; [exact (ex_intro _ _ eq_refl)|]. split; [exact (ex_intro _ _ eq_refl)|].
  destruct (duplicate_flag_panics clash_cs 0 (node clash_cs 0) context_Background "prog"
              ["echo"] clash_h [0] clash_x (node clash_cs 0) (parsed clash_cs clash_x)
              (flags_of (parsed clash_cs clash_x) 0) "echo" [] 1 (node clash_cs 1)
              (flags_of (parsed clash_cs clash_x) 1) "verbose"
              eq_refl (walk_here clash_cs clash_x) eq_refl eq_refl eq_refl eq_refl
              eq_refl eq_refl eq_refl
              (ex_intro _ _ eq_refl) (ex_intro _ _ eq_refl)
              (flags_well_formed (flags_of (parsed clash_cs clash_x) 0)
                 (parsed clash_cs clash_x) eq_refl) eq_refl)
    as (m & h' & _ & _ & HE).
  exists m, h'. exact HE.
Defined.

(** C9 on the first program as built: [echo] is the child at 1, with its
    handler, flag and middleware. *)
Lemma SubCommand_replaces_witness :
  ∃ a2 f2 s',
    SubCommand 0 "echo" (built echo_main ["prog"]) = Done a2 s' ∧
    a2 ≠ 1 ∧
    (subCommands <$> cmds s' !! 0) = Some (<["echo" := a2]> (subCommands (node echo_cs 0))) ∧
    cmds s' !! a2 = Some (mkCommand "echo" "" [] None ∅ f2 (Some 0)) ∧
    fsets (heap s') !! f2 = Some (set_Usage (Some a2) (NewFlagSet "echo" ExitOnError)).
Proof.
  destruct (SubCommand_replaces 0 "echo" (built echo_main ["prog"]) (node echo_cs 0) 1
              eq_refl eq_refl (ex_intro _ _ eq_refl))
    as (a2 & f2 & s' & HS & Hne & _ & _ & Hsub & Hnew & Hfs & _).
  exists a2, f2, s'. repeat split; assumption.
Defined.

Ltac grows := apply (bool_decide_unpack _); by_run.

Lemma github_assembled : assembled (built github_main ["prog"]).
Proof.
  pose proof (assembled_start ["prog"]) as A.
  eapply (assembled_Root ["prog"]) in A; [|by_run].
  eapply (assembled_Flags 0 (FlagSet_Bool "verbose" false "Enable verbose output")) in A;
    [|by_run|grows].
  eapply (assembled_Help 0 "Example command") in A; [|by_run].
  eapply (assembled_SubCommand 0 "repos") in A; [|by_run].
  eapply (assembled_Help 1 "Manage GitHub repositories") in A; [|by_run].
  eapply (assembled_SubCommand 1 "list") in A; [|by_run].
  eapply (assembled_Action 2 (Some FailHandler)) in A; [|by_run].
  eapply (assembled_Flags 2 (FlagSet_String "user" "" "GitHub user")) in A; [|by_run|grows].
  eapply (assembled_Help 2 "List repositories of a GitHub user") in A; [|by_run].
  exact A.
Qed.

Lemma list_descend : descend github_cs list_x list_y.
Proof.
  apply (descend_child github_cs 0 (node github_cs 0) ["repos"; "list"]
           (middlewares (node github_cs 0)) github_h (parsed github_cs list_x)
           (flags_of (parsed github_cs list_x) 0)
           "repos" ["list"] 1 (node github_cs 1)); by_run.
Qed.

Lemma echo_descend : descend echo_cs echo_x echo_z.
Proof.
  apply (descend_child echo_cs 0 (node echo_cs 0) (tail echo_args)
           (middlewares (node echo_cs 0)) echo_h echo_h1 (flags_of echo_h1 0)
           "echo" ["--case=upper"; "hello"; "world"] 1 (node echo_cs 1) echo_h2);
    by_run.
Qed.

Lemma echo_loop :
  Execute_loop 6 echo_cs 0 (tail echo_args) (middlewares (node echo_cs 0)) echo_h
  = Done (1, ["hello"; "world"], acc echo_z) echo_h3.
Proof.
  apply (Execute_loop_resolved echo_cs [0; 1] echo_x echo_z ["hello"; "world"] echo_h3 6
           echo_walk echo_stops). simpl. lia.
Qed.

(** X4 on the node [list] of the second program as built. *)
Lemma usage_returns_on_built_trees_witness :
  ∃ fs l,
    fsets github_h !! flagSet (node github_cs 2) = Some fs ∧
    ancestry github_cs 2 l ∧
    usage github_cs 2 github_h
    = Done tt (Fprint (Output fs)
                 (usage_text github_cs l.*2 (node github_cs 2) fs (vals github_h) +:+ LF)
                 (usage_state (flagSet (node github_cs 2)) fs github_h)).
Proof.
  exact (usage_returns_on_built_trees (built github_main ["prog"]) 2 (node github_cs 2)
           github_assembled eq_refl).
Defined.

(** X5 at the first descent of the run [prog repos list]. *)
Lemma descent_consumes_the_child_name_witness :
  parent (node github_cs 1) = Some 0 ∧
  ("repos" :: ["list"]) `suffix_of` ["repos"; "list"].
Proof.
  exact (descent_consumes_the_child_name (built github_main ["prog"]) list_x list_y
           (node github_cs 1) github_assembled list_descend eq_refl).
Defined.

(** X6 at the run [prog repos list]. *)
Lemma usage_names_the_path_witness :
  ∃ l, ancestry github_cs 2 l ∧ l.*1 = [0; 1; 2].
Proof.
  exact (usage_names_the_path (built github_main ["prog"]) [0; 1; 2] list_x list_z
           (node github_cs 0) github_assembled eq_refl eq_refl list_walk).
Defined.

(** X7 at the same run. *)
Lemma path_flagSets_distinct_witness :
  NoDup [0; 1; 2] ∧ NoDup (path_flagSets github_cs [0; 1; 2]).
Proof.
  exact (path_flagSets_distinct (built github_main ["prog"]) [0; 1; 2] list_x list_z
           github_assembled list_walk).
Defined.

(** X8 at the run [prog -verbose echo --case=upper hello world]. *)
Lemma traversal_is_silent_witness : written echo_h3 = written echo_h.
Proof.
  exact (traversal_is_silent echo_cs 6 0 (tail echo_args) (middlewares (node echo_cs 0))
           echo_h 1 ["hello"; "world"] (acc echo_z) echo_h3 echo_loop).
Defined.

(** X9 at the same run. *)
Lemma handler_args_are_a_suffix_witness :
  ["hello"; "world"] `suffix_of` tail echo_args ∧
  middlewares (node echo_cs 0) `prefix_of` acc echo_z.
Proof.
  exact (handler_args_are_a_suffix echo_cs 6 0 (tail echo_args)
           (middlewares (node echo_cs 0)) echo_h 1 ["hello"; "world"] (acc echo_z) echo_h3
           echo_loop).
Defined.

(** X11 at the same run: the root keeps [verbose] as it declared it, and
    does not get [case]. *)
Lemma traversal_keeps_declarations_witness :
  flag_at echo_h3 0 "verbose" = Some (mkFlag "Enable verbose output" 0 "false") ∧
  flag_at echo_h3 0 "case" = flag_at echo_h 0 "case".
Proof.
  destruct (traversal_keeps_declarations echo_cs [0; 1] echo_x echo_z ["hello"; "world"]
              echo_h3 echo_walk echo_stops) as [Hkeep Hframe].
  split.
  - exact (Hkeep 0 "verbose" (mkFlag "Enable verbose output" 0 "false") eq_refl).
  - apply (Hframe 0 "case"). apply (bool_decide_unpack _). by_run.
Defined.

Lemma flags_persist (h h' : hstate) :
  bool_decide (map_Forall (λ g fs,
      from_option (λ fs', bool_decide (dom (formal fs) ⊆ dom (formal fs'))) false
        (fsets h' !! g) = true) (fsets h)) = true →
  ∀ g m, is_Some (flag_at h g m) → is_Some (flag_at h' g m).
Proof.
  intros Hb g m [fl Hfl]. apply bool_decide_eq_true_1 in Hb.
  unfold flag_at in *. destruct (fsets h !! g) as [fs|] eqn:Hg; [|done]. simpl in Hfl.
  specialize (Hb g fs Hg). simpl in Hb.
  destruct (fsets h' !! g) as [fs'|]; [|done]. simpl in *.
  apply bool_decide_eq_true_1 in Hb. apply elem_of_dom. apply Hb. apply elem_of_dom. eauto.
Qed.

Lemma echo_again_facts :
  Parse (usage echo_cs) (flagSet (node echo_cs 0)) ["echo"] echo_done = Done None echo_again ∧
  fsets echo_again !! flagSet (node echo_cs 0) = Some (flags_of echo_again 0) ∧
  fs_args (flags_of echo_again 0) = ["echo"] ∧
  fsets echo_again !! flagSet (node echo_cs 1) = Some (flags_of echo_again 1) ∧
  undef (flags_of echo_again 1) = ∅ ∧
  fs_name (flags_of echo_again 1) = "echo".
Proof. split_and!; by_run. Qed.

Lemma echo_done_flags g m :
  is_Some (flag_at (st echo_z) g m) → is_Some (flag_at echo_done g m).
Proof. revert g m. apply flags_persist. by_run. Qed.

Lemma echo_again_well_formed m fl :
  formal (flags_of echo_again 0) !! m = Some fl →
  HasPrefix_minus m = false ∧ Contains_eq m = false
  ∧ is_Some (vals echo_again !! Value_of fl).
Proof. revert m fl. apply flags_well_formed. by_run. Qed.

(** X12: the first program, run once with [prog -verbose echo --case=upper
    hello world], panics when [Execute] is called again with [prog echo]. *)
Lemma second_Execute_panics_witness :
  ∃ m hp, Execute echo_cs 0 context_Background ["prog"; "echo"] echo_done
          = Panic ("echo flag redefined: " +:+ m) hp.
Proof.
  destruct echo_again_facts as (HP & Hfs & Hargs & Hcfs & Hu & Hname).
  destruct (second_Execute_panics echo_cs 0 (node echo_cs 0) context_Background
              (tail echo_args) echo_h echo_z (node echo_cs 1) "verbose" echo_done
              "prog" ["echo"] echo_again (flags_of echo_again 0) "echo" []
              (flags_of echo_again 1)
              eq_refl echo_descend eq_refl (ex_intro _ _ eq_refl)
              echo_done_flags HP Hfs Hargs eq_refl Hcfs Hu echo_again_well_formed)
    as (m & hp & HE).
  exists m, hp. rewrite HE. unfold redefined. rewrite Hname. reflexivity.
Defined.

Lemma guard_walk : walk guard_cs [0; 1] guard_x guard_z.
Proof.
  apply (walk_down guard_cs guard_x guard_z guard_z [1]);
    [|apply (walk_here guard_cs guard_z)].
  apply (descend_child guard_cs 0 (node guard_cs 0) ["echo"; "hi"]
           (middlewares (node guard_cs 0)) guard_h (parsed guard_cs guard_x)
           (flags_of (parsed guard_cs guard_x) 0)
           "echo" ["hi"] 1 (node guard_cs 1)); by_run.
Qed.

Lemma guard_stops : stops guard_cs guard_z ["hi"] (parsed guard_cs guard_z).
Proof.
  apply (stops_at guard_cs 1 (node guard_cs 1) ["hi"] (acc guard_z) (st guard_z)
           (parsed guard_cs guard_z) (flags_of (parsed guard_cs guard_z) 1)); by_run.
Qed.

(** X13 at the run [prog echo hi] of the guarded program: the middleware
    of the root runs, the handler and the middleware inside do not. *)
Lemma middleware_cuts_the_chain_witness :
  ∃ h', Execute guard_cs 0 context_Background ["prog"; "echo"; "hi"] guard_h
        = Done (Some (errors_New "denied")) h' ∧
        written h' = [(os_Stdout, "root before" +:+ LF); (os_Stdout, "root after" +:+ LF)].
Proof.
  eexists. split.
  - rewrite (middleware_cuts_the_chain guard_cs 0 (node guard_cs 0) context_Background
               "prog" ["echo"; "hi"] guard_h [0; 1] guard_z (node guard_cs 1) PrintHandler
               ["hi"] (parsed guard_cs guard_z) [Around "root"] Deny [Around "echo"]
               (λ _ _ _, ret (Some (errors_New "denied")))
               eq_refl guard_walk guard_stops eq_refl eq_refl eq_refl (λ _, eq_refl)).
    by_run.
  - by_run.
Defined.

(** X15 on the first program as built: a second root. *)
Lemma Root_takes_over_CommandLine_witness :
  ∃ c s',
    Root ["prog"] (built echo_main ["prog"]) = Done c s' ∧
    c ≠ 0 ∧
    (flagSet <$> cmds s' !! 0) = Some flag_CommandLine ∧
    (flagSet <$> cmds s' !! c) = Some flag_CommandLine ∧
    (FlagSet_Usage <$> fsets (heap s') !! flag_CommandLine) = Some (Some c).
Proof.
  destruct (Root_takes_over_CommandLine "prog" [] (built echo_main ["prog"])
              (ex_intro _ _ eq_refl)) as (c & s' & HR & Hnew & Hc & HU & Hold & _).
  exists c, s'. split; [exact HR|].
  assert (c ≠ 0) as Hne.
  { intros ->. vm_compute in Hnew. discriminate Hnew. }
  split; [exact Hne|]. split.
  - rewrite (Hold 0 (not_eq_sym Hne)). reflexivity.
  - split; [|exact HU]. rewrite Hc. reflexivity.
Defined.

(** X16 on a root alone. *)
Lemma Flags_twice_panics_witness :
  ∃ s', (Flags 0 (FlagSet_String "level" "info" "Log level") ;;;
         Flags 0 (FlagSet_Bool "level" false "Log level")) (built Root ["prog"])
        = Panic "prog flag redefined: level" s'.
Proof.
  destruct (Flags_twice_panics 0 "level" "info" "Log level" false "Log level"
              (built Root ["prog"]) (node (cmds (built Root ["prog"])) 0)
              (flags_of (heap (built Root ["prog"])) 0)
              eq_refl eq_refl eq_refl eq_refl eq_refl eq_refl)
    as (s' & HP).
  exists s'. exact HP.
Defined.

(** X17 at the run [prog repos list]. *)
Lemma traversal_terminates_witness :
  Execute_loop 3 github_cs 0 ["repos"; "list"] (middlewares (node github_cs 0)) github_h
  ≠ Hang.
Proof.
  apply (traversal_terminates github_cs 3 0 ["repos"; "list"] (middlewares (node github_cs 0))
           github_h (wb_tree _ (assembled_well_built _ github_assembled))).
  simpl. lia.
Defined.

(** X18 on the first program: [prog -- echo hi] goes down into [echo]. *)
Lemma terminator_ends_one_level_witness :
  Execute_loop 4 echo_cs 0 ["--"; "echo"; "hi"] (middlewares (node echo_cs 0)) echo_h
  = (VisitAll_Var (flagSet (node echo_cs 1)) (VisitAll (flags_of echo_h 0)) ;;;
     Execute_loop 3 echo_cs 1 ["hi"] (middlewares (node echo_cs 0) ++ middlewares (node echo_cs 1)))
      (set_fsets <[flagSet (node echo_cs 0) :=
                     set_args ["echo"; "hi"] (set_parsed (flags_of echo_h 0))]> echo_h).
Proof.
  exact (terminator_ends_one_level echo_cs 0 (node echo_cs 0) (flags_of echo_h 0) "echo"
           ["hi"] 1 (node echo_cs 1) 3 (middlewares (node echo_cs 0)) echo_h
           eq_refl eq_refl eq_refl eq_refl).
Defined.

Lemma echo_assembled : assembled (built echo_main echo_args).
Proof.
  pose proof (assembled_start echo_args) as A.
  eapply (assembled_Root echo_args) in A; [|by_run].
  eapply (assembled_Flags 0 (FlagSet_Bool "verbose" false "Enable verbose output")) in A;
    [|by_run|grows].
  eapply (assembled_Help 0 "Example command") in A; [|by_run].
  eapply (assembled_Middlewares 0 [Around "root"]) in A; [|by_run].
  eapply (assembled_SubCommand 0 "echo") in A; [|by_run].
  eapply (assembled_Action 1 (Some PrintHandler)) in A; [|by_run].
  eapply (assembled_Flags 1 (FlagSet_String "case" "" "Case to use (upper, lower)")) in A;
    [|by_run|grows].
  eapply (assembled_Middlewares 1 [Around "echo"]) in A; [|by_run].
  exact A.
Qed.

Lemma no_flag (cs : gmap addr command) (h : hstate) (n : string) :
  bool_decide (map_Forall (λ _ ca, flag_at h (flagSet ca) n = None) cs) = true →
  ∀ a ca, cs !! a = Some ca → flag_at h (flagSet ca) n = None.
Proof. intros Hb a ca Ha. apply bool_decide_eq_true_1 in Hb. exact (Hb a ca Ha). Qed.

(** C2 at the run [prog -verbose echo --case=upper hello world]:
    [verbose], declared on the root, is in the flag set of [echo] when the
    loop ends, where [Set] and [-verbose=false] set it; [user] is on no
    node of the tree. *)
Lemma flags_follow_the_path_witness :
  (∃ fl', flag_at echo_h3 1 "verbose" = Some fl' ∧ Value_of fl' = 0 ∧
     (∃ h2, FlagSet_Set "main.go:1" 1 "verbose" "false" echo_h3 = Done None h2 ∧
            Lookup_String h2 1 "verbose" = Some "false") ∧
     (∃ h2, Parse (usage echo_cs) 1 ["-verbose=false"] echo_h3 = Done None h2 ∧
            Lookup_String h2 1 "verbose" = Some "false")) ∧
  flag_at echo_h3 1 "user" = None.
Proof.
  destruct (flags_follow_the_path echo_cs 6 0 (tail echo_args) (middlewares (node echo_cs 0))
              echo_h 1 ["hello"; "world"] (acc echo_z) echo_h3 echo_loop)
    as (p & z & Hw & _ & Hz & Hin & Hout).
  destruct (walk_ends _ _ _ _ Hw) as (_ & Hlast & H0 & Hn).
  rewrite Hz in Hlast, Hn. split.
  - destruct (Hin 0%nat (pred (length p)) 0 1 (node echo_cs 0) (node echo_cs 1) "verbose"
                (mkFlag "Enable verbose output" 0 "false")
                (Nat.le_0_l _) H0 Hn eq_refl eq_refl eq_refl) as (fl' & Hfl' & Hv & Hset).
    destruct (Hset "false" (boolValue true) "false" eq_refl eq_refl) as [HS HP].
    exists fl'. split; [exact Hfl'|]. split; [exact Hv|]. split.
    + exact (HS "main.go:1").
    + exact (HP eq_refl false).
  - refine (Hout "user" _ 1 (node echo_cs 1) Hlast eq_refl).
    intros a ca _. apply (no_flag echo_cs echo_h "user"). by_run.
Defined.

Lemma flag_x_facts :
  parseOne (usage echo_cs) (flagSet (node echo_cs 0)) flag_x_0 = Done (true, None) flag_x_1 ∧
  fsets flag_x_1 !! flagSet (node echo_cs 0) = Some (flags_of flag_x_1 0) ∧
  fs_args (flags_of flag_x_1 0) = [flag_token false "x" None] ∧
  formal (flags_of flag_x_1 0) !! "x" = None ∧
  errorHandling (flags_of flag_x_1 0) = ExitOnError ∧
  FlagSet_Usage (flags_of flag_x_1 0) = Some 0.
Proof. split_and!; by_run. Qed.

(** C5 as the code has it, at the run [prog -verbose -x]: [-x] comes after
    a flag the root has. *)
Lemma undeclared_flag_exits_witness :
  flag_at echo_h 0 "x" = None ∧
  ∃ hf,
    Execute echo_cs 0 context_Background ["prog"; "-verbose"; "-x"] echo_h = Exit 2 hf ∧
    written hf
    = [(os_Stderr, "flag provided but not defined: -x" +:+ LF);
       (os_Stderr,
        "Usage: prog [OPTIONS] COMMAND" +:+ LF +:+ LF
        +:+ "Example command" +:+ LF +:+ LF
        +:+ "Options:" +:+ LF
        +:+ "  -verbose" +:+ LF +:+ "    " +:+ TAB +:+ "Enable verbose output" +:+ LF +:+ LF
        +:+ "Subcommands:" +:+ LF
        +:+ "  echo" +:+ LF)].
Proof.
  split; [reflexivity|].
  destruct flag_x_facts as (Hone & Hfs & Hargs & Hnone & Heh & HU).
  destruct (undeclared_flag_exits echo_cs 0 (node echo_cs 0) context_Background "prog"
              ["-verbose"; "-x"] echo_h [0] flag_x (node echo_cs 0) eq_refl
              (walk_here echo_cs flag_x) eq_refl) as [Hflag _].
  destruct (Hflag (flags_of echo_h 0) flag_x_1 (flags_of flag_x_1 0) false "x" None []
              [(0, "prog")] eq_refl
              (flags_parsed_one _ _ flag_x_0 flag_x_1 flag_x_1 Hone
                 (flags_parsed_none _ _ flag_x_1))
              Hfs Hargs eq_refl Hnone Heh HU
              (ancestry_root echo_cs 0 (node echo_cs 0) eq_refl eq_refl)
              (children_allocated echo_cs (node echo_cs 0) eq_refl))
    as (hf & HE & Hw).
  exists hf. split; [exact HE|]. rewrite Hw. by_run.
Defined.

(** C10 at the run [prog -verbose echo --case=upper hello world]:
    [verbose] was parsed at the root and reads the same through both flag
    sets. *)
Lemma inherited_flag_shares_value_witness :
  Lookup_String echo_h3 0 "verbose" = Some "true" ∧
  Lookup_String echo_h3 0 "verbose" = Lookup_String echo_h3 1 "verbose".
Proof.
  split; [reflexivity|].
  destruct (inherited_flag_shares_value (built echo_main echo_args) 6 0 (tail echo_args)
              (middlewares (node echo_cs 0)) echo_h 1 ["hello"; "world"] (acc echo_z) echo_h3
              echo_assembled echo_loop) as (p & z & Hw & _ & Hz & Hshare).
  destruct (walk_ends _ _ _ _ Hw) as (Hfirst & Hlast & _). rewrite Hz in Hlast.
  exact (proj2 (Hshare 0 1 (node echo_cs 0) (node echo_cs 1) "verbose"
                  (mkFlag "Enable verbose output" 0 "false")
                  (mkFlag "Enable verbose output" 0 "true")
                  Hfirst Hlast eq_refl eq_refl eq_refl eq_refl)).
Defined.

Lemma echo_first_facts :
  Parse (usage echo_cs) (flagSet (node echo_cs 0)) (tail echo_args) echo_h
  = Done None echo_h1 ∧
  fsets echo_h1 !! flagSet (node echo_cs 0) = Some (flags_of echo_h1 0) ∧
  fs_args (flags_of echo_h1 0) = "echo" :: ["--case=upper"; "hello"; "world"] ∧
  formal (flags_of echo_h1 0) !! "verbose" = Some (mkFlag "Enable verbose output" 0 "false") ∧
  vals echo_h1 !! 0 = Some (boolValue true).
Proof. split_and!; by_run. Qed.

(** X10 at the same run: [verbose] has the default [false] on the root
    and, once [-verbose] is parsed, the default [true] in [echo]. *)
Lemma inherited_default_is_current_witness :
  flag_at echo_h 0 "verbose" = Some (mkFlag "Enable verbose output" 0 "false") ∧
  flag_at echo_h3 1 "verbose" = Some (mkFlag "Enable verbose output" 0 "true").
Proof.
  split; [reflexivity|].
  destruct echo_first_facts as (HP & Hfs & Hargs & Hfl & Hval).
  destruct (inherited_default_is_current echo_cs 0 (node echo_cs 0) (tail echo_args)
              (middlewares (node echo_cs 0)) echo_h echo_h1 (flags_of echo_h1 0) "echo"
              ["--case=upper"; "hello"; "world"] 1 (node echo_cs 1) 5
              (1, ["hello"; "world"], acc echo_z) echo_h3
              eq_refl HP Hfs Hargs eq_refl eq_refl echo_loop) as (h2 & _ & Hall).
  destruct (Hall "verbose" (mkFlag "Enable verbose output" 0 "false") Hfl)
    as (v & Hv & _ & Hf).
  refine (eq_trans Hf _).
  pose proof (eq_trans (eq_sym Hv) Hval) as Hsame. injection Hsame as ->. reflexivity.
Defined.

(** X14 on the node [repos] of the second program as built, the second
    call ranging over the children the other way round. *)
Lemma usage_leaves_its_builder_witness :
  ∃ h1 h2,
    @usage plain_runtime github_cs 1 github_h = Done tt h1 ∧
    @usage reversed_runtime github_cs 1 h1 = Done tt h2 ∧
    (written h2).*1 = [os_Stderr; strings_Builder].
Proof.
  destruct (usage_leaves_its_builder plain_runtime reversed_runtime github_cs 1
              (node github_cs 1) (flags_of github_h 1)
              [(0, "prog"); (1, "repos")] github_h
              eq_refl eq_refl repos_ancestry
              (children_allocated github_cs (node github_cs 1) eq_refl))
    as (h1 & h2 & Hu1 & Hw1 & _ & Hu2 & Hw2).
  exists h1, h2. split; [exact Hu1|]. split; [exact Hu2|]. rewrite Hw2, Hw1. reflexivity.
Defined.

End Runs.
